(** * ResourceManager (src/resource-manager.ts): a shallow embedding

    The class keeps a JavaScript [Map] from cache keys to [ResourceInfo]
    objects and has three asynchronous methods: [getResource],
    [cleanupInactiveResources] (run by a [setInterval] timer) and
    [destroyAllNow].  JavaScript runs each method without interruption up
    to its next [await]; there other calls may run.  Every method is
    therefore cut at its [await] into a "call" part and a "resume" part,
    both pure functions on the manager's fields.  What the environment
    decides (the value of [Date.now()], the identifier drawn by
    [uuidv4()], whether a promise fulfils or rejects) is an argument.
    What the manager does to its environment (calls of the factory, calls
    of a cleanup function, calls of the logger) is returned as a list of
    effects.

    - Numbers ([Date.now()], [cleanupIntervalMs]) are integers, [Z].
    - [uuidv4()] returns a fresh identifier; identifiers are [nat] and the
      event loop below hands out a new one at each call.
    - The resource type [T] and the types of factory and cleanup function
      values are parameters: the manager never looks inside them.
    - A cleanup function has type [(resource: T) => Promise<void>]: calling
      it yields a promise, which later fulfils or rejects, or the call
      throws before it returns one.  The same holds for the factory, of
      type [(key: string) => Promise<T>].  [getResource] and the sweep make
      the call under [await] inside [try]: a throw and a rejection reach
      the same [catch], and both are a promise that rejects here.
      [destroyAllNow] makes the call outside any [try]: there a throw is
      told apart.
    - The functions the manager calls do not call the manager back before
      they return.
    - A stored [ResourceInfo] object is assigned to in one place, its
      [lastUsed] in [getResource]; the sweep reads the entry from the map
      again after every [await], and what a method keeps of an entry
      across an [await] is used for the [instanceId] in a log message.  So
      the map holds the entries as values, and an assignment to [lastUsed]
      is a [set] at the entry's key. *)

From Stdlib Require Import List String ZArith Bool Arith Lia.
Import ListNotations.
Local Open Scope string_scope.
Local Open Scope list_scope.

(** ** The JavaScript [Map]: string keys, insertion order kept *)

Module JsMap.

Definition t (V : Type) : Type := list (string * V).

Section Ops.
Context {V : Type}.

Fixpoint get (k : string) (m : t V) : option V :=
  match m with
  | [] => None
  | (k', v) :: m' => if String.eqb k k' then Some v else get k m'
  end.

(** [set] on a key that is present keeps its place in the iteration
    order; a new key goes to the end. *)
Fixpoint set (k : string) (v : V) (m : t V) : t V :=
  match m with
  | [] => [(k, v)]
  | (k', v') :: m' =>
      if String.eqb k k' then (k', v) :: m' else (k', v') :: set k v m'
  end.

Fixpoint delete (k : string) (m : t V) : t V :=
  match m with
  | [] => []
  | (k', v') :: m' =>
      if String.eqb k k' then delete k m' else (k', v') :: delete k m'
  end.

Definition clear (m : t V) : t V := [].
Definition size (m : t V) : nat := List.length m.
Definition keys (m : t V) : list string := map fst m.
Definition values (m : t V) : list V := map snd m.
End Ops.

End JsMap.

(** ** Values thrown, promises settled *)

(** A thrown value is an [Error] with its [message], or something else,
    kept as what [String(error)] gives. *)
Inductive Thrown : Type :=
| ErrorObj (message : string)
| NonError (asString : string).

(** [error instanceof Error ? error.message : String(error)] *)
Definition error_text (e : Thrown) : string :=
  match e with
  | ErrorObj message => message
  | NonError s => s
  end.

Inductive Settled (A : Type) : Type :=
| Fulfilled (a : A)
| Rejected (e : Thrown).
Arguments Fulfilled {A} a.
Arguments Rejected {A} e.

(** ** Calls of the logger, one constructor per call site

    The constructors follow the source from top to bottom; each keeps the
    values its message is built from. *)

Inductive LogLevel : Type := LError | LWarn | LInfo | LDebug.

Inductive LogEntry : Type :=
| ReusingExisting (resourceType : string) (instanceId : nat) (key : string)
| TypeMismatch (key expected found : string)
| CreatingNew (resourceType key : string)
| CreatedResource (resourceType : string) (instanceId : nat)
| CreateFailed (resourceType key text : string)
| TimerStarted
| TimerStopped
| SweepRunning
| SweepNoneFound
| SweepFound (n : nat)
| SweepCleaning (resourceType : string) (instanceId : nat) (key : string)
| SweepCleaned (instanceId : nat)
| SweepCleanupError (instanceId : nat) (text : string)
| SweepFinished (cleanedCount : nat)
| SweepNothingRemoved
| DestroyStart
| DestroyInitiating (resourceType : string) (instanceId : nat) (key : string)
| DestroyCleanupError (instanceId : nat) (text : string)
| DestroyFinished (finalCount : nat).

Definition level (e : LogEntry) : LogLevel :=
  match e with
  | ReusingExisting _ _ _ | SweepRunning | SweepNoneFound
  | SweepNothingRemoved => LDebug
  | TypeMismatch _ _ _ | DestroyStart | DestroyFinished _ => LWarn
  | CreateFailed _ _ _ | SweepCleanupError _ _
  | DestroyCleanupError _ _ => LError
  | _ => LInfo
  end.

Section ResourceManager.

Context {T F C : Type}.

(** ** The data *)

Record ResourceInfo : Type := {
  resource : T;
  lastUsed : Z;
  instanceId : nat;
  resourceType : string;
  cacheKey : string;
  cleanupFn : C
}.

(** [info.lastUsed = Date.now()], the only assignment to a field of a
    stored object. *)
Definition touch (info : ResourceInfo) (clock : Z) : ResourceInfo :=
  {| resource := resource info;
     lastUsed := clock;
     instanceId := instanceId info;
     resourceType := resourceType info;
     cacheKey := cacheKey info;
     cleanupFn := cleanupFn info |}.

(** The fields of the class; [cleanupTimer] is [true] when the field
    holds a timer and [false] when it is [null]. *)
Record ResourceManager : Type := {
  resources : JsMap.t ResourceInfo;
  cleanupIntervalMs : Z;
  cleanupTimer : bool
}.

Definition with_resources (m : ResourceManager)
    (r : JsMap.t ResourceInfo) : ResourceManager :=
  {| resources := r;
     cleanupIntervalMs := cleanupIntervalMs m;
     cleanupTimer := cleanupTimer m |}.

Inductive Effect : Type :=
| Log (e : LogEntry)
| CallFactory (factoryFn : F) (key : string)
    (* factoryFn(key) *)
| CallCleanup (key : string) (info : ResourceInfo).
    (* info.cleanupFn(info.resource), info found under key *)

(** ** constructor, startCleanupTimer, stopCleanupTimer *)

(** A timer still running is cleared first; the field then holds the new
    timer. *)
Definition startCleanupTimer (m : ResourceManager)
    : ResourceManager * list Effect :=
  ({| resources := resources m;
      cleanupIntervalMs := cleanupIntervalMs m;
      cleanupTimer := true |},
   [Log TimerStarted]).

(** [options?.cleanupIntervalMs ?? config.resourceCleanupInterval] *)
Definition constructor (cleanupIntervalMsOption : option Z)
    (resourceCleanupInterval : Z) : ResourceManager :=
  fst (startCleanupTimer
         {| resources := [];
            cleanupIntervalMs :=
              match cleanupIntervalMsOption with
              | Some i => i
              | None => resourceCleanupInterval
              end;
            cleanupTimer := false |}).

Definition stopCleanupTimer (m : ResourceManager)
    : ResourceManager * list Effect :=
  if cleanupTimer m
  then ({| resources := resources m;
           cleanupIntervalMs := cleanupIntervalMs m;
           cleanupTimer := false |},
        [Log TimerStopped])
  else (m, []).

(** ** getResource *)

(** What is live across [await factoryFn(key)]. *)
Record GetFrame : Type := {
  g_key : string;
  g_resourceType : string;
  g_cleanupFn : C
}.

Inductive GetStep : Type :=
| GetDone (r : T)
| GetAwait (k : GetFrame).

(** Lines 44-63: up to the return of the cached resource or to the
    [await] of the factory. *)
Definition getResource_call (m : ResourceManager) (clock : Z)
    (key resourceType_ : string) (factoryFn : F) (cleanupFn_ : C)
    : ResourceManager * list Effect * GetStep :=
  match JsMap.get key (resources m) with
  | Some existingInfo =>
      (with_resources m
         (JsMap.set key (touch existingInfo clock) (resources m)),
       Log (ReusingExisting (resourceType existingInfo)
              (instanceId existingInfo) key)
       :: (if String.eqb (resourceType existingInfo) resourceType_
           then []
           else [Log (TypeMismatch key resourceType_
                        (resourceType existingInfo))]),
       GetDone (resource existingInfo))
  | None =>
      (m,
       [Log (CreatingNew resourceType_ key); CallFactory factoryFn key],
       GetAwait {| g_key := key;
                   g_resourceType := resourceType_;
                   g_cleanupFn := cleanupFn_ |})
  end.

Definition creation_error (resourceType_ : string) (e : Thrown) : Thrown :=
  ErrorObj ("Resource factory function failed for type "
            ++ resourceType_ ++ ": " ++ error_text e)%string.

(** Lines 63-86: after the factory's promise has settled. *)
Definition getResource_resume (m : ResourceManager) (clock : Z)
    (uuid : nat) (k : GetFrame) (outcome : Settled T)
    : ResourceManager * list Effect * Settled T :=
  match outcome with
  | Fulfilled newResource =>
      let newInfo :=
        {| resource := newResource;
           lastUsed := clock;
           instanceId := uuid;
           resourceType := g_resourceType k;
           cacheKey := g_key k;
           cleanupFn := g_cleanupFn k |} in
      (with_resources m (JsMap.set (g_key k) newInfo (resources m)),
       [Log (CreatedResource (g_resourceType k) uuid)],
       Fulfilled newResource)
  | Rejected e =>
      (m,
       [Log (CreateFailed (g_resourceType k) (g_key k) (error_text e))],
       Rejected (creation_error (g_resourceType k) e))
  end.

(** ** cleanupInactiveResources *)

(** [now - info.lastUsed > this.cleanupIntervalMs] *)
Definition inactive (m : ResourceManager) (now : Z)
    (info : ResourceInfo) : bool :=
  (now - lastUsed info >? cleanupIntervalMs m)%Z.

(** Lines 114-119. *)
Definition keysToRemove (m : ResourceManager) (now : Z) : list string :=
  map fst (filter (fun kv => inactive m now (snd kv)) (resources m)).

(** What is live across [await info.cleanupFn(info.resource)]. *)
Record SweepFrame : Type := {
  s_now : Z;
  s_cleanedCount : nat;
  s_key : string;
  s_info : ResourceInfo;
  s_rest : list string
}.

Inductive SweepStep : Type :=
| SweepDone
| SweepAwait (k : SweepFrame).

(** Lines 153-157. *)
Definition sweep_finish (cleanedCount : nat) : list Effect :=
  if (0 <? cleanedCount)%nat
  then [Log (SweepFinished cleanedCount)]
  else [Log SweepNothingRemoved].

(** Lines 129-131: the look-up and the second check. *)
Definition sweep_check (m : ResourceManager) (now : Z) (key : string)
    : option ResourceInfo :=
  match JsMap.get key (resources m) with
  | Some info => if inactive m now info then Some info else None
  | None => None
  end.

Definition sweep_invoke (key : string) (info : ResourceInfo)
    : list Effect :=
  [Log (SweepCleaning (resourceType info) (instanceId info) key);
   CallCleanup key info].

(** Lines 128-157 from the head of the [for] loop to the next [await]
    or to the end of the method. *)
Fixpoint sweep_loop (m : ResourceManager) (now : Z) (cleanedCount : nat)
    (keys : list string) : list Effect * SweepStep :=
  match keys with
  | [] => (sweep_finish cleanedCount, SweepDone)
  | key :: rest =>
      match sweep_check m now key with
      | Some info =>
          (sweep_invoke key info,
           SweepAwait {| s_now := now;
                         s_cleanedCount := cleanedCount;
                         s_key := key;
                         s_info := info;
                         s_rest := rest |})
      | None => sweep_loop m now cleanedCount rest
      end
  end.

(** Lines 110-136: the timer's callback up to its first [await]. *)
Definition cleanupInactiveResources_call (m : ResourceManager) (now : Z)
    : list Effect * SweepStep :=
  match keysToRemove m now with
  | [] => ([Log SweepRunning; Log SweepNoneFound], SweepDone)
  | keys =>
      let (effs, st) := sweep_loop m now 0 keys in
      (Log SweepRunning :: Log (SweepFound (List.length keys)) :: effs, st)
  end.

(** Lines 136-149: what follows the [await] inside [try]/[catch].  The
    [delete] in the [catch] branch is commented out in the source. *)
Definition sweep_settle (m : ResourceManager) (key : string)
    (info : ResourceInfo) (cleanedCount : nat) (outcome : Settled unit)
    : ResourceManager * list Effect * nat :=
  match outcome with
  | Fulfilled _ =>
      (with_resources m (JsMap.delete key (resources m)),
       [Log (SweepCleaned (instanceId info))],
       S cleanedCount)
  | Rejected e =>
      (m,
       [Log (SweepCleanupError (instanceId info) (error_text e))],
       cleanedCount)
  end.

Definition cleanupInactiveResources_resume (m : ResourceManager)
    (k : SweepFrame) (outcome : Settled unit)
    : ResourceManager * list Effect * SweepStep :=
  let '(m', effs, cleanedCount) :=
    sweep_settle m (s_key k) (s_info k) (s_cleanedCount k) outcome in
  let (effs', st) := sweep_loop m' (s_now k) cleanedCount (s_rest k) in
  (m', effs ++ effs', st).

(** ** destroyAllNow *)

Definition destroy_invoke (kv : string * ResourceInfo) : list Effect :=
  [Log (DestroyInitiating (resourceType (snd kv)) (instanceId (snd kv))
          (fst kv));
   CallCleanup (fst kv) (snd kv)].

(** Whether [info.cleanupFn(info.resource).catch(...)], evaluated for the
    entry found under a key, throws, and what: the call of the cleanup
    function throws before it returns a promise, or it returns a value
    that is no promise and has no [catch]. *)
Definition ThrowOracle : Type := string -> ResourceInfo -> option Thrown.

(** No call throws: so it is when every cleanup function is an [async]
    function, whose call always returns a promise. *)
Definition never_throws : ThrowOracle := fun _ _ => None.

(** The method reaches [await Promise.allSettled(cleanupPromises)] with
    the entries whose promises it awaits, or a cleanup function threw and
    the value thrown leaves the method at once; [started] are then the
    entries whose promises were made before, which nobody awaits. *)
Inductive DestroyStep : Type :=
| DestroyAwait (pending : list (string * ResourceInfo))
| DestroyThrown (e : Thrown) (started : list (string * ResourceInfo)).

(** Lines 168-182: the [for] loop.  The cleanup function is called
    outside any [try]; [.catch] is attached to the promise it returns. *)
Fixpoint destroy_loop (throws : ThrowOracle)
    (entries : list (string * ResourceInfo)) : list Effect * DestroyStep :=
  match entries with
  | [] => ([], DestroyAwait [])
  | kv :: rest =>
      match throws (fst kv) (snd kv) with
      | Some e => (destroy_invoke kv, DestroyThrown e [])
      | None =>
          let (effs, st) := destroy_loop throws rest in
          (destroy_invoke kv ++ effs,
           match st with
           | DestroyAwait pending => DestroyAwait (kv :: pending)
           | DestroyThrown e started => DestroyThrown e (kv :: started)
           end)
      end
  end.

(** Lines 164-184: up to [await Promise.allSettled(cleanupPromises)], or
    to the throw that ends the method before. *)
Definition destroyAllNow_call (throws : ThrowOracle) (m : ResourceManager)
    : ResourceManager * list Effect * DestroyStep :=
  let (m1, effs) := stopCleanupTimer m in
  let (effs', st) := destroy_loop throws (resources m1) in
  (m1, Log DestroyStart :: effs ++ effs', st).

(** The [.catch] handler of each promise: a rejection is logged and the
    promise handed to [allSettled] fulfils. *)
Definition destroy_catch (p : (string * ResourceInfo) * Settled unit)
    : list Effect :=
  match snd p with
  | Fulfilled _ => []
  | Rejected e =>
      [Log (DestroyCleanupError (instanceId (snd (fst p)))
              (error_text e))]
  end.

(** Lines 184-191: after every promise has settled. *)
Definition destroyAllNow_resume (m : ResourceManager)
    (pending : list (string * ResourceInfo))
    (outcomes : list (Settled unit))
    : ResourceManager * list Effect * Settled unit :=
  (with_resources m (JsMap.clear (resources m)),
   flat_map destroy_catch (combine pending outcomes)
   ++ [Log (DestroyFinished (JsMap.size (resources m)))],
   Fulfilled tt).

(** The promises made before a throw, once they have settled: nothing
    waits for them, and the [.catch] handler of each logs a rejection. *)
Definition destroy_orphans (started : list (string * ResourceInfo))
    (outcomes : list (Settled unit)) : list Effect :=
  flat_map destroy_catch (combine started outcomes).

(** ** The methods run with no other call in between

    The promise awaited settles as the caller of these functions says,
    and nothing else runs while the method waits. *)

Definition getResource (m : ResourceManager) (clock clock' : Z)
    (uuid : nat) (key resourceType_ : string) (factoryFn : F)
    (cleanupFn_ : C) (outcome : Settled T)
    : ResourceManager * list Effect * Settled T :=
  let '(m1, effs, st) :=
    getResource_call m clock key resourceType_ factoryFn cleanupFn_ in
  match st with
  | GetDone r => (m1, effs, Fulfilled r)
  | GetAwait k =>
      let '(m2, effs', r) := getResource_resume m1 clock' uuid k outcome in
      (m2, effs ++ effs', r)
  end.

(** How the cleanup of the entry found under a key settles. *)
Definition CleanupOracle : Type := string -> ResourceInfo -> Settled unit.

(** The [for] loop of lines 128-151 followed by lines 153-157. *)
Fixpoint sweep_all (oracle : CleanupOracle) (m : ResourceManager)
    (now : Z) (cleanedCount : nat) (keys : list string)
    : ResourceManager * list Effect :=
  match keys with
  | [] => (m, sweep_finish cleanedCount)
  | key :: rest =>
      match sweep_check m now key with
      | Some info =>
          let '(m', effs, cleanedCount') :=
            sweep_settle m key info cleanedCount (oracle key info) in
          let (m'', effs') := sweep_all oracle m' now cleanedCount' rest in
          (m'', sweep_invoke key info ++ effs ++ effs')
      | None => sweep_all oracle m now cleanedCount rest
      end
  end.

Definition cleanupInactiveResources (oracle : CleanupOracle)
    (m : ResourceManager) (now : Z) : ResourceManager * list Effect :=
  match keysToRemove m now with
  | [] => (m, [Log SweepRunning; Log SweepNoneFound])
  | keys =>
      let (m', effs) := sweep_all oracle m now 0 keys in
      (m', Log SweepRunning :: Log (SweepFound (List.length keys)) :: effs)
  end.

(** Where a cleanup function throws, the method's promise rejects with
    the value thrown and lines 184-190 are not reached; the promises made
    before settle as the oracle says and their [.catch] handlers log. *)
Definition destroyAllNow (throws : ThrowOracle) (oracle : CleanupOracle)
    (m : ResourceManager) : ResourceManager * list Effect * Settled unit :=
  let '(m1, effs, st) := destroyAllNow_call throws m in
  match st with
  | DestroyAwait pending =>
      let '(m2, effs', r) :=
        destroyAllNow_resume m1 pending
          (map (fun kv => oracle (fst kv) (snd kv)) pending) in
      (m2, effs ++ effs', r)
  | DestroyThrown e started =>
      (m1,
       effs ++ destroy_orphans started
                 (map (fun kv => oracle (fst kv) (snd kv)) started),
       Rejected e)
  end.

(** The same sweep, obtained by resuming the suspended method with the
    oracle's answer as long as it waits. *)
Fixpoint sweep_drive (oracle : CleanupOracle) (fuel : nat)
    (m : ResourceManager) (st : SweepStep)
    : option (ResourceManager * list Effect) :=
  match st with
  | SweepDone => Some (m, [])
  | SweepAwait k =>
      match fuel with
      | O => None
      | S fuel' =>
          let '(m', effs, st') :=
            cleanupInactiveResources_resume m k
              (oracle (s_key k) (s_info k)) in
          match sweep_drive oracle fuel' m' st' with
          | Some (m'', effs') => Some (m'', effs ++ effs')
          | None => None
          end
      end
  end.

(** ** The event loop

    Calls that wait are kept as tasks.  An input is a call from outside,
    a tick of the timer, or the settling of a promise some task waits
    for.  [step] is [None] when the input cannot happen: no such task,
    or a timer that was cleared.  A call of [destroyAllNow] that ends
    with a throw has its result at once; the promises it made before are
    kept as a task of their own, [TOrphans], which no call waits for. *)

Inductive Task : Type :=
| TGet (k : GetFrame)
| TSweep (k : SweepFrame)
| TDestroy (pending : list (string * ResourceInfo))
| TOrphans (started : list (string * ResourceInfo)).

Inductive CallResult : Type :=
| GetResult (r : Settled T)
| SweepResult
| DestroyResult (r : Settled unit).

Record World : Type := {
  manager : ResourceManager;
  tasks : list (nat * Task);
  nextTask : nat;
  nextUuid : nat;
  effects : list Effect;
  results : list (nat * CallResult)
}.

Inductive Input : Type :=
| CallGet (clock : Z) (key resourceType_ : string) (factoryFn : F)
    (cleanupFn_ : C)
| FactorySettles (tid : nat) (clock : Z) (outcome : Settled T)
| TimerFires (clock : Z)
| CleanupSettles (tid : nat) (outcome : Settled unit)
| CallDestroy (throws : ThrowOracle)
| AllSettle (tid : nat) (outcomes : list (Settled unit))
| CallStopTimer.

Fixpoint find_task (tid : nat) (ts : list (nat * Task)) : option Task :=
  match ts with
  | [] => None
  | (tid', t) :: ts' =>
      if Nat.eqb tid tid' then Some t else find_task tid ts'
  end.

Definition drop_task (tid : nat) (ts : list (nat * Task))
    : list (nat * Task) :=
  filter (fun p => negb (Nat.eqb tid (fst p))) ts.

Definition new_world (m : ResourceManager) : World :=
  {| manager := m; tasks := []; nextTask := 0; nextUuid := 0;
     effects := []; results := [] |}.

(** A call from outside starts a task with a new number; the task waits
    ([inl t]) or has its result at once ([inr res]). *)
Definition start (w : World) (m : ResourceManager) (effs : list Effect)
    (next : Task + CallResult) : World :=
  {| manager := m;
     tasks := match next with
              | inl t => tasks w ++ [(nextTask w, t)]
              | inr _ => tasks w
              end;
     nextTask := S (nextTask w);
     nextUuid := nextUuid w;
     effects := effects w ++ effs;
     results := match next with
                | inl _ => results w
                | inr res => results w ++ [(nextTask w, res)]
                end |}.

(** A waiting task runs on: it waits again ([inl t]) or ends with a
    result ([inr res]). *)
Definition continue (w : World) (tid : nat) (m : ResourceManager)
    (uuid : nat) (effs : list Effect) (next : Task + CallResult) : World :=
  {| manager := m;
     tasks := match next with
              | inl t => drop_task tid (tasks w) ++ [(tid, t)]
              | inr _ => drop_task tid (tasks w)
              end;
     nextTask := nextTask w;
     nextUuid := uuid;
     effects := effects w ++ effs;
     results := match next with
                | inl _ => results w
                | inr res => results w ++ [(tid, res)]
                end |}.

(** A call of [destroyAllNow] ends with a throw: its promise rejects,
    and the promises made before stay behind. *)
Definition abort (w : World) (m : ResourceManager) (effs : list Effect)
    (e : Thrown) (started : list (string * ResourceInfo)) : World :=
  {| manager := m;
     tasks := tasks w ++ [(nextTask w, TOrphans started)];
     nextTask := S (nextTask w);
     nextUuid := nextUuid w;
     effects := effects w ++ effs;
     results := results w ++ [(nextTask w, DestroyResult (Rejected e))] |}.

(** Promises that nobody awaits have settled: their handlers have run. *)
Definition settle_orphans (w : World) (tid : nat) (effs : list Effect)
    : World :=
  {| manager := manager w;
     tasks := drop_task tid (tasks w);
     nextTask := nextTask w;
     nextUuid := nextUuid w;
     effects := effects w ++ effs;
     results := results w |}.

Definition sweep_next (st : SweepStep) : Task + CallResult :=
  match st with
  | SweepDone => inr SweepResult
  | SweepAwait k => inl (TSweep k)
  end.

Definition step (w : World) (i : Input) : option World :=
  match i with
  | CallGet clock key resourceType_ factoryFn cleanupFn_ =>
      let '(m, effs, st) :=
        getResource_call (manager w) clock key resourceType_ factoryFn
          cleanupFn_ in
      match st with
      | GetDone r => Some (start w m effs (inr (GetResult (Fulfilled r))))
      | GetAwait k => Some (start w m effs (inl (TGet k)))
      end
  | FactorySettles tid clock outcome =>
      match find_task tid (tasks w) with
      | Some (TGet k) =>
          let '(m, effs, r) :=
            getResource_resume (manager w) clock (nextUuid w) k outcome in
          Some (continue w tid m
                  (match outcome with
                   | Fulfilled _ => S (nextUuid w)
                   | Rejected _ => nextUuid w
                   end)
                  effs (inr (GetResult r)))
      | _ => None
      end
  | TimerFires clock =>
      if cleanupTimer (manager w)
      then
        let (effs, st) := cleanupInactiveResources_call (manager w) clock in
        Some (start w (manager w) effs (sweep_next st))
      else None
  | CleanupSettles tid outcome =>
      match find_task tid (tasks w) with
      | Some (TSweep k) =>
          let '(m, effs, st) :=
            cleanupInactiveResources_resume (manager w) k outcome in
          Some (continue w tid m (nextUuid w) effs (sweep_next st))
      | _ => None
      end
  | CallDestroy throws =>
      let '(m, effs, st) := destroyAllNow_call throws (manager w) in
      match st with
      | DestroyAwait pending =>
          Some (start w m effs (inl (TDestroy pending)))
      | DestroyThrown e started => Some (abort w m effs e started)
      end
  | AllSettle tid outcomes =>
      match find_task tid (tasks w) with
      | Some (TDestroy pending) =>
          if Nat.eqb (List.length outcomes) (List.length pending)
          then
            let '(m, effs, r) :=
              destroyAllNow_resume (manager w) pending outcomes in
            Some (continue w tid m (nextUuid w) effs
                    (inr (DestroyResult r)))
          else None
      | Some (TOrphans started) =>
          if Nat.eqb (List.length outcomes) (List.length started)
          then Some (settle_orphans w tid (destroy_orphans started outcomes))
          else None
      | _ => None
      end
  | CallStopTimer =>
      let (m, effs) := stopCleanupTimer (manager w) in
      Some {| manager := m; tasks := tasks w; nextTask := nextTask w;
              nextUuid := nextUuid w; effects := effects w ++ effs;
              results := results w |}
  end.

Fixpoint run (w : World) (inputs : list Input) : option World :=
  match inputs with
  | [] => Some w
  | i :: rest =>
      match step w i with
      | Some w' => run w' rest
      | None => None
      end
  end.

(** ** What the statements below speak about *)

Definition fulfilled {A : Type} (r : Settled A) : bool :=
  match r with
  | Fulfilled _ => true
  | Rejected _ => false
  end.

(** The number of calls of a cleanup function for the entry found under
    [key]. *)
Definition is_cleanup_of (key : string) (e : Effect) : bool :=
  match e with
  | CallCleanup k _ => String.eqb key k
  | _ => false
  end.

Definition cleanup_calls (key : string) (effs : list Effect) : nat :=
  List.length (filter (is_cleanup_of key) effs).

(** The number of calls of the cleanup function of the entry created
    with identifier [id]. *)
Definition cleans_instance (id : nat) (e : Effect) : bool :=
  match e with
  | CallCleanup _ info => Nat.eqb id (instanceId info)
  | _ => false
  end.

Definition instance_cleanups (id : nat) (effs : list Effect) : nat :=
  List.length (filter (cleans_instance id) effs).

Definition factory_calls (effs : list Effect) : nat :=
  List.length
    (filter (fun e => match e with CallFactory _ _ => true | _ => false end)
       effs).

(** The manager with its timer cleared. *)
Definition stopped (m : ResourceManager) : ResourceManager :=
  {| resources := resources m;
     cleanupIntervalMs := cleanupIntervalMs m;
     cleanupTimer := false |}.

(** The entry created with identifier [id] is in the store. *)
Definition stored (id : nat) (m : ResourceManager) : Prop :=
  exists kv, In kv (resources m) /\ instanceId (snd kv) = id.

(** A [Map] has each key once. *)
Definition unique_keys (m : ResourceManager) : Prop :=
  NoDup (JsMap.keys (resources m)).

(** Identifiers in the store were handed out, task numbers in use were
    handed out. *)
Definition world_ok (w : World) : Prop :=
  (forall kv, In kv (resources (manager w)) ->
              instanceId (snd kv) < nextUuid w)
  /\ (forall p, In p (tasks w) -> fst p < nextTask w).

(** Where a part of a method calls a cleanup function, the entry is in
    the store that the part started from. *)
Definition cleans_stored (m : ResourceManager) (effs : list Effect)
    : Prop :=
  forall key info, In (CallCleanup key info) effs ->
                   In (key, info) (resources m).

(** The entries after a part of a method are entries from before, up to
    [lastUsed], or carry the identifier [uuid]. *)
Definition keeps_or_adds (m m' : ResourceManager) (uuid : option nat)
    : Prop :=
  forall kv, In kv (resources m') ->
    (exists kv0, In kv0 (resources m)
                 /\ instanceId (snd kv0) = instanceId (snd kv))
    \/ uuid = Some (instanceId (snd kv)).

(** The entry created with identifier [id] has left the store: the
    identifier was handed out and no entry of the store carries it. *)
Definition gone (w : World) (id : nat) : Prop :=
  id < nextUuid w /\ ~ stored id (manager w).

(** The rest of a sweep once the cleanup it waits for has settled, with
    no other call in between. *)
Definition sweep_rest (oracle : CleanupOracle) (m : ResourceManager)
    (k : SweepFrame) (outcome : Settled unit)
    : ResourceManager * list Effect :=
  let '(m', effs, cleanedCount) :=
    sweep_settle m (s_key k) (s_info k) (s_cleanedCount k) outcome in
  let (m'', effs') :=
    sweep_all oracle m' (s_now k) cleanedCount (s_rest k) in
  (m'', effs ++ effs').

(** Later calls of [getResource] for one key, each with its own clock
    value, type label, factory and cleanup function; the manager after
    the part of each call that runs at once. *)
Fixpoint reacquire (m : ResourceManager) (key : string)
    (calls : list (Z * string * F * C)) : ResourceManager :=
  match calls with
  | [] => m
  | (clock, resourceType_, factoryFn, cleanupFn_) :: rest =>
      reacquire
        (fst (fst (getResource_call m clock key resourceType_ factoryFn
                     cleanupFn_)))
        key rest
  end.

(** ** What the further statements speak about *)

(** The identifiers of the entries in the store, in the map's order. *)
Definition ids (m : ResourceManager) : list nat :=
  map (fun kv => instanceId (snd kv)) (resources m).

(** Every entry is stored under the key it records. *)
Definition keys_match (m : ResourceManager) : Prop :=
  forall kv, In kv (resources m) -> cacheKey (snd kv) = fst kv.

(** The ways the methods change the map: [lastUsed] of an entry is set,
    an entry drawn with the identifier [uuid] is put under its key, a key
    is deleted, the map is cleared. *)
Inductive store_change (uuid : nat) (r : JsMap.t ResourceInfo)
    : JsMap.t ResourceInfo -> Prop :=
| change_none : store_change uuid r r
| change_touch key info clock :
    JsMap.get key r = Some info ->
    store_change uuid r (JsMap.set key (touch info clock) r)
| change_create key info :
    instanceId info = uuid -> cacheKey info = key ->
    store_change uuid r (JsMap.set key info r)
| change_delete key : store_change uuid r (JsMap.delete key r)
| change_clear : store_change uuid r [].

(** Some sweep waits for a cleanup. *)
Definition sweep_waiting (w : World) : Prop :=
  exists tid k, In (tid, TSweep k) (tasks w).

Definition is_destroy (i : Input) : bool :=
  match i with
  | CallDestroy _ => true
  | _ => false
  end.

(** The number of calls of cleanup functions, whatever the entry. *)
Definition cleanups (effs : list Effect) : nat :=
  List.length
    (filter (fun e => match e with CallCleanup _ _ => true | _ => false end)
       effs).

(** The list of waiting calls once the call numbered [tid] has run on:
    it waits as [t], or it has ended. *)
Definition put_task (tid : nat) (next : option Task)
    (ts : list (nat * Task)) : list (nat * Task) :=
  match next with
  | Some t => drop_task tid ts ++ [(tid, t)]
  | None => drop_task tid ts
  end.

(** The call that an input starts, or lets go on, by its number. *)
Definition runs_task (w : World) (i : Input) : option nat :=
  match i with
  | CallGet _ _ _ _ _ | TimerFires _ | CallDestroy _ => Some (nextTask w)
  | FactorySettles tid _ _ | CleanupSettles tid _ | AllSettle tid _ =>
      Some tid
  | CallStopTimer => None
  end.

(** What the loop has added to the effects between two worlds. *)
Definition added (w w' : World) : list Effect :=
  skipn (List.length (effects w)) (effects w').

(** Over a run, the number of calls that the call numbered [tid] (one
    sweep, or one call of [destroyAllNow]) makes of the cleanup function
    of the entry created with identifier [id]. *)
Fixpoint task_cleanups (tid id : nat) (w : World) (inputs : list Input)
    : nat :=
  match inputs with
  | [] => 0
  | i :: rest =>
      match step w i with
      | None => 0
      | Some w' =>
          (match runs_task w i with
           | Some tid' =>
               if Nat.eqb tid' tid then instance_cleanups id (added w w')
               else 0
           | None => 0
           end)
          + task_cleanups tid id w' rest
      end
  end.

(** What a part of a sweep that runs through [keys] does: it ends, and
    calls no cleanup; or it waits, having called the cleanup of the entry
    it found under one of the keys, with the keys after that one left. *)
Definition sweep_part (m : ResourceManager) (keys : list string)
    (effs : list Effect) (st : SweepStep) : Prop :=
  match st with
  | SweepDone => forall id, instance_cleanups id effs = 0
  | SweepAwait k =>
      (forall id, instance_cleanups id effs
                  = if Nat.eqb id (instanceId (s_info k)) then 1 else 0)
      /\ JsMap.get (s_key k) (resources m) = Some (s_info k)
      /\ exists before, keys = before ++ s_key k :: s_rest k
  end.

(** The frame of a sweep that waits: the keys it has still to visit are
    pairwise different and none is the key whose cleanup it awaits; the
    entry it found under that key was handed out, and an entry of the
    store that carries its identifier sits under that key. *)
Definition frame_ok (w : World) (k : SweepFrame) : Prop :=
  NoDup (s_key k :: s_rest k)
  /\ instanceId (s_info k) < nextUuid w
  /\ forall kv, In kv (resources (manager w)) ->
       instanceId (snd kv) = instanceId (s_info k) -> fst kv = s_key k.

(** A world as the loop makes them: identifiers and call numbers in use
    were handed out, the store is a map, its entries carry different
    identifiers, the calls that wait carry different numbers, and the
    frames of the sweeps that wait are as above. *)
Definition well_formed (w : World) : Prop :=
  world_ok w
  /\ unique_keys (manager w)
  /\ NoDup (ids (manager w))
  /\ NoDup (map fst (tasks w))
  /\ forall tid k, In (tid, TSweep k) (tasks w) -> frame_ok w k.

(** A sweep or a call of [destroyAllNow] waits for cleanups. *)
Definition cleaner (t : Task) : bool :=
  match t with
  | TSweep _ | TDestroy _ => true
  | _ => false
  end.

Definition cleaner_waiting (w : World) : bool :=
  existsb (fun p => cleaner (snd p)) (tasks w).

(** The cleanup of the entry created with identifier [id] is awaited: by
    a sweep that waits with this entry in its frame, or by a call of
    [destroyAllNow] that waits. *)
Definition awaited (w : World) (id : nat) : Prop :=
  exists tid t,
    In (tid, t) (tasks w)
    /\ match t with
       | TSweep k => instanceId (s_info k) = id
       | TDestroy _ => True
       | _ => False
       end.

(** So far every cleanup function was called at most once, and none for
    an identifier not yet handed out; an entry still in the store whose
    cleanup was called is awaited; at most one sweep or call of
    [destroyAllNow] waits. *)
Definition cleaned_once (w : World) : Prop :=
  (forall id, instance_cleanups id (effects w) <= 1)
  /\ (forall id, nextUuid w <= id -> instance_cleanups id (effects w) = 0)
  /\ (forall id, instance_cleanups id (effects w) = 1 ->
                 stored id (manager w) -> awaited w id)
  /\ (forall p p', In p (tasks w) -> In p' (tasks w) ->
                   cleaner (snd p) = true -> cleaner (snd p') = true ->
                   p = p').

(** A run in which no sweep and no call of [destroyAllNow] starts while
    another one waits, no cleanup awaited by a sweep rejects, and no
    cleanup function called by [destroyAllNow] throws. *)
Definition allowed (w : World) (i : Input) : Prop :=
  match i with
  | TimerFires _ => cleaner_waiting w = false
  | CallDestroy throws =>
      cleaner_waiting w = false
      /\ forall kv, In kv (resources (manager w)) ->
                    throws (fst kv) (snd kv) = None
  | CleanupSettles _ outcome => fulfilled outcome = true
  | _ => True
  end.

Fixpoint orderly (w : World) (inputs : list Input) : Prop :=
  match inputs with
  | [] => True
  | i :: rest =>
      allowed w i
      /\ match step w i with
         | Some w' => orderly w' rest
         | None => True
         end
  end.

End ResourceManager.

(** ** Concrete data for the examples

    Resources are tokens, factory and cleanup functions are named. *)

Module Examples.

Definition Mgr : Type := @ResourceManager string string.
Definition Info : Type := @ResourceInfo string string.
Definition Eff : Type := @Effect string string string.
Definition Wld : Type := @World string string string.
Definition Inp : Type := @Input string string string.

(** A manager with a 100 ms interval, as [new ResourceManager
    ({ cleanupIntervalMs: 100 })] makes it. *)
Definition mgr100 : Mgr :=
  constructor (F:=string) (Some 100%Z) 1800000%Z.

Definition entry (key r : string) (used : Z) (id : nat) (c : string)
    : string * Info :=
  (key, {| resource := r; lastUsed := used; instanceId := id;
           resourceType := "client"; cacheKey := key; cleanupFn := c |}).

(** The same manager holding "A" (last used at 0) and "B" (at 200). *)
Definition mgrAB : Mgr :=
  with_resources mgr100 [entry "A" "r1" 0 0 "closeA";
                         entry "B" "r2" 200 1 "closeB"].

(** A manager whose timer was stopped and that holds "X". *)
Definition mgrStoppedX : Mgr :=
  with_resources (fst (stopCleanupTimer (F:=string) mgr100))
    [entry "X" "rx" 0 0 "closeX"].

Definition rejects_all : @CleanupOracle string string :=
  fun _ _ => Rejected (ErrorObj "close failed").

Definition fulfils_all : @CleanupOracle string string :=
  fun _ _ => Fulfilled tt.

Definition world100 : Wld := new_world mgr100.

Definition infoA : Info := snd (entry "A" "r1" 0 0 "closeA").
Definition infoB : Info := snd (entry "B" "r2" 200 1 "closeB").

(** The cleanup of "B" fails, every other one succeeds. *)
Definition rejects_B : @CleanupOracle string string :=
  fun key _ =>
    if String.eqb key "B" then Rejected (NonError "still busy")
    else Fulfilled tt.

(** A sweep of [mgrAB] at 150 waits for the cleanup of "A", the only key
    it collected; at 350 it collected "A" and "B" and waits for "A". *)
Definition frame150 : @SweepFrame string string :=
  {| s_now := 150; s_cleanedCount := 0; s_key := "A"; s_info := infoA;
     s_rest := [] |}.

Definition frame350 : @SweepFrame string string :=
  {| s_now := 350; s_cleanedCount := 0; s_key := "A"; s_info := infoA;
     s_rest := ["B"] |}.

(** The world after the inputs, where they can all happen. *)
Definition after (w : Wld) (inputs : list Inp) : Wld :=
  match run w inputs with
  | Some w' => w'
  | None => w
  end.

(** "A" is created, found inactive by the sweep at 200, and its cleanup
    fails; the sweep at 300 finds it again. *)
Definition createA : list Inp :=
  [CallGet 0 "A" "client" "makeA" "closeA";
   FactorySettles 0 5 (Fulfilled "r1")].

Definition sweepA_fails_then_succeeds : list Inp :=
  [TimerFires 200; CleanupSettles 1 (Rejected (ErrorObj "close failed"));
   TimerFires 300; CleanupSettles 2 (Fulfilled tt)].

Definition sweepA_succeeds : list Inp :=
  [TimerFires 200; CleanupSettles 1 (Fulfilled tt)].

Definition createA_again_and_shutdown : list Inp :=
  [CallGet 400 "A" "client" "makeA" "closeA";
   FactorySettles 2 405 (Fulfilled "r3");
   CallDestroy never_throws; AllSettle 3 [Fulfilled tt]].

(** A shutdown, then "X" is created: the timer is stopped and the store
    is not empty. *)
Definition shutdown_then_createX : list Inp :=
  [CallDestroy never_throws; AllSettle 0 [];
   CallGet 0 "X" "client" "makeX" "closeX";
   FactorySettles 1 0 (Fulfilled "rx")].

(** A sweep of [mgrAB] at 350 waits for the cleanup of "A"; meanwhile
    "B" is asked for again; then the cleanup of "A" settles. *)
Definition sweep_with_B_reacquired : list Inp :=
  [TimerFires 350;
   CallGet 360 "B" "client" "makeB" "closeB";
   CleanupSettles 0 (Fulfilled tt)].

(** The same sweep with no call in between. *)
Definition sweep_undisturbed : list Inp :=
  [TimerFires 350;
   CleanupSettles 0 (Fulfilled tt);
   CleanupSettles 0 (Fulfilled tt)].

(** Interval 100 ms: "A" is created, asked for again at once, left alone
    while the timer ticks at 100 and 200, and asked for again at 300. *)
Definition lifecycle_of_A : list Inp :=
  [CallGet 0 "A" "client" "makeA" "closeA";
   FactorySettles 0 0 (Fulfilled "r1");
   CallGet 1 "A" "client" "makeA" "closeA";
   TimerFires 100;
   TimerFires 200;
   CleanupSettles 3 (Fulfilled tt);
   CallGet 300 "A" "client" "makeA" "closeA";
   FactorySettles 4 301 (Fulfilled "r2")].

(** A second sweep starts while the first still waits for the cleanup
    of "A". *)
Definition sweeps_overlap : list Inp := [TimerFires 200; TimerFires 300].

(** The cleanup function of "A" throws when it is called; no other one
    does. *)
Definition throws_A : @ThrowOracle string string :=
  fun key _ =>
    if String.eqb key "A" then Some (ErrorObj "not open") else None.

(** A manager with a negative interval, as [new ResourceManager
    ({ cleanupIntervalMs: -5 })] makes it. *)
Definition mgrNeg : Mgr :=
  constructor (F:=string) (Some (-5)%Z) 1800000%Z.

(** "A" and "B" are created, "A" at 0 and "B" at [usedB]. *)
Definition createAB (usedB : Z) : list Inp :=
  [CallGet 0 "A" "client" "makeA" "closeA";
   FactorySettles 0 0 (Fulfilled "r1");
   CallGet usedB "B" "client" "makeB" "closeB";
   FactorySettles 1 usedB (Fulfilled "r2")].

(** A sweep (call 2) scans at [now], collects "A" and "B" and waits for
    the cleanup of "A"; meanwhile "B" is asked for again at [clock]. *)
Definition scan_then_reacquire_B (now clock : Z) : list Inp :=
  [TimerFires now; CallGet clock "B" "client" "makeB" "closeB"].

(** The cleanup of "A" fulfils, and the one that comes next, if any. *)
Definition sweep_goes_on : list Inp :=
  [CleanupSettles 2 (Fulfilled tt); CleanupSettles 2 (Fulfilled tt)].

(** The frame of the sweep of [mgrAB] at 350 in the event loop. *)
Definition world350 : Wld :=
  after world100 (createAB 200 ++ [TimerFires 350]).

(** A shutdown that ends with the throw of the cleanup function of "A",
    then a second shutdown. *)
Definition shutdown_throws_then_again : list Inp :=
  [CallDestroy throws_A; CallDestroy never_throws].

(** The life of "A" followed by a shutdown. *)
Definition lifecycle_and_shutdown : list Inp :=
  lifecycle_of_A ++ [CallDestroy never_throws; AllSettle 5 [Fulfilled tt]].

End Examples.

(** * The code around the manager

    [src/logger.ts], [src/config.ts] and the parts of [src/index.ts] that
    use the manager. *)

(** ** logger.ts *)

Module Logger.

(** [logLevels]: the severity order. *)
Definition logLevels (l : LogLevel) : nat :=
  match l with
  | LError => 0
  | LWarn => 1
  | LInfo => 2
  | LDebug => 3
  end.

(** The two console methods used: [warn] and [info] write through
    [console.error] as [error] does, [debug] through [console.debug]. *)
Inductive Console : Type := ConsoleError | ConsoleDebug.

Definition console_of (l : LogLevel) : Console :=
  match l with
  | LDebug => ConsoleDebug
  | _ => ConsoleError
  end.

Definition tag (l : LogLevel) : string :=
  match l with
  | LError => "[ERROR] "
  | LWarn => "[WARN]  "
  | LInfo => "[INFO]  "
  | LDebug => "[DEBUG] "
  end.

(** [logger.error], [.warn], [.info], [.debug]: with [config.logLevel]
    and the text of [new Date().toISOString()], the console method called
    and its first argument, or nothing.  Further arguments are handed to
    the console method as they are. *)
Definition logger (configLogLevel l : LogLevel) (date message : string)
    : option (Console * string) :=
  if (logLevels l <=? logLevels configLogLevel)%nat
  then Some (console_of l, (tag l ++ date ++ " - " ++ message)%string)
  else None.

End Logger.

(** ** config.ts *)

Module Config.

(** A JavaScript number as far as the schema tells numbers apart. *)
Inductive JsNumber : Type :=
| JsNaN
| JsInfinity (negative : bool)
| JsInteger (z : Z)
| JsFraction.

(** The four variables read from [process.env]; [None] is [undefined]. *)
Record Env : Type := {
  API_KEY : option string;
  LOG_LEVEL : option string;
  RESOURCE_CLEANUP_INTERVAL : option string;
  AV_PREMIUM : option string
}.

(** The object handed to [ConfigSchema.safeParse]. *)
Record Raw : Type := {
  raw_apiKey : option string;
  raw_logLevel : option string;
  raw_resourceCleanupInterval : option JsNumber;
  raw_avPremium : option string
}.

Record t : Type := {
  apiKey : option string;
  logLevel : LogLevel;
  resourceCleanupInterval : Z;
  avPremium : bool
}.

(** [z.enum(['error', 'warn', 'info', 'debug']).default('info')] *)
Definition parse_logLevel (v : option string) : option LogLevel :=
  match v with
  | None => Some LInfo
  | Some s =>
      if String.eqb s "error" then Some LError
      else if String.eqb s "warn" then Some LWarn
      else if String.eqb s "info" then Some LInfo
      else if String.eqb s "debug" then Some LDebug
      else None
  end.

(** [z.number().int().positive().default(30 * 60 * 1000)]: [z.number()]
    refuses [NaN], [.int()] is [Number.isInteger]. *)
Definition parse_resourceCleanupInterval (v : option JsNumber)
    : option Z :=
  match v with
  | None => Some (30 * 60 * 1000)%Z
  | Some (JsInteger z) => if (0 <? z)%Z then Some z else None
  | Some _ => None
  end.

(** Lower case of the letters A to Z.  [String.prototype.toLowerCase]
    also changes letters outside ASCII, none of them into t, r, u or e,
    so the comparison with ['true'] below comes out the same. *)
Definition lower_char (c : Ascii.ascii) : Ascii.ascii :=
  let n := Ascii.nat_of_ascii c in
  if ((65 <=? n) && (n <=? 90))%nat then Ascii.ascii_of_nat (n + 32) else c.

Fixpoint lower (s : string) : string :=
  match s with
  | EmptyString => EmptyString
  | String c s' => String (lower_char c) (lower s')
  end.

(** [z.string().transform((val) => val.toLowerCase() === 'true')
    .default('false')] *)
Definition parse_avPremium (v : option string) : bool :=
  String.eqb (lower (match v with Some s => s | None => "false" end))
    "true".

(** [ConfigSchema.safeParse]: [None] when a field is refused.
    [z.string().optional()] takes every string and [undefined]. *)
Definition safeParse (raw : Raw) : option t :=
  match parse_logLevel (raw_logLevel raw),
        parse_resourceCleanupInterval (raw_resourceCleanupInterval raw) with
  | Some l, Some i =>
      Some {| apiKey := raw_apiKey raw;
              logLevel := l;
              resourceCleanupInterval := i;
              avPremium := parse_avPremium (raw_avPremium raw) |}
  | _, _ => None
  end.

(** A value of [process.env] as a condition: set and not empty. *)
Definition truthy (v : option string) : bool :=
  match v with
  | Some s => negb (String.eqb s "")
  | None => false
  end.

(** What the module does besides computing [config]. *)
Inductive LoadEffect : Type :=
| ConsoleErrorInvalid
| LoggerDebugLoaded
| LoggerDebugPremiumSet.

Section Load.

(** [parseInt(s, 10)], a built-in of the language. *)
Variable parseInt10 : string -> JsNumber.

Definition raw_of_env (env : Env) : Raw :=
  {| raw_apiKey := API_KEY env;
     raw_logLevel := LOG_LEVEL env;
     raw_resourceCleanupInterval :=
       if truthy (RESOURCE_CLEANUP_INTERVAL env)
       then match RESOURCE_CLEANUP_INTERVAL env with
            | Some s => Some (parseInt10 s)
            | None => None
            end
       else None;
     raw_avPremium := AV_PREMIUM env |}.

(** [String(config.avPremium)] *)
Definition string_of_bool (b : bool) : string :=
  if b then "true" else "false".

(** The module body: the configuration and the environment it leaves
    ([process.env.AV_PREMIUM] is assigned), or the [Error] thrown. *)
Definition load (env : Env) : Settled (t * Env) * list LoadEffect :=
  match safeParse (raw_of_env env) with
  | Some c =>
      (Fulfilled
         (c,
          {| API_KEY := API_KEY env;
             LOG_LEVEL := LOG_LEVEL env;
             RESOURCE_CLEANUP_INTERVAL := RESOURCE_CLEANUP_INTERVAL env;
             AV_PREMIUM := Some (string_of_bool (avPremium c)) |}),
       [LoggerDebugLoaded; LoggerDebugPremiumSet])
  | None =>
      (Rejected (ErrorObj "Invalid environment configuration."),
       [ConsoleErrorInvalid])
  end.

End Load.

(** [apiKeyErrorMessage] *)
Definition apiKeyErrorMessage : string :=
  "Authentication failed: No Alpha Vantage API key provided in the request context (extraArgs.apiKey) and no fallback key found in environment variables (API_KEY).".

End Config.

(** ** index.ts: executeAvantageTool and the shutdown handlers *)

Module Index.

(** The two functions [index.ts] passes to [getResource]:
    [async (key) => new AVantage(key)], which logs first, and
    [async (avInstance) => { ... }], which only logs. *)
Inductive ToolFactory : Type := newAVantage.
Inductive ToolCleanup : Type := noopCleanup.

(** What the [catch] block of [executeAvantageTool] can catch, as the
    block sees it.  The block reads [error.message] inside a template
    (line 102), tests [error instanceof UserError] and, for a value that
    is none, reads [error.message] inside a second template (line 111).
    - [UserError]: a [UserError], with the text of its message.
    - [OtherError]: another [Error], with the text of its message.
    - [NotAnError]: a value that is no [Error], kept as the texts the two
      templates give for its [message]: "undefined" when it has no such
      property, and the same text twice unless [message] is a getter that
      answers differently.
    - [Nullish]: [null] or [undefined]; reading [message] throws a
      [TypeError].
    - [Unreadable]: any other value whose [message] cannot be read or
      cannot be turned into text (a getter that throws, a [Symbol]).
      [logged] is [None] when the first template throws, and the text the
      first template gave when the [instanceof] test throws (a proxy) or
      the value is no [UserError] and the second template throws. *)
Inductive Caught : Type :=
| UserError (message : string)
| OtherError (message : string)
| NotAnError (logged wrapped : string)
| Nullish
| Unreadable (logged : option string).

(** The templates of the [catch] block cannot show the value. *)
Definition unshowable (e : Caught) : bool :=
  match e with
  | Nullish | Unreadable _ => true
  | _ => false
  end.

Inductive Attempt (A : Type) : Type :=
| Succeeds (a : A)
| Fails (e : Caught).
Arguments Succeeds {A} a.
Arguments Fails {A} e.

(** How a call of [executeAvantageTool] ends: with the text for the
    client; with [undefined], which is what [JSON.stringify] gives for
    data it does not serialise (a function, a [toJSON] that returns
    [undefined]); with a [UserError]; or with whatever a template of the
    [catch] block throws, which is no [UserError] made by this function. *)
Inductive ToolOutcome : Type :=
| ToolReturns (text : string)
| ToolReturnsUndefined
| ToolFails (message : string)
| ToolCrashes.

Inductive ToolLog : Type :=
| LogExecuting (toolName : string)
| LogArgs (toolName : string)
| LogKeyMissing (toolName : string)
| LogUsingKey (toolName : string) (fromExtraArgs : bool)
| LogToolFailed (toolName : string) (reason : option string)
| LogNoData (toolName : string)
| LogCompleted (toolName : string)
| LogExecutionError (toolName text : string)
| LogSignal (name : string)
| LogFatal (name : string)
| LogShuttingDown
| LogCleanupComplete.

Definition tool_log_level (l : ToolLog) : LogLevel :=
  match l with
  | LogArgs _ | LogUsingKey _ _ => LDebug
  | LogToolFailed _ _ | LogNoData _ => LWarn
  | LogKeyMissing _ | LogExecutionError _ _ | LogFatal _ => LError
  | _ => LInfo
  end.

(** [extraArgsApiKey || config.apiKey], [None] when [!apiKey]. *)
Definition resolveApiKey (extraArgsApiKey configApiKey : option string)
    : option string :=
  if Config.truthy extraArgsApiKey then extraArgsApiKey
  else if Config.truthy configApiKey then configApiKey
  else None.

Section Tool.

Context {AV D : Type}.

(** [{ error?: boolean; reason?: string; data?: TResult }]; for [data],
    [None] is [undefined] or [null]. *)
Record ToolResult : Type := {
  r_error : option bool;
  r_reason : option string;
  r_data : option D
}.

Inductive ToolEffect : Type :=
| ToolLogged (l : ToolLog)
| ManagerDid (e : @Effect AV ToolFactory ToolCleanup)
| CallMethod (av : AV).

(** The [catch] block. *)
Definition catch_block (toolName : string) (e : Caught)
    : list ToolEffect * ToolOutcome :=
  match e with
  | UserError message =>
      ([ToolLogged (LogExecutionError toolName message)],
       ToolFails message)
  | OtherError text =>
      ([ToolLogged (LogExecutionError toolName text)],
       ToolFails ("An unexpected error occurred while executing tool '"
                  ++ toolName ++ "': " ++ text)%string)
  | NotAnError logged wrapped =>
      ([ToolLogged (LogExecutionError toolName logged)],
       ToolFails ("An unexpected error occurred while executing tool '"
                  ++ toolName ++ "': " ++ wrapped)%string)
  | Nullish | Unreadable None => ([], ToolCrashes)
  | Unreadable (Some logged) =>
      ([ToolLogged (LogExecutionError toolName logged)], ToolCrashes)
  end.

(** The lines of the [try] block after [avantageMethod] has returned.
    [JSON.stringify] returns a text, returns [undefined] ([None]), or
    throws. *)
Definition handle_result (toolName : string) (result : ToolResult)
    (JSON_stringify : D -> Attempt (option string))
    : list ToolEffect * ToolOutcome :=
  match r_error result with
  | Some true =>
      let (effs, out) :=
        catch_block toolName
          (UserError
             (if Config.truthy (r_reason result)
              then match r_reason result with
                   | Some reason => reason
                   | None => ""
                   end
              else ("Tool '" ++ toolName ++ "' failed.")%string)) in
      (ToolLogged (LogToolFailed toolName (r_reason result)) :: effs, out)
  | _ =>
      match r_data result with
      | None => ([ToolLogged (LogNoData toolName)], ToolReturns "null")
      | Some d =>
          match JSON_stringify d with
          | Succeeds (Some text) =>
              ([ToolLogged (LogCompleted toolName)], ToolReturns text)
          | Succeeds None =>
              ([ToolLogged (LogCompleted toolName)], ToolReturnsUndefined)
          | Fails e =>
              let (effs, out) := catch_block toolName e in
              (ToolLogged (LogCompleted toolName) :: effs, out)
          end
      end
  end.

(** [executeAvantageTool], run with no other call in between: the
    manager, the clock values and the identifier are those of
    [getResource]; [factoryOutcome] is how [new AVantage(key)] settles if
    it is called; [avantageMethod] and [JSON_stringify] say how the
    library call and [JSON.stringify] end.  A library call that resolves
    with no object at all makes [result.error] throw a [TypeError] inside
    the [try] block: that is [Fails (OtherError ...)].  The arguments
    come out of the tool's schema and the context out of the framework:
    the two templates of lines 48-49 give text. *)
Definition executeAvantageTool (m : @ResourceManager AV ToolCleanup)
    (clock clock' : Z) (uuid : nat) (toolName : string)
    (extraArgsApiKey configApiKey : option string)
    (factoryOutcome : Settled AV)
    (avantageMethod : AV -> Attempt ToolResult)
    (JSON_stringify : D -> Attempt (option string))
    : @ResourceManager AV ToolCleanup * list ToolEffect * ToolOutcome :=
  let entry :=
    [ToolLogged (LogExecuting toolName); ToolLogged (LogArgs toolName)] in
  match resolveApiKey extraArgsApiKey configApiKey with
  | None =>
      (m, entry ++ [ToolLogged (LogKeyMissing toolName)],
       ToolFails Config.apiKeyErrorMessage)
  | Some apiKey =>
      let '(m', meffs, got) :=
        getResource m clock clock' uuid apiKey "avantage_client"
          newAVantage noopCleanup factoryOutcome in
      let before :=
        entry
        ++ ToolLogged (LogUsingKey toolName (Config.truthy extraArgsApiKey))
        :: map ManagerDid meffs in
      match got with
      | Rejected e =>
          (* getResource rejects with an Error, never a UserError *)
          let (effs, out) :=
            catch_block toolName (OtherError (error_text e)) in
          (m', before ++ effs, out)
      | Fulfilled av =>
          let (effs, out) :=
            match avantageMethod av with
            | Fails e => catch_block toolName e
            | Succeeds result =>
                handle_result toolName result JSON_stringify
            end in
          (m', before ++ CallMethod av :: effs, out)
      end
  end.

(** [cleanup]: [destroyAllNow()] is called and its promise dropped, so
    only the part before its [await] runs before the next line.  The one
    cleanup function this manager holds is the [async] function above,
    whose call never throws. *)
Definition cleanup (m : @ResourceManager AV ToolCleanup)
    : @ResourceManager AV ToolCleanup * list ToolEffect :=
  let '(m', effs, _) := destroyAllNow_call never_throws m in
  (m',
   ToolLogged LogShuttingDown
   :: map ManagerDid effs ++ [ToolLogged LogCleanupComplete]).

Inductive ProcessEvent : Type :=
| SIGINT
| SIGTERM
| UncaughtException
| UnhandledRejection.

(** The four [process.on] handlers: the manager and the effects at the
    call of [process.exit], and the exit code. *)
Definition on_process_event (m : @ResourceManager AV ToolCleanup)
    (ev : ProcessEvent)
    : @ResourceManager AV ToolCleanup * list ToolEffect * Z :=
  let (m', effs) := cleanup m in
  match ev with
  | SIGINT => (m', ToolLogged (LogSignal "SIGINT") :: effs, 0%Z)
  | SIGTERM => (m', ToolLogged (LogSignal "SIGTERM") :: effs, 0%Z)
  | UncaughtException =>
      (m', ToolLogged (LogFatal "UNCAUGHT EXCEPTION") :: effs, 1%Z)
  | UnhandledRejection =>
      (m', ToolLogged (LogFatal "UNHANDLED REJECTION") :: effs, 1%Z)
  end.

(** The calls of the library method and of the factory among effects. *)
Definition method_calls (effs : list ToolEffect) : list AV :=
  flat_map (fun e => match e with CallMethod av => [av] | _ => [] end) effs.

Definition manager_effects (effs : list ToolEffect)
    : list (@Effect AV ToolFactory ToolCleanup) :=
  flat_map (fun e => match e with ManagerDid x => [x] | _ => [] end) effs.

End Tool.

End Index.

(** The exported [resourceManager = new ResourceManager()] of a process
    whose configuration is [c]. *)
Definition resourceManager {T F C : Type} (c : Config.t)
    : @ResourceManager T C :=
  constructor (F:=F) None (Config.resourceCleanupInterval c).

(** Data for the examples of this part. *)
Module HostExamples.

(** A stand-in for [parseInt(s, 10)] that knows two texts. *)
Definition parseInt10 (s : string) : Config.JsNumber :=
  if String.eqb s "60000" then Config.JsInteger 60000
  else if String.eqb s "0" then Config.JsInteger 0
  else Config.JsNaN.

Definition env_minute : Config.Env :=
  {| Config.API_KEY := Some "KEY1";
     Config.LOG_LEVEL := Some "debug";
     Config.RESOURCE_CLEANUP_INTERVAL := Some "60000";
     Config.AV_PREMIUM := Some "TRUE" |}.

Definition config_minute : Config.t :=
  {| Config.apiKey := Some "KEY1";
     Config.logLevel := LDebug;
     Config.resourceCleanupInterval := 60000;
     Config.avPremium := true |}.

Definition ToolMgr : Type := @ResourceManager string Index.ToolCleanup.

Definition toolMgr : ToolMgr :=
  resourceManager (F:=Index.ToolFactory) config_minute.

Definition quote_ok (av : string) : Index.Attempt (@Index.ToolResult string) :=
  Index.Succeeds
    {| Index.r_error := None; Index.r_reason := None;
       Index.r_data := Some "price" |}.

Definition stringify_ok (d : string) : Index.Attempt (option string) :=
  Index.Succeeds (Some d).

(** A library method that throws [null]. *)
Definition throws_null (av : string)
    : Index.Attempt (@Index.ToolResult string) :=
  Index.Fails Index.Nullish.

(** What loading [env_minute] leaves in the environment. *)
Definition env_minute_after : Config.Env :=
  {| Config.API_KEY := Some "KEY1";
     Config.LOG_LEVEL := Some "debug";
     Config.RESOURCE_CLEANUP_INTERVAL := Some "60000";
     Config.AV_PREMIUM := Some "true" |}.

(** "A" is in the store and [destroyAllNow] (task 1) waits for its
    cleanup. *)
Definition shutdown_waits : Examples.Wld :=
  Examples.after Examples.world100
    (Examples.createA ++ [CallDestroy never_throws]).

(** After a shutdown and the creation of "X": "X" is asked for again and
    "Y" is created. *)
Definition calls_after_shutdown : list Examples.Inp :=
  [CallStopTimer;
   CallGet 500 "X" "client" "makeX" "closeX";
   CallGet 600 "Y" "client" "makeY" "closeY";
   FactorySettles 3 601 (Fulfilled "ry")].

End HostExamples.

(** * Properties *)

(** ** The map *)

Module JsMapFacts.
Import JsMap.

Section Facts.
Context {V : Type}.
Implicit Types (m : t V) (k : string) (v : V).

Lemma get_set_same k v m : get k (set k v m) = Some v.
Proof.
  induction m as [|[k' v'] m IH]; simpl.
  - now rewrite String.eqb_refl.
  - destruct (String.eqb k k') eqn:E; simpl; rewrite E; auto.
Qed.

Lemma get_set_other k k' v m :
  k <> k' -> get k' (set k v m) = get k' m.
Proof.
  intros N. induction m as [|[k0 v0] m IH]; simpl.
  - destruct (String.eqb_spec k' k); congruence.
  - destruct (String.eqb_spec k k0); simpl.
    + subst k0. destruct (String.eqb_spec k' k); congruence.
    + now rewrite IH.
Qed.

Lemma get_delete_same k m : get k (delete k m) = None.
Proof.
  induction m as [|[k' v'] m IH]; simpl; auto.
  destruct (String.eqb k k') eqn:E; simpl; auto. now rewrite E.
Qed.

Lemma get_delete_other k k' m :
  k <> k' -> get k' (delete k m) = get k' m.
Proof.
  intros N. induction m as [|[k0 v0] m IH]; simpl; auto.
  destruct (String.eqb_spec k k0); simpl.
  - subst k0. destruct (String.eqb_spec k' k); congruence.
  - now rewrite IH.
Qed.

Lemma get_In k v m : get k m = Some v -> In (k, v) m.
Proof.
  induction m as [|[k' v'] m IH]; simpl; [discriminate|].
  destruct (String.eqb_spec k k'); intros H.
  - left. congruence.
  - right. auto.
Qed.

Lemma get_None_keys k m : get k m = None <-> ~ In k (keys m).
Proof.
  unfold keys. induction m as [|[k' v'] m IH]; simpl.
  - tauto.
  - destruct (String.eqb_spec k k').
    + split; [discriminate|]. intros N. exfalso. apply N. auto.
    + rewrite IH. split; [|tauto]. intros N [E|I]; congruence.
Qed.

(** With each key once, membership and look-up agree. *)
Lemma In_get k v m : NoDup (keys m) -> In (k, v) m -> get k m = Some v.
Proof.
  unfold keys. induction m as [|[k' v'] m IH]; simpl; [tauto|].
  intros ND [E|I].
  - inversion E; subst. now rewrite String.eqb_refl.
  - inversion ND as [|? ? NI ND']; subst.
    destruct (String.eqb_spec k k').
    + subst k'. exfalso. apply NI.
      change k with (fst (k, v)). now apply in_map.
    + auto.
Qed.

Lemma In_delete kv k m : In kv (delete k m) -> In kv m.
Proof.
  induction m as [|[k' v'] m IH]; simpl; auto.
  destruct (String.eqb k k'); simpl; intuition.
Qed.

Lemma In_set kv k v m : In kv (set k v m) -> In kv m \/ kv = (k, v).
Proof.
  induction m as [|[k' v'] m IH]; simpl.
  - intuition.
  - destruct (String.eqb_spec k k'); simpl.
    + subst k'. intuition.
    + intuition.
Qed.

Lemma keys_set_present k v m :
  get k m <> None -> keys (set k v m) = keys m.
Proof.
  unfold keys. induction m as [|[k' v'] m IH]; simpl; [congruence|].
  destruct (String.eqb k k'); simpl; auto.
  intros H. now rewrite IH.
Qed.

Lemma keys_set_absent k v m :
  get k m = None -> keys (set k v m) = keys m ++ [k].
Proof.
  unfold keys. induction m as [|[k' v'] m IH]; simpl; auto.
  destruct (String.eqb k k'); simpl; [discriminate|].
  intros H. now rewrite IH.
Qed.

Lemma NoDup_keys_set k v m : NoDup (keys m) -> NoDup (keys (set k v m)).
Proof.
  intros ND. destruct (get k m) eqn:G.
  - rewrite keys_set_present; congruence.
  - rewrite keys_set_absent by assumption.
    apply NoDup_app; auto.
    + repeat constructor. simpl. tauto.
    + intros x I [E|[]]. subst x. now apply get_None_keys in G.
Qed.

Lemma set_set k v v' m : set k v' (set k v m) = set k v' m.
Proof.
  induction m as [|[k0 v0] m IH]; simpl.
  - now rewrite String.eqb_refl.
  - destruct (String.eqb k k0) eqn:E; simpl; rewrite E; auto.
    now rewrite IH.
Qed.

Lemma keys_delete_incl k m : incl (keys (delete k m)) (keys m).
Proof.
  unfold keys. induction m as [|[k' v'] m IH]; simpl.
  - apply incl_refl.
  - destruct (String.eqb k k'); simpl.
    + now apply incl_tl.
    + apply incl_cons; [now left|now apply incl_tl].
Qed.

Lemma NoDup_keys_delete k m :
  NoDup (keys m) -> NoDup (keys (delete k m)).
Proof.
  unfold keys. induction m as [|[k' v'] m IH]; simpl; auto.
  intros ND. inversion ND as [|? ? NI ND']; subst.
  destruct (String.eqb k k'); simpl; auto.
  constructor; auto. intros I. apply NI.
  now apply (keys_delete_incl k m).
Qed.

End Facts.
End JsMapFacts.

(** ** The sweep, run alone *)

Section SweepFacts.
Context {T F C : Type}.
Import JsMapFacts.

Local Abbreviation sweep_loop := (@sweep_loop T F C).
Local Abbreviation sweep_all := (@sweep_all T F C).
Local Abbreviation sweep_settle := (@sweep_settle T F C).
Local Abbreviation sweep_invoke := (@sweep_invoke T F C).
Local Abbreviation sweep_finish := (@sweep_finish T F C).
Local Abbreviation cleanupInactiveResources :=
  (@cleanupInactiveResources T F C).

Implicit Types (m : @ResourceManager T C) (info : @ResourceInfo T C).
Implicit Types (effs : list (@Effect T F C)) (e : @Effect T F C).
Implicit Types (oracle : @CleanupOracle T C).
Implicit Types (key : string) (keys : list string) (now : Z).

Lemma sweep_check_Some m now key info :
  sweep_check m now key = Some info <->
  JsMap.get key (resources m) = Some info /\ inactive m now info = true.
Proof.
  unfold sweep_check. destruct (JsMap.get key (resources m)) as [i|].
  - destruct (inactive m now i) eqn:I; split.
    + intros H; inversion H; subst; auto.
    + intros [H _]; auto.
    + discriminate.
    + intros [H I']. inversion H; subst. congruence.
  - split; [discriminate|intros [H _]; discriminate].
Qed.

Lemma cleanup_calls_app key effs effs' :
  cleanup_calls key (effs ++ effs') =
  cleanup_calls key effs + cleanup_calls key effs'.
Proof. unfold cleanup_calls. now rewrite filter_app, length_app. Qed.

Lemma cleanup_calls_none key effs :
  (forall info, ~ In (CallCleanup key info) effs) <->
  cleanup_calls key effs = 0.
Proof.
  unfold cleanup_calls. induction effs as [|e effs IH]; simpl.
  - tauto.
  - destruct e as [l|f k|k i]; simpl.
    + rewrite <- IH. split.
      * intros H info I. apply (H info). now right.
      * intros H info [E|I]; [discriminate|]. now apply (H info).
    + rewrite <- IH. split.
      * intros H info I. apply (H info). now right.
      * intros H info [E|I]; [discriminate|]. now apply (H info).
    + destruct (String.eqb_spec key k); simpl.
      * subst k. split; [|discriminate].
        intros H. exfalso. apply (H i). now left.
      * rewrite <- IH. split.
        -- intros H info I. apply (H info). now right.
        -- intros H info [E|I]; [congruence|]. now apply (H info).
Qed.

Lemma cleanup_calls_invoke key key' info :
  cleanup_calls key (sweep_invoke key' info) =
  if String.eqb key key' then 1 else 0.
Proof.
  unfold cleanup_calls. simpl. now destruct (String.eqb key key').
Qed.

Lemma cleanup_calls_finish key c : cleanup_calls key (sweep_finish c) = 0.
Proof. unfold sweep_finish. now destruct (0 <? c)%nat. Qed.

(** Settling changes the store by one [delete] or not at all, and calls
    no cleanup function. *)
Lemma sweep_settle_spec m key info c (outcome : Settled unit) :
  exists effs,
    sweep_settle m key info c outcome =
    (if fulfilled outcome
     then with_resources m (JsMap.delete key (resources m))
     else m,
     effs,
     if fulfilled outcome then S c else c)
    /\ forall key', cleanup_calls key' effs = 0.
Proof. destruct outcome; simpl; eexists; split; reflexivity || auto. Qed.

(** The store after the loop: an entry is gone when it was among the
    keys, was still inactive and its cleanup fulfilled; every other
    entry is as before. *)
Lemma sweep_all_get oracle keys : forall m now c key,
  JsMap.get key (resources (fst (sweep_all oracle m now c keys))) =
  match JsMap.get key (resources m) with
  | Some info =>
      if existsb (String.eqb key) keys && inactive m now info
         && fulfilled (oracle key info)
      then None else Some info
  | None => None
  end.
Proof.
  induction keys as [|k0 rest IH]; intros m now c key; simpl.
  - now destruct (JsMap.get key (resources m)).
  - unfold sweep_check.
    destruct (JsMap.get k0 (resources m)) as [info0|] eqn:G0.
    + destruct (inactive m now info0) eqn:I0.
      * destruct (sweep_settle_spec m k0 info0 c (oracle k0 info0))
          as (effs & -> & _).
        destruct (sweep_all oracle _ now _ rest) as [m'' effs'] eqn:SA.
        simpl fst.
        specialize (IH (if fulfilled (oracle k0 info0)
                        then with_resources m
                               (JsMap.delete k0 (resources m))
                        else m) now
                       (if fulfilled (oracle k0 info0) then S c else c)
                       key).
        rewrite SA in IH. simpl fst in IH. rewrite IH. clear IH SA.
        destruct (String.eqb_spec key k0) as [->|N].
        -- simpl orb. rewrite G0, I0. simpl andb.
           destruct (fulfilled (oracle k0 info0)) eqn:O; simpl.
           ++ now rewrite get_delete_same.
           ++ rewrite G0, I0, O.
              now rewrite andb_false_r.
        -- simpl orb.
           destruct (fulfilled (oracle k0 info0)); simpl; auto.
           rewrite get_delete_other by congruence. reflexivity.
      * rewrite IH.
        destruct (String.eqb_spec key k0) as [->|N]; simpl; auto.
        rewrite G0, I0. simpl. now rewrite andb_false_r.
    + rewrite IH.
      destruct (String.eqb_spec key k0) as [->|N]; simpl; auto.
      now rewrite G0.
Qed.

(** A cleanup called by the loop is that of an entry in the store that
    is inactive. *)
Lemma sweep_all_cleanup_stored oracle keys : forall m now c key info,
  In (CallCleanup key info) (snd (sweep_all oracle m now c keys)) ->
  JsMap.get key (resources m) = Some info /\ inactive m now info = true.
Proof.
  induction keys as [|k0 rest IH]; intros m now c key info; simpl.
  - unfold sweep_finish. destruct (0 <? c)%nat; simpl; intuition discriminate.
  - destruct (sweep_check m now k0) as [info0|] eqn:SC; [|apply IH].
    apply sweep_check_Some in SC. destruct SC as [G0 I0].
    destruct (sweep_settle_spec m k0 info0 c (oracle k0 info0))
      as (effs & -> & NC).
    destruct (sweep_all oracle _ now _ rest) as [m'' effs'] eqn:SA.
    simpl snd. intros [E|[E|I]]; try discriminate.
    + inversion E; subst. auto.
    + apply in_app_or in I. destruct I as [I|I].
      * exfalso. revert I. apply cleanup_calls_none. apply NC.
      * assert (I' : In (CallCleanup key info)
                        (snd (sweep_all oracle
                                (if fulfilled (oracle k0 info0)
                                 then with_resources m
                                        (JsMap.delete k0 (resources m))
                                 else m) now
                                (if fulfilled (oracle k0 info0)
                                 then S c else c) rest)))
          by now rewrite SA.
        apply IH in I'. destruct I' as [G I'].
        destruct (fulfilled (oracle k0 info0)); auto.
        simpl in G. split; [|exact I'].
        destruct (String.eqb_spec k0 key) as [->|N].
        -- now rewrite get_delete_same in G.
        -- now rewrite get_delete_other in G.
Qed.

Lemma existsb_eqb_In key keys :
  existsb (String.eqb key) keys = true <-> In key keys.
Proof.
  rewrite existsb_exists. split.
  - intros (x & I & E). apply String.eqb_eq in E. now subst.
  - intros I. exists key. split; auto. apply String.eqb_refl.
Qed.

Lemma keysToRemove_spec m now key :
  In key (keysToRemove m now) <->
  exists info, In (key, info) (resources m) /\ inactive m now info = true.
Proof.
  unfold keysToRemove. rewrite in_map_iff. split.
  - intros ([k i] & E & I). simpl in E. subst k.
    apply filter_In in I. simpl in I. now exists i.
  - intros (info & I & A). exists (key, info). split; auto.
    apply filter_In. auto.
Qed.

Lemma keysToRemove_NoDup m now :
  unique_keys m -> NoDup (keysToRemove m now).
Proof.
  unfold unique_keys, keysToRemove, JsMap.keys.
  induction (resources m) as [|[k i] r IH]; simpl; intros ND.
  - constructor.
  - inversion ND as [|? ? NI ND']; subst.
    destruct (inactive m now i); simpl; auto.
    constructor; auto. intros I. apply NI.
    apply in_map_iff in I. destruct I as (kv & E & I).
    apply filter_In in I. apply in_map_iff. exists kv. tauto.
Qed.

(** With each key once in the list, the loop calls the cleanup of an
    entry once when the entry is listed and inactive, and not at all
    otherwise. *)
Lemma sweep_all_calls oracle keys :
  NoDup keys -> forall m now c key,
  cleanup_calls key (snd (sweep_all oracle m now c keys)) =
  if existsb (String.eqb key) keys
     && match JsMap.get key (resources m) with
        | Some info => inactive m now info
        | None => false
        end
  then 1 else 0.
Proof.
  induction 1 as [|k0 rest NI ND IH]; intros m now c key; simpl.
  - apply cleanup_calls_finish.
  - destruct (sweep_check m now k0) as [info0|] eqn:SC.
    + apply sweep_check_Some in SC. destruct SC as [G0 I0].
      destruct (sweep_settle_spec m k0 info0 c (oracle k0 info0))
        as (effs & -> & NC).
      specialize (IH (if fulfilled (oracle k0 info0)
                      then with_resources m (JsMap.delete k0 (resources m))
                      else m) now
                     (if fulfilled (oracle k0 info0) then S c else c) key).
      destruct (sweep_all oracle _ now _ rest) as [m'' effs'].
      simpl snd in *.
      match goal with
      | |- cleanup_calls ?k (_ :: _ :: ?l) = ?r =>
          change (cleanup_calls k (sweep_invoke k0 info0 ++ l) = r)
      end.
      rewrite !cleanup_calls_app, cleanup_calls_invoke, NC, IH. clear IH.
      destruct (String.eqb_spec key k0) as [->|N]; simpl orb.
      * rewrite G0, I0. simpl.
        destruct (existsb (String.eqb k0) rest) eqn:E; auto.
        apply existsb_eqb_In in E. contradiction.
      * destruct (fulfilled (oracle k0 info0)); simpl; auto.
        now rewrite get_delete_other by congruence.
    + rewrite IH. destruct (String.eqb_spec key k0) as [->|N]; simpl; auto.
      destruct (existsb (String.eqb k0) rest) eqn:E.
      * apply existsb_eqb_In in E. contradiction.
      * simpl. unfold sweep_check in SC.
        destruct (JsMap.get k0 (resources m)) as [i|]; auto.
        destruct (inactive m now i); auto. discriminate.
Qed.

(** The whole method differs from its loop by two log entries. *)
Lemma sweep_fst oracle m now :
  fst (cleanupInactiveResources oracle m now) =
  fst (sweep_all oracle m now 0 (keysToRemove m now)).
Proof.
  unfold cleanupInactiveResources.
  destruct (keysToRemove m now) as [|k ks]; [reflexivity|].
  now destruct (sweep_all oracle m now 0 (k :: ks)).
Qed.

Lemma sweep_snd oracle m now :
  exists l1 l2 tail,
    snd (cleanupInactiveResources oracle m now) = Log l1 :: Log l2 :: tail
    /\ (tail = snd (sweep_all oracle m now 0 (keysToRemove m now))
        \/ tail = [] /\ keysToRemove m now = []).
Proof.
  unfold cleanupInactiveResources.
  destruct (keysToRemove m now) as [|k ks].
  - exists SweepRunning, SweepNoneFound, []. auto.
  - destruct (sweep_all oracle m now 0 (k :: ks)).
    exists SweepRunning, (SweepFound (List.length (k :: ks))), l. auto.
Qed.

Lemma sweep_get oracle m now key :
  JsMap.get key (resources (fst (cleanupInactiveResources oracle m now))) =
  match JsMap.get key (resources m) with
  | Some info =>
      if inactive m now info && fulfilled (oracle key info)
      then None else Some info
  | None => None
  end.
Proof.
  rewrite sweep_fst, sweep_all_get.
  destruct (JsMap.get key (resources m)) as [info|] eqn:G; auto.
  destruct (inactive m now info) eqn:I.
  - assert (E : existsb (String.eqb key) (keysToRemove m now) = true).
    { apply existsb_eqb_In, keysToRemove_spec. exists info.
      split; auto. now apply get_In. }
    now rewrite E.
  - now rewrite andb_false_r.
Qed.

Lemma sweep_calls oracle m now key :
  unique_keys m ->
  cleanup_calls key (snd (cleanupInactiveResources oracle m now)) =
  match JsMap.get key (resources m) with
  | Some info => if inactive m now info then 1 else 0
  | None => 0
  end.
Proof.
  intros U. destruct (sweep_snd oracle m now) as (l1 & l2 & tail & -> & D).
  change (cleanup_calls key (Log l1 :: Log l2 :: tail))
    with (cleanup_calls key tail).
  assert (E : cleanup_calls key tail
              = cleanup_calls key
                  (snd (sweep_all oracle m now 0 (keysToRemove m now)))).
  { destruct D as [->|[-> ->]]; auto. }
  rewrite E, sweep_all_calls by now apply keysToRemove_NoDup.
  destruct (JsMap.get key (resources m)) as [info|] eqn:G.
  - destruct (inactive m now info) eqn:I.
    + assert (X : existsb (String.eqb key) (keysToRemove m now) = true).
      { apply existsb_eqb_In, keysToRemove_spec. exists info.
        split; auto. now apply get_In. }
      now rewrite X.
    + now rewrite andb_false_r.
  - now rewrite andb_false_r.
Qed.

Lemma sweep_cleanup_stored oracle m now key info :
  In (CallCleanup key info) (snd (cleanupInactiveResources oracle m now)) ->
  JsMap.get key (resources m) = Some info /\ inactive m now info = true.
Proof.
  destruct (sweep_snd oracle m now) as (l1 & l2 & tail & -> & D).
  intros [E|[E|I]]; try discriminate.
  destruct D as [->|[-> _]]; [|destruct I].
  now apply sweep_all_cleanup_stored in I.
Qed.

End SweepFacts.

Section SweepClaims.
Context {T F C : Type}.
Import JsMapFacts.

Local Abbreviation sweep_loop := (@sweep_loop T F C).
Local Abbreviation cleanupInactiveResources :=
  (@cleanupInactiveResources T F C).
Local Abbreviation cleanupInactiveResources_resume :=
  (@cleanupInactiveResources_resume T F C).

Implicit Types (m : @ResourceManager T C) (info : @ResourceInfo T C).
Implicit Types (effs : list (@Effect T F C)).
Implicit Types (oracle : @CleanupOracle T C).
Implicit Types (key : string) (keys : list string) (now : Z).

Lemma inactive_iff m now info :
  inactive m now info = true <->
  (now - lastUsed info > cleanupIntervalMs m)%Z.
Proof.
  unfold inactive.
  destruct (Z.gtb_spec (now - lastUsed info) (cleanupIntervalMs m));
    split; intros; try lia; try discriminate; auto.
Qed.

Lemma inactive_false_iff m now info :
  inactive m now info = false <->
  (now - lastUsed info <= cleanupIntervalMs m)%Z.
Proof.
  unfold inactive.
  destruct (Z.gtb_spec (now - lastUsed info) (cleanupIntervalMs m));
    split; intros; try lia; try discriminate; auto.
Qed.

Lemma cleanup_calls_pos key effs :
  0 < cleanup_calls key effs -> exists info, In (CallCleanup key info) effs.
Proof.
  unfold cleanup_calls. induction effs as [|e effs IH]; simpl; [lia|].
  destruct e as [l|f k|k i]; simpl.
  - intros H. destruct (IH H) as [info I]. exists info. now right.
  - intros H. destruct (IH H) as [info I]. exists info. now right.
  - destruct (String.eqb_spec key k) as [->|N]; simpl.
    + intros _. exists i. now left.
    + intros H. destruct (IH H) as [info I]. exists info. now right.
Qed.



End SweepClaims.

(** ** destroyAllNow *)

Section DestroyFacts.
Context {T F C : Type}.
Import JsMapFacts.

Local Abbreviation stopCleanupTimer := (@stopCleanupTimer T F C).
Local Abbreviation destroy_invoke := (@destroy_invoke T F C).
Local Abbreviation destroy_catch := (@destroy_catch T F C).
Local Abbreviation destroy_loop := (@destroy_loop T F C).
Local Abbreviation destroy_orphans := (@destroy_orphans T F C).
Local Abbreviation destroyAllNow_call := (@destroyAllNow_call T F C).
Local Abbreviation destroyAllNow_resume := (@destroyAllNow_resume T F C).
Local Abbreviation destroyAllNow := (@destroyAllNow T F C).

Implicit Types (m : @ResourceManager T C) (info : @ResourceInfo T C).
Implicit Types (kv : string * @ResourceInfo T C).
Implicit Types (entries before rest : list (string * @ResourceInfo T C)).
Implicit Types (effs : list (@Effect T F C)).
Implicit Types (oracle : @CleanupOracle T C) (key : string).
Implicit Types (throws : @ThrowOracle T C).

Lemma stopped_id m : cleanupTimer m = false -> stopped m = m.
Proof. destruct m; simpl; intros ->; reflexivity. Qed.

Lemma stopCleanupTimer_spec m :
  stopCleanupTimer m
  = (stopped m, if cleanupTimer m then [Log TimerStopped] else []).
Proof.
  unfold stopCleanupTimer.
  destruct (cleanupTimer m) eqn:E; [reflexivity|].
  now rewrite stopped_id.
Qed.

(** The loop where no call throws: the cleanup of every entry is called
    and every promise is awaited. *)
Lemma destroy_loop_quiet throws entries :
  (forall kv, In kv entries -> throws (fst kv) (snd kv) = None) ->
  destroy_loop throws entries
  = (flat_map destroy_invoke entries, DestroyAwait entries).
Proof.
  induction entries as [|kv rest IH]; intros Q; [reflexivity|].
  simpl. rewrite (Q kv (or_introl eq_refl)).
  rewrite IH; [reflexivity|]. intros kv' I. apply Q. now right.
Qed.

(** The loop where the call for [kv] is the first that throws: the
    cleanups up to that one are called, the later ones are not. *)
Lemma destroy_loop_throws throws before kv rest e :
  (forall kv', In kv' before -> throws (fst kv') (snd kv') = None) ->
  throws (fst kv) (snd kv) = Some e ->
  destroy_loop throws (before ++ kv :: rest)
  = (flat_map destroy_invoke (before ++ [kv]), DestroyThrown e before).
Proof.
  induction before as [|kv0 before IH]; intros Q E; simpl.
  - rewrite E. reflexivity.
  - rewrite (Q kv0 (or_introl eq_refl)).
    rewrite IH; auto. intros kv' I. apply Q. now right.
Qed.

Lemma destroy_loop_cases throws entries :
  (forall kv, In kv entries -> throws (fst kv) (snd kv) = None)
  \/ exists before kv rest e,
       entries = before ++ kv :: rest
       /\ (forall kv', In kv' before -> throws (fst kv') (snd kv') = None)
       /\ throws (fst kv) (snd kv) = Some e.
Proof.
  induction entries as [|kv0 entries IH].
  - left. intros kv [].
  - destruct (throws (fst kv0) (snd kv0)) as [e|] eqn:E.
    + right. exists [], kv0, entries, e. repeat split; auto.
      intros kv' [].
    + destruct IH as [Q|(before & kv & rest & e & -> & Q & E')].
      * left. intros kv [<-|I]; auto.
      * right. exists (kv0 :: before), kv, rest, e. repeat split; auto.
        intros kv' [<-|I]; auto.
Qed.

Lemma In_destroy_invoke key info (r : JsMap.t (@ResourceInfo T C)) :
  In (CallCleanup key info) (flat_map destroy_invoke r) <-> In (key, info) r.
Proof.
  rewrite in_flat_map. split.
  - intros ([k i] & I & [E|[E|[]]]); [discriminate|].
    simpl in E. inversion E; subst. exact I.
  - intros I. exists (key, info). split; auto. simpl. auto.
Qed.

(** Whatever throws, the loop calls cleanup functions of entries only. *)
Lemma In_destroy_loop throws entries key info :
  In (CallCleanup key info) (fst (destroy_loop throws entries)) ->
  In (key, info) entries.
Proof.
  destruct (destroy_loop_cases throws entries)
    as [Q|(before & kv & rest & e & -> & Q & E)].
  - rewrite (destroy_loop_quiet _ _ Q). apply In_destroy_invoke.
  - rewrite (destroy_loop_throws _ _ _ _ _ Q E). simpl fst.
    intros I. apply In_destroy_invoke in I.
    apply in_app_or in I. apply in_or_app.
    destruct I as [I|[<-|[]]]; [now left|right; now left].
Qed.

Lemma destroyAllNow_call_spec throws m :
  destroyAllNow_call throws m
  = (stopped m,
     Log DestroyStart
     :: (if cleanupTimer m then [Log TimerStopped] else [])
     ++ fst (destroy_loop throws (resources m)),
     snd (destroy_loop throws (resources m))).
Proof.
  unfold destroyAllNow_call. rewrite stopCleanupTimer_spec.
  change (resources (stopped m)) with (resources m).
  now destruct (destroy_loop throws (resources m)).
Qed.

Lemma destroyAllNow_call_quiet throws m :
  (forall kv, In kv (resources m) -> throws (fst kv) (snd kv) = None) ->
  destroyAllNow_call throws m
  = (stopped m,
     Log DestroyStart
     :: (if cleanupTimer m then [Log TimerStopped] else [])
     ++ flat_map destroy_invoke (resources m),
     DestroyAwait (resources m)).
Proof.
  intros Q. rewrite destroyAllNow_call_spec.
  now rewrite (destroy_loop_quiet _ _ Q).
Qed.

Lemma destroy_catch_logs (ps : list ((string * @ResourceInfo T C)
                                     * Settled unit)) key info :
  ~ In (CallCleanup key info) (flat_map destroy_catch ps).
Proof.
  rewrite in_flat_map. intros ([p o] & _ & I).
  unfold destroy_catch in I. simpl in I.
  destruct o; simpl in I; intuition discriminate.
Qed.

Lemma In_destroy_call key info throws m :
  In (CallCleanup key info) (snd (fst (destroyAllNow_call throws m))) ->
  In (key, info) (resources m).
Proof.
  rewrite destroyAllNow_call_spec. simpl.
  intros [E|I]; [discriminate|]. apply in_app_or in I.
  destruct I as [I|I]; [|now apply In_destroy_loop in I].
  destruct (cleanupTimer m); simpl in I; intuition discriminate.
Qed.

Lemma In_destroy_call_quiet key info throws m :
  (forall kv, In kv (resources m) -> throws (fst kv) (snd kv) = None) ->
  In (key, info) (resources m) ->
  In (CallCleanup key info) (snd (fst (destroyAllNow_call throws m))).
Proof.
  intros Q I. rewrite (destroyAllNow_call_quiet _ _ Q). simpl.
  right. apply in_or_app. right. now apply In_destroy_invoke.
Qed.

(** The whole method where no call throws. *)
Lemma destroyAllNow_quiet throws oracle m :
  (forall kv, In kv (resources m) -> throws (fst kv) (snd kv) = None) ->
  destroyAllNow throws oracle m
  = (with_resources (stopped m) [],
     snd (fst (destroyAllNow_call throws m))
     ++ flat_map destroy_catch
          (combine (resources m)
             (map (fun kv => oracle (fst kv) (snd kv)) (resources m)))
     ++ [Log (DestroyFinished (JsMap.size (resources m)))],
     Fulfilled tt).
Proof.
  intros Q. unfold destroyAllNow.
  rewrite (destroyAllNow_call_quiet _ _ Q). reflexivity.
Qed.

(** The whole method where the call for [kv] is the first that throws. *)
Lemma destroyAllNow_thrown throws oracle m before kv rest e :
  resources m = before ++ kv :: rest ->
  (forall kv', In kv' before -> throws (fst kv') (snd kv') = None) ->
  throws (fst kv) (snd kv) = Some e ->
  destroyAllNow throws oracle m
  = (stopped m,
     (Log DestroyStart
      :: (if cleanupTimer m then [Log TimerStopped] else [])
      ++ flat_map destroy_invoke (before ++ [kv]))
     ++ destroy_orphans before
          (map (fun kv => oracle (fst kv) (snd kv)) before),
     Rejected e).
Proof.
  intros R Q E. unfold destroyAllNow.
  rewrite destroyAllNow_call_spec, R.
  rewrite (destroy_loop_throws _ _ _ _ _ Q E). reflexivity.
Qed.

Lemma In_destroyAllNow key info throws oracle m :
  In (CallCleanup key info) (snd (fst (destroyAllNow throws oracle m))) ->
  In (key, info) (resources m).
Proof.
  destruct (destroy_loop_cases throws (resources m))
    as [Q|(before & kv & rest & e & R & Q & E)].
  - rewrite (destroyAllNow_quiet _ _ _ Q). simpl snd. simpl fst.
    intros I. apply in_app_or in I. destruct I as [I|I].
    + now apply In_destroy_call in I.
    + apply in_app_or in I. destruct I as [I|[E|[]]]; [|discriminate].
      now apply destroy_catch_logs in I.
  - rewrite (destroyAllNow_thrown _ _ _ _ _ _ _ R Q E).
    simpl snd. simpl fst. rewrite R.
    intros [E0|I]; [discriminate|].
    apply in_app_or in I. destruct I as [I|I].
    + apply in_app_or in I. destruct I as [I|I].
      * destruct (cleanupTimer m); simpl in I; intuition discriminate.
      * apply In_destroy_invoke in I. apply in_app_or in I.
        apply in_or_app. destruct I as [I|[<-|[]]]; [now left|right; now left].
    + now apply destroy_catch_logs in I.
Qed.

Lemma In_destroyAllNow_quiet key info throws oracle m :
  (forall kv, In kv (resources m) -> throws (fst kv) (snd kv) = None) ->
  In (key, info) (resources m) ->
  In (CallCleanup key info) (snd (fst (destroyAllNow throws oracle m))).
Proof.
  intros Q I. rewrite (destroyAllNow_quiet _ _ _ Q). simpl snd. simpl fst.
  apply in_or_app. left. now apply In_destroy_call_quiet.
Qed.

Lemma cleanup_calls_destroy_invoke key kv :
  cleanup_calls key (destroy_invoke kv)
  = if String.eqb key (fst kv) then 1 else 0.
Proof.
  unfold cleanup_calls. simpl. now destruct (String.eqb key (fst kv)).
Qed.

(** On a map, the loop without a throw calls the cleanup of each key
    once. *)
Lemma cleanup_calls_destroy key info (r : JsMap.t (@ResourceInfo T C)) :
  NoDup (JsMap.keys r) -> In (key, info) r ->
  cleanup_calls key (flat_map destroy_invoke r) = 1.
Proof.
  unfold JsMap.keys. induction r as [|kv r IH]; intros ND I; [destruct I|].
  cbn [flat_map map] in *.
  inversion ND as [|? ? NI ND']; subst.
  rewrite cleanup_calls_app, cleanup_calls_destroy_invoke.
  destruct I as [->|I].
  - cbn [fst]. rewrite String.eqb_refl.
    assert (Z : cleanup_calls key (flat_map destroy_invoke r) = 0).
    { apply cleanup_calls_none. intros info' I'.
      apply In_destroy_invoke in I'. apply NI.
      apply in_map_iff. now exists (key, info'). }
    now rewrite Z.
  - rewrite IH; auto.
    destruct (String.eqb_spec key (fst kv)) as [->|N]; auto.
    exfalso. apply NI. apply in_map_iff. now exists (fst kv, info).
Qed.

(** C7.  What [destroyAllNow] does, told apart by whether a cleanup
    function throws when it is called.  It only ever calls cleanup
    functions of stored entries, on the entries as stored, and it leaves
    the timer cleared.  What follows the wait empties the store and
    fulfils, however the promises settled.  Where no call throws, the
    cleanup of every entry is called, nothing is removed before the
    promises have settled, and the method then empties the store and
    fulfils whatever the promises did.  Where the call for [kv] is the
    first that throws, the cleanups of the entries before [kv] and of [kv]
    are the only ones called, the method's promise rejects with the value
    thrown, the store is left as it was and the closing log entry is not
    written. *)
Theorem C7_destroyAllNow_stops_at_a_cleanup_that_throws throws oracle m :
  (forall key info,
     In (CallCleanup key info) (snd (fst (destroyAllNow throws oracle m))) ->
     In (key, info) (resources m))
  /\ cleanupTimer (fst (fst (destroyAllNow throws oracle m))) = false
  /\ (forall (m1 : @ResourceManager T C)
        (pending : list (string * @ResourceInfo T C))
        (outcomes : list (Settled unit)),
        resources (fst (fst (destroyAllNow_resume m1 pending outcomes))) = []
        /\ snd (destroyAllNow_resume m1 pending outcomes) = Fulfilled tt)
  /\ ((forall kv, In kv (resources m) -> throws (fst kv) (snd kv) = None) ->
      (forall key info,
         In (key, info) (resources m) <->
         In (CallCleanup key info) (snd (fst (destroyAllNow_call throws m))))
      /\ resources (fst (fst (destroyAllNow_call throws m))) = resources m
      /\ snd (destroyAllNow_call throws m) = DestroyAwait (resources m)
      /\ (forall key info,
            In (key, info) (resources m) <->
            In (CallCleanup key info)
               (snd (fst (destroyAllNow throws oracle m))))
      /\ resources (fst (fst (destroyAllNow throws oracle m))) = []
      /\ JsMap.size (resources (fst (fst (destroyAllNow throws oracle m))))
         = 0
      /\ snd (destroyAllNow throws oracle m) = Fulfilled tt)
  /\ (forall before kv rest e,
        resources m = before ++ kv :: rest ->
        (forall kv', In kv' before -> throws (fst kv') (snd kv') = None) ->
        throws (fst kv) (snd kv) = Some e ->
        snd (destroyAllNow_call throws m) = DestroyThrown e before
        /\ snd (destroyAllNow throws oracle m) = Rejected e
        /\ resources (fst (fst (destroyAllNow throws oracle m)))
           = resources m
        /\ (forall key info,
              In (CallCleanup key info)
                 (snd (fst (destroyAllNow throws oracle m)))
              <-> In (key, info) (before ++ [kv]))
        /\ forall n,
             ~ In (Log (DestroyFinished n))
                  (snd (fst (destroyAllNow throws oracle m)))).
Proof.
  split; [intros key info; apply In_destroyAllNow|].
  split.
  { destruct (destroy_loop_cases throws (resources m))
      as [Q|(before & kv & rest & e & R & Q & E)].
    - now rewrite (destroyAllNow_quiet _ _ _ Q).
    - now rewrite (destroyAllNow_thrown _ _ _ _ _ _ _ R Q E). }
  split; [intros m1 pending outcomes; split; reflexivity|].
  split.
  - intros Q. split; [|split; [|split; [|split]]].
    + intros key info. split.
      * now apply In_destroy_call_quiet.
      * apply In_destroy_call.
    + now rewrite destroyAllNow_call_spec.
    + now rewrite (destroyAllNow_call_quiet _ _ Q).
    + intros key info. split.
      * now apply In_destroyAllNow_quiet.
      * apply In_destroyAllNow.
    + now rewrite (destroyAllNow_quiet _ _ _ Q).
  - intros before kv rest e R Q E.
    split.
    { rewrite destroyAllNow_call_spec, R.
      now rewrite (destroy_loop_throws _ _ _ _ _ Q E). }
    rewrite (destroyAllNow_thrown _ _ _ _ _ _ _ R Q E).
    simpl fst. simpl snd.
    split; [reflexivity|]. split; [reflexivity|]. split.
    + intros key info. split.
      * intros [E0|I]; [discriminate|].
        apply in_app_or in I. destruct I as [I|I].
        -- apply in_app_or in I. destruct I as [I|I].
           ++ destruct (cleanupTimer m); simpl in I; intuition discriminate.
           ++ now apply In_destroy_invoke in I.
        -- now apply destroy_catch_logs in I.
      * intros I. right. apply in_or_app. left. apply in_or_app. right.
        now apply In_destroy_invoke.
    + intros n [E0|I]; [discriminate|].
      apply in_app_or in I. destruct I as [I|I].
      * apply in_app_or in I. destruct I as [I|I].
        -- destruct (cleanupTimer m); simpl in I; intuition discriminate.
        -- apply in_flat_map in I. destruct I as (kv0 & _ & I).
           simpl in I. intuition discriminate.
      * unfold destroy_orphans in I. apply in_flat_map in I.
        destruct I as ([p o] & _ & I). unfold destroy_catch in I.
        simpl in I. destruct o; simpl in I; intuition discriminate.
Qed.

(** C8, as the code has it.  On an empty store [destroyAllNow] calls no
    cleanup function, leaves the store empty and fulfils; with the timer
    already stopped as well it changes nothing at all.  With the timer
    already stopped and entries in the store it calls the cleanup of each
    entry, empties the store and fulfils, as any other call where no
    cleanup function throws.  A second call made after a first one has
    completed without error leaves the manager as the first call left it,
    calls no cleanup function and fulfils.  A second call made while the
    first still waits for its promises calls the cleanup of every entry
    again: on a map, each is called twice. *)
Theorem C8_destroyAllNow_on_empty_store_and_twice
    throws oracle throws' oracle' m key :
  (resources m = [] ->
   cleanup_calls key (snd (fst (destroyAllNow throws oracle m))) = 0
   /\ resources (fst (fst (destroyAllNow throws oracle m))) = []
   /\ snd (destroyAllNow throws oracle m) = Fulfilled tt
   /\ (cleanupTimer m = false ->
       fst (fst (destroyAllNow throws oracle m)) = m))
  /\ (cleanupTimer m = false ->
      (forall kv, In kv (resources m) -> throws (fst kv) (snd kv) = None) ->
      (forall key' info,
         In (key', info) (resources m) ->
         In (CallCleanup key' info)
            (snd (fst (destroyAllNow throws oracle m))))
      /\ fst (fst (destroyAllNow throws oracle m)) = with_resources m []
      /\ snd (destroyAllNow throws oracle m) = Fulfilled tt)
  /\ (snd (destroyAllNow throws oracle m) = Fulfilled tt ->
      fst (fst (destroyAllNow throws' oracle'
                  (fst (fst (destroyAllNow throws oracle m)))))
      = fst (fst (destroyAllNow throws oracle m))
      /\ cleanup_calls key
           (snd (fst (destroyAllNow throws' oracle'
                        (fst (fst (destroyAllNow throws oracle m)))))) = 0
      /\ snd (destroyAllNow throws' oracle'
                (fst (fst (destroyAllNow throws oracle m))))
         = Fulfilled tt)
  /\ (forall (w : @World T F C),
        manager w = m ->
        unique_keys m ->
        (forall kv, In kv (resources m) -> throws (fst kv) (snd kv) = None) ->
        (forall kv, In kv (resources m) -> throws' (fst kv) (snd kv) = None) ->
        exists w' effs,
          run w [CallDestroy throws; CallDestroy throws'] = Some w'
          /\ effects w' = effects w ++ effs
          /\ tasks w'
             = (tasks w ++ [(nextTask w, TDestroy (resources m))])
               ++ [(S (nextTask w), TDestroy (resources m))]
          /\ resources (manager w') = resources m
          /\ forall key' info,
               In (key', info) (resources m) ->
               cleanup_calls key' effs = 2).
Proof.
  assert (E : forall t o m0,
            resources m0 = [] ->
            cleanup_calls key (snd (fst (destroyAllNow t o m0))) = 0).
  { intros t o m0 R. apply cleanup_calls_none. intros info I.
    apply In_destroyAllNow in I. rewrite R in I. destruct I. }
  assert (Q0 : forall (t : @ThrowOracle T C) m0, resources m0 = [] ->
            forall kv, In kv (resources m0) -> t (fst kv) (snd kv) = None).
  { intros t m0 R kv I. rewrite R in I. destruct I. }
  split; [|split; [|split]].
  - intros R. split; [now apply E|].
    rewrite (destroyAllNow_quiet throws oracle m (Q0 throws m R)).
    simpl. repeat split.
    intros Tm. rewrite <- R. unfold with_resources. simpl.
    now apply stopped_id.
  - intros Tm Q. split; [|split].
    + intros key' info I. now apply In_destroyAllNow_quiet.
    + rewrite (destroyAllNow_quiet _ _ _ Q). simpl.
      now rewrite (stopped_id _ Tm).
    + now rewrite (destroyAllNow_quiet _ _ _ Q).
  - intros Ful.
    assert (Q : forall kv, In kv (resources m) ->
                           throws (fst kv) (snd kv) = None).
    { destruct (destroy_loop_cases throws (resources m))
        as [Q|(before & kv & rest & e & R & Q & E')]; auto.
      rewrite (destroyAllNow_thrown _ _ _ _ _ _ _ R Q E') in Ful.
      discriminate. }
    rewrite (destroyAllNow_quiet _ _ _ Q). cbn [fst].
    split; [|split].
    + rewrite (destroyAllNow_quiet throws' oracle'
                 (with_resources (stopped m) []));
        [reflexivity|intros kv []].
    + now apply E.
    + rewrite (destroyAllNow_quiet throws' oracle'
                 (with_resources (stopped m) []));
        [reflexivity|intros kv []].
  - intros w Mw U Q Q'. subst m.
    cbn [run step].
    rewrite (destroyAllNow_call_quiet _ _ Q).
    cbn [start manager].
    rewrite (destroyAllNow_call_quiet throws' (stopped (manager w)) Q').
    eexists. eexists. split; [reflexivity|].
    cbn [start effects tasks manager nextTask].
    split; [now rewrite <- app_assoc|].
    split; [reflexivity|]. split; [reflexivity|].
    intros key' info I.
    rewrite !cleanup_calls_app.
    change (Log DestroyStart :: ?l) with ([Log DestroyStart] ++ l).
    cbn [stopped cleanupTimer resources app].
    assert (One : cleanup_calls key'
                    (flat_map destroy_invoke (resources (manager w))) = 1)
      by now apply (cleanup_calls_destroy key' info).
    assert (Hd : forall l : list (@Effect T F C),
              cleanup_calls key' (Log DestroyStart :: l)
              = cleanup_calls key' l) by reflexivity.
    rewrite !Hd, !cleanup_calls_app, One.
    destruct (cleanupTimer (manager w)); reflexivity.
Qed.

End DestroyFacts.

(** ** getResource *)

Section GetClaims.
Context {T F C : Type}.
Import JsMapFacts.

Local Abbreviation getResource_call := (@getResource_call T F C).
Local Abbreviation getResource_resume := (@getResource_resume T F C).
Local Abbreviation getResource := (@getResource T F C).
Local Abbreviation reacquire := (@reacquire T F C).
Local Abbreviation destroyAllNow := (@destroyAllNow T F C).
Local Abbreviation cleanupInactiveResources :=
  (@cleanupInactiveResources T F C).

Implicit Types (m : @ResourceManager T C) (info : @ResourceInfo T C).
Implicit Types (effs : list (@Effect T F C)).
Implicit Types (oracle : @CleanupOracle T C).
Implicit Types (key : string) (clock : Z).

Lemma touch_lastUsed info : touch info (lastUsed info) = info.
Proof. now destruct info. Qed.

Lemma getResource_call_hit m clock key ty (f : F) (c : C) info :
  JsMap.get key (resources m) = Some info ->
  getResource_call m clock key ty f c
  = (with_resources m (JsMap.set key (touch info clock) (resources m)),
     Log (ReusingExisting (resourceType info) (instanceId info) key)
     :: (if String.eqb (resourceType info) ty then []
         else [Log (TypeMismatch key ty (resourceType info))]),
     GetDone (resource info)).
Proof. unfold getResource_call. now intros ->. Qed.

Lemma getResource_call_miss m clock key ty (f : F) (c : C) :
  JsMap.get key (resources m) = None ->
  getResource_call m clock key ty f c
  = (m, [Log (CreatingNew ty key); CallFactory f key],
     GetAwait {| g_key := key; g_resourceType := ty; g_cleanupFn := c |}).
Proof. unfold getResource_call. now intros ->. Qed.

(** Calls for a key that is in the store change the [lastUsed] of its
    entry and nothing else. *)
Lemma reacquire_spec key (calls : list (Z * string * F * C)) :
  forall m info,
  JsMap.get key (resources m) = Some info ->
  (exists clock,
     JsMap.get key (resources (reacquire m key calls))
     = Some (touch info clock))
  /\ (forall key', key <> key' ->
        JsMap.get key' (resources (reacquire m key calls))
        = JsMap.get key' (resources m))
  /\ JsMap.keys (resources (reacquire m key calls))
     = JsMap.keys (resources m)
  /\ cleanupIntervalMs (reacquire m key calls) = cleanupIntervalMs m
  /\ cleanupTimer (reacquire m key calls) = cleanupTimer m.
Proof.
  induction calls as [|[[[clock ty] f] c] calls IH]; intros m info G.
  - simpl. repeat split; auto. exists (lastUsed info).
    now rewrite touch_lastUsed.
  - simpl. rewrite (getResource_call_hit _ _ _ _ _ _ _ G). simpl fst.
    destruct (IH (with_resources m
                    (JsMap.set key (touch info clock) (resources m)))
                 (touch info clock))
      as ((clock' & G') & O & K & I & Tm).
    { simpl. apply get_set_same. }
    repeat split.
    + exists clock'. exact G'.
    + intros key' N. rewrite O by assumption. simpl.
      now apply get_set_other.
    + rewrite K. simpl. apply keys_set_present. congruence.
    + exact I.
    + exact Tm.
Qed.


(** C4.  When the key is in the store, [getResource] returns the stored
    resource at once: the factory is not called (and how it would settle
    does not matter), the entry's [lastUsed] becomes the clock value, and
    a type label other than the stored one only adds a warning to the
    log. *)
Theorem C4_getResource_returns_the_stored_resource
    m clock clock' uuid key ty (f : F) (c : C) info (outcome : Settled T) :
  JsMap.get key (resources m) = Some info ->
  (exists effs,
     getResource_call m clock key ty f c
     = (with_resources m (JsMap.set key (touch info clock) (resources m)),
        effs, GetDone (resource info))
     /\ getResource m clock clock' uuid key ty f c outcome
        = (with_resources m (JsMap.set key (touch info clock) (resources m)),
           effs, Fulfilled (resource info))
     /\ factory_calls effs = 0
     /\ (forall e, In e effs -> exists l, e = Log l /\ level l <> LError)
     /\ (resourceType info <> ty ->
         In (Log (TypeMismatch key ty (resourceType info))) effs
         /\ level (TypeMismatch key ty (resourceType info)) = LWarn))
  /\ JsMap.get key
       (resources (fst (fst (getResource_call m clock key ty f c))))
     = Some (touch info clock)
  /\ lastUsed (touch info clock) = clock
  /\ resource (touch info clock) = resource info.
Proof.
  intros G. split; [|split; [|split]]; try reflexivity.
  - eexists. split; [apply (getResource_call_hit _ _ _ _ _ _ _ G)|].
    split; [|split; [|split]].
    + unfold getResource.
      now rewrite (getResource_call_hit _ _ _ _ _ _ _ G).
    + unfold factory_calls.
      now destruct (String.eqb (resourceType info) ty).
    + intros e0 I. destruct (String.eqb (resourceType info) ty);
        simpl in I.
      * destruct I as [<-|[]]. eexists. split; [reflexivity|discriminate].
      * destruct I as [<-|[<-|[]]];
          eexists; (split; [reflexivity|discriminate]).
    + intros N. split; [|reflexivity].
      destruct (String.eqb_spec (resourceType info) ty); [contradiction|].
      simpl. auto.
  - rewrite (getResource_call_hit _ _ _ _ _ _ _ G). simpl.
    apply get_set_same.
Qed.

(** C10.  A new entry holds the cleanup function given to the call that
    made it.  Later calls for the key, whatever type label, factory and
    cleanup function they pass, change the entry's [lastUsed] and nothing
    else: not its other fields, not the other entries, not the order of
    keys, not the other fields of the manager.  So the cleanup that
    [destroyAllNow] or a sweep calls for the key is the stored function,
    on the stored resource. *)
Theorem C10_getResource_on_a_live_key_changes_only_lastUsed
    m key info (calls : list (Z * string * F * C))
    (throws : @ThrowOracle T C) oracle now
    (m0 : @ResourceManager T C) clock0 uuid0 (k0 : @GetFrame C) (r0 : T) :
  unique_keys m ->
  JsMap.get key (resources m) = Some info ->
  JsMap.get (g_key k0)
    (resources (fst (fst (getResource_resume m0 clock0 uuid0 k0
                            (Fulfilled r0)))))
  = Some {| resource := r0; lastUsed := clock0; instanceId := uuid0;
            resourceType := g_resourceType k0; cacheKey := g_key k0;
            cleanupFn := g_cleanupFn k0 |}
  /\ (exists clock,
        JsMap.get key (resources (reacquire m key calls))
        = Some (touch info clock))
  /\ (forall key', key <> key' ->
        JsMap.get key' (resources (reacquire m key calls))
        = JsMap.get key' (resources m))
  /\ JsMap.keys (resources (reacquire m key calls))
     = JsMap.keys (resources m)
  /\ cleanupIntervalMs (reacquire m key calls) = cleanupIntervalMs m
  /\ cleanupTimer (reacquire m key calls) = cleanupTimer m
  /\ (forall info',
        In (CallCleanup key info')
           (snd (fst (destroyAllNow throws oracle (reacquire m key calls))))
        \/ In (CallCleanup key info')
              (snd (cleanupInactiveResources oracle
                      (reacquire m key calls) now)) ->
        cleanupFn info' = cleanupFn info
        /\ resource info' = resource info
        /\ instanceId info' = instanceId info).
Proof.
  intros U G.
  destruct (reacquire_spec key calls m info G)
    as ((clock & G') & O & K & I & Tm).
  split; [simpl; apply get_set_same|].
  split; [now exists clock|]. repeat (split; [assumption|]).
  intros info' D.
  assert (G'' : JsMap.get key (resources (reacquire m key calls))
                = Some info').
  { destruct D as [D|D].
    - apply In_destroyAllNow in D. apply In_get; auto. now rewrite K.
    - now apply sweep_cleanup_stored in D. }
  rewrite G' in G''. inversion G''; subst. auto.
Qed.

End GetClaims.

(** ** The sweep, cut at its awaits *)

Section SweepSteps.
Context {T F C : Type}.
Import JsMapFacts.

Local Abbreviation sweep_loop := (@sweep_loop T F C).
Local Abbreviation sweep_all := (@sweep_all T F C).
Local Abbreviation sweep_rest := (@sweep_rest T F C).
Local Abbreviation sweep_drive := (@sweep_drive T F C).
Local Abbreviation sweep_settle := (@sweep_settle T F C).
Local Abbreviation getResource_call := (@getResource_call T F C).
Local Abbreviation cleanupInactiveResources_call :=
  (@cleanupInactiveResources_call T F C).
Local Abbreviation cleanupInactiveResources_resume :=
  (@cleanupInactiveResources_resume T F C).

Implicit Types (m : @ResourceManager T C) (info : @ResourceInfo T C).
Implicit Types (effs : list (@Effect T F C)).
Implicit Types (oracle : @CleanupOracle T C).
Implicit Types (key : string) (keys : list string) (now clock : Z).

(** Resuming the suspended loop with the oracle's answers ends, and gives
    what the loop run in one go gives. *)
Lemma sweep_drive_loop oracle keys : forall m now c fuel,
  List.length keys < fuel ->
  exists tail,
    sweep_drive oracle fuel m (snd (sweep_loop m now c keys))
    = Some (fst (sweep_all oracle m now c keys), tail)
    /\ snd (sweep_all oracle m now c keys)
       = fst (sweep_loop m now c keys) ++ tail.
Proof.
  induction keys as [|k0 rest IH]; intros m now c fuel L; simpl.
  - exists []. split; [now destruct fuel|now rewrite app_nil_r].
  - simpl in L. destruct (sweep_check m now k0) as [info0|] eqn:SC.
    + destruct fuel as [|fuel]; [lia|]. simpl.
      unfold cleanupInactiveResources_resume. simpl.
      destruct (sweep_settle m k0 info0 c (oracle k0 info0))
        as [[m' effs] c'].
      destruct (IH m' now c' fuel) as (tail & D & E); [lia|].
      destruct (sweep_loop m' now c' rest) as [effs' st].
      destruct (sweep_all oracle m' now c' rest) as [m'' effs''].
      simpl in D, E. rewrite D. exists ((effs ++ effs') ++ tail).
      split; [reflexivity|]. simpl. rewrite E.
      now rewrite app_assoc.
    + apply IH. lia.
Qed.

(** So for the whole method, and for the rest of a sweep after the
    cleanup it waits for has settled. *)
Lemma sweep_drive_method oracle m now :
  exists tail,
    sweep_drive oracle (S (List.length (keysToRemove m now))) m
      (snd (cleanupInactiveResources_call m now))
    = Some (fst (cleanupInactiveResources (F:=F) oracle m now), tail)
    /\ snd (cleanupInactiveResources (F:=F) oracle m now)
       = fst (cleanupInactiveResources_call m now) ++ tail.
Proof.
  unfold cleanupInactiveResources_call, cleanupInactiveResources.
  destruct (keysToRemove m now) as [|k0 ks] eqn:K.
  - exists []. split; reflexivity.
  - destruct (sweep_drive_loop oracle (k0 :: ks) m now 0
                (S (List.length (k0 :: ks)))) as (tail & D & E); [lia|].
    destruct (sweep_loop m now 0 (k0 :: ks)) as [effs st].
    destruct (sweep_all oracle m now 0 (k0 :: ks)) as [m' effs'].
    simpl fst in *. simpl snd in *. exists tail. split; auto.
    now rewrite E.
Qed.

Lemma sweep_rest_drive oracle m (k : SweepFrame) (outcome : Settled unit) :
  exists tail,
    sweep_drive oracle (S (List.length (s_rest k)))
      (fst (fst (cleanupInactiveResources_resume m k outcome)))
      (snd (cleanupInactiveResources_resume m k outcome))
    = Some (fst (sweep_rest oracle m k outcome), tail)
    /\ snd (sweep_rest oracle m k outcome)
       = snd (fst (cleanupInactiveResources_resume m k outcome)) ++ tail.
Proof.
  unfold cleanupInactiveResources_resume, sweep_rest.
  destruct (sweep_settle m (s_key k) (s_info k) (s_cleanedCount k) outcome)
    as [[m' effs] c'].
  destruct (sweep_drive_loop oracle (s_rest k) m' (s_now k) c'
              (S (List.length (s_rest k)))) as (tail & D & E); [lia|].
  destruct (sweep_loop m' (s_now k) c' (s_rest k)) as [effs' st].
  destruct (sweep_all oracle m' (s_now k) c' (s_rest k)) as [m'' effs''].
  simpl fst in *. simpl snd in *. exists tail. split; auto.
  now rewrite E, app_assoc.
Qed.

(** The frame a sweep waits with: the time of its scan, and a key and
    the keys after it from the scan's list. *)
Lemma sweep_loop_frame keys : forall m now c effs (k : SweepFrame),
  sweep_loop m now c keys = (effs, SweepAwait k) ->
  s_now k = now
  /\ exists before, keys = before ++ s_key k :: s_rest k.
Proof.
  induction keys as [|k0 rest IH]; intros m now c effs k; simpl.
  - discriminate.
  - destruct (sweep_check m now k0) as [info0|].
    + intros E. inversion E; subst. simpl. split; auto. now exists [].
    + intros E. destruct (IH _ _ _ _ _ E) as (N & before & ->).
      split; auto. now exists (k0 :: before).
Qed.

Lemma call_frame m now effs (k : SweepFrame) :
  unique_keys m ->
  cleanupInactiveResources_call m now = (effs, SweepAwait k) ->
  s_now k = now
  /\ ~ In (s_key k) (s_rest k)
  /\ incl (s_rest k) (keysToRemove m now).
Proof.
  intros U. unfold cleanupInactiveResources_call.
  pose proof (keysToRemove_NoDup m now U) as ND.
  destruct (keysToRemove m now) as [|k0 ks] eqn:K; [discriminate|].
  destruct (sweep_loop m now 0 (k0 :: ks)) as [effs' st] eqn:L.
  intros E. inversion E; subst.
  destruct (sweep_loop_frame _ _ _ _ _ _ L) as (N & before & B).
  split; auto. rewrite B in ND |- *.
  apply NoDup_remove_2 in ND. split.
  - intros I. apply ND. apply in_or_app. now right.
  - intros x I. apply in_or_app. right. now right.
Qed.

(** An entry that is not inactive and is not the one whose cleanup the
    sweep waits for comes through the rest of the sweep untouched. *)
Lemma sweep_rest_spares oracle m (k : SweepFrame) (outcome : Settled unit)
    key info :
  JsMap.get key (resources m) = Some info ->
  inactive m (s_now k) info = false ->
  s_key k <> key ->
  cleanup_calls key (snd (sweep_rest oracle m k outcome)) = 0
  /\ JsMap.get key (resources (fst (sweep_rest oracle m k outcome)))
     = Some info.
Proof.
  intros G I N. unfold sweep_rest.
  destruct (sweep_settle_spec (F:=F) m (s_key k) (s_info k)
              (s_cleanedCount k) outcome) as (effs & -> & NC).
  set (m' := if fulfilled outcome
             then with_resources m (JsMap.delete (s_key k) (resources m))
             else m).
  assert (G' : JsMap.get key (resources m') = Some info).
  { unfold m'. destruct (fulfilled outcome); auto. simpl.
    now rewrite get_delete_other. }
  assert (I' : inactive m' (s_now k) info = false).
  { unfold m'. now destruct (fulfilled outcome). }
  pose proof (sweep_all_get (F:=F) oracle (s_rest k) m' (s_now k)
                (if fulfilled outcome
                 then S (s_cleanedCount k) else s_cleanedCount k) key) as SG.
  pose proof (sweep_all_cleanup_stored (F:=F) oracle (s_rest k) m'
                (s_now k)
                (if fulfilled outcome
                 then S (s_cleanedCount k) else s_cleanedCount k) key) as SS.
  destruct (sweep_all oracle m' (s_now k) _ (s_rest k)) as [m'' effs'].
  simpl in *. split.
  - rewrite cleanup_calls_app, NC. simpl.
    apply cleanup_calls_none. intros info' In'.
    apply SS in In'. destruct In' as [G'' I''].
    rewrite G' in G''. inversion G''; subst. congruence.
  - rewrite SG, G', I'. now rewrite andb_false_r.
Qed.

End SweepSteps.

(** ** The event loop *)

Section WorldFacts.
Context {T F C : Type}.
Import JsMapFacts.

Local Abbreviation sweep_loop := (@sweep_loop T F C).
Local Abbreviation getResource_call := (@getResource_call T F C).
Local Abbreviation getResource_resume := (@getResource_resume T F C).
Local Abbreviation cleanupInactiveResources_call :=
  (@cleanupInactiveResources_call T F C).
Local Abbreviation cleanupInactiveResources_resume :=
  (@cleanupInactiveResources_resume T F C).
Local Abbreviation destroyAllNow_call := (@destroyAllNow_call T F C).
Local Abbreviation destroyAllNow_resume := (@destroyAllNow_resume T F C).
Local Abbreviation stopCleanupTimer := (@stopCleanupTimer T F C).

Implicit Types (m : @ResourceManager T C) (info : @ResourceInfo T C).
Implicit Types (effs : list (@Effect T F C)) (kv : string * @ResourceInfo T C).
Implicit Types (w : @World T F C) (i : @Input T F C).
Implicit Types (key : string) (keys : list string) (now clock : Z).

Lemma keeps_refl m u : keeps_or_adds m m u.
Proof. intros kv I. left. now exists kv. Qed.

Lemma get_call_sound m clock key ty (f : F) (c : C) :
  cleans_stored m (snd (fst (getResource_call m clock key ty f c)))
  /\ keeps_or_adds m (fst (fst (getResource_call m clock key ty f c))) None.
Proof.
  unfold getResource_call.
  destruct (JsMap.get key (resources m)) as [info|] eqn:G; simpl.
  - split.
    + intros k i I. exfalso.
      destruct (String.eqb (resourceType info) ty); simpl in I;
        intuition discriminate.
    + intros kv I. left. apply In_set in I. destruct I as [I| ->].
      * now exists kv.
      * exists (key, info). split; auto. now apply get_In.
  - split; [|apply keeps_refl].
    intros k i I. simpl in I. intuition discriminate.
Qed.

Lemma get_resume_sound m clock uuid (k : GetFrame) (outcome : Settled T) :
  cleans_stored m (snd (fst (getResource_resume m clock uuid k outcome)))
  /\ keeps_or_adds m (fst (fst (getResource_resume m clock uuid k outcome)))
       (if fulfilled outcome then Some uuid else None).
Proof.
  destruct outcome as [r|e]; simpl.
  - split.
    + intros k' i I. simpl in I. intuition discriminate.
    + intros kv I. apply In_set in I. destruct I as [I| ->].
      * left. now exists kv.
      * now right.
  - split; [|apply keeps_refl].
    intros k' i I. simpl in I. intuition discriminate.
Qed.

Lemma sweep_loop_cleans_stored keys : forall m now c,
  cleans_stored m (fst (sweep_loop m now c keys)).
Proof.
  induction keys as [|k0 rest IH]; intros m now c key info; simpl.
  - unfold sweep_finish. destruct (0 <? c)%nat; simpl; intuition discriminate.
  - destruct (sweep_check m now k0) as [info0|] eqn:SC; [|apply IH].
    apply sweep_check_Some in SC. destruct SC as [G _].
    simpl. intros [E|[E|[]]]; [discriminate|].
    inversion E; subst. now apply get_In.
Qed.

Lemma sweep_call_sound m now :
  cleans_stored m (fst (cleanupInactiveResources_call m now)).
Proof.
  unfold cleanupInactiveResources_call.
  destruct (keysToRemove m now) as [|k0 ks].
  - intros key info I. simpl in I. intuition discriminate.
  - pose proof (sweep_loop_cleans_stored (k0 :: ks) m now 0) as S.
    destruct (sweep_loop m now 0 (k0 :: ks)) as [effs st].
    intros key info [E|[E|I]]; try discriminate. now apply S.
Qed.

Lemma sweep_resume_sound m (k : SweepFrame) (outcome : Settled unit) :
  cleans_stored m
    (snd (fst (cleanupInactiveResources_resume m k outcome)))
  /\ incl (resources (fst (fst (cleanupInactiveResources_resume m k outcome))))
          (resources m).
Proof.
  unfold cleanupInactiveResources_resume.
  destruct (sweep_settle_spec (F:=F) m (s_key k) (s_info k)
              (s_cleanedCount k) outcome) as (effs & -> & NC).
  set (m' := if fulfilled outcome
             then with_resources m (JsMap.delete (s_key k) (resources m))
             else m).
  assert (Hs : incl (resources m') (resources m)).
  { unfold m'. destruct (fulfilled outcome); [|apply incl_refl].
    intros kv I. simpl in I. now apply In_delete in I. }
  pose proof (sweep_loop_cleans_stored (s_rest k) m' (s_now k)
                (if fulfilled outcome
                 then S (s_cleanedCount k) else s_cleanedCount k)) as L.
  destruct (sweep_loop m' (s_now k) _ (s_rest k)) as [effs' st].
  simpl in *. split; auto.
  intros key info I. apply in_app_or in I. destruct I as [I|I].
  - exfalso. revert I. apply cleanup_calls_none. apply NC.
  - apply Hs. now apply L.
Qed.

Lemma destroy_resume_sound m (pending : list (string * @ResourceInfo T C))
    (outcomes : list (Settled unit)) key info :
  ~ In (CallCleanup key info)
       (snd (fst (destroyAllNow_resume m pending outcomes))).
Proof.
  simpl. intros I. apply in_app_or in I.
  destruct I as [I|[E|[]]]; [|discriminate].
  now apply destroy_catch_logs in I.
Qed.

(** One step of the event loop: what it adds to the effects, what it does
    to the store and to the supply of identifiers. *)
Lemma step_sound w i w' :
  step w i = Some w' ->
  nextUuid w <= nextUuid w'
  /\ (exists effs,
        effects w' = effects w ++ effs /\ cleans_stored (manager w) effs)
  /\ forall kv, In kv (resources (manager w')) ->
       (exists kv0, In kv0 (resources (manager w))
                    /\ instanceId (snd kv0) = instanceId (snd kv))
       \/ instanceId (snd kv) = nextUuid w /\ nextUuid w < nextUuid w'.
Proof.
  destruct i as [clock key ty f c|tid clock outcome|clock|tid outcome|
                 throws|tid outcomes|]; simpl.
  - pose proof (get_call_sound (manager w) clock key ty f c) as [S K].
    destruct (getResource_call (manager w) clock key ty f c)
      as [[m effs] st].
    simpl in S, K.
    destruct st; intros E; inversion E; subst; simpl;
      (split; [lia|split; [now exists effs|]]);
      intros kv I; destruct (K kv I) as [H|H]; auto; discriminate.
  - destruct (find_task tid (tasks w)) as [[k| | |]|]; try discriminate.
    pose proof (get_resume_sound (manager w) clock (nextUuid w) k outcome)
      as [S K].
    destruct (getResource_resume (manager w) clock (nextUuid w) k outcome)
      as [[m effs] r].
    simpl in S, K. intros E; inversion E; subst; simpl.
    split; [destruct outcome; lia|]. split; [now exists effs|].
    intros kv I. destruct (K kv I) as [H|H]; auto.
    destruct outcome; simpl in H; [|discriminate].
    inversion H. right. lia.
  - destruct (cleanupTimer (manager w)); [|discriminate].
    pose proof (sweep_call_sound (manager w) clock) as S.
    destruct (cleanupInactiveResources_call (manager w) clock)
      as [effs st].
    simpl in S. intros E; inversion E; subst; simpl.
    split; [lia|]. split; [now exists effs|].
    intros kv I. left. now exists kv.
  - destruct (find_task tid (tasks w)) as [[| k| |]|]; try discriminate.
    pose proof (sweep_resume_sound (manager w) k outcome) as [S K].
    destruct (cleanupInactiveResources_resume (manager w) k outcome)
      as [[m effs] st].
    simpl in S, K. intros E; inversion E; subst; simpl.
    split; [lia|]. split; [now exists effs|].
    intros kv I. left. exists kv. split; auto.
  - pose proof (fun key info =>
                  In_destroy_call (F:=F) key info throws (manager w)) as S.
    rewrite destroyAllNow_call_spec in S |- *. simpl in S.
    destruct (destroy_loop throws (resources (manager w))) as [effs' st].
    destruct st as [pending|e started];
      intros E; inversion E; subst; simpl;
      (split; [lia|]; split;
       [eexists; split; [reflexivity|]; intros key info I; now apply S
       |intros kv I; left; now exists kv]).
  - destruct (find_task tid (tasks w)) as [[| |pending|started]|];
      try discriminate.
    + destruct (Nat.eqb (List.length outcomes) (List.length pending));
        [|discriminate].
      intros E; inversion E; subst; simpl.
      split; [lia|]. split.
      * eexists. split; [reflexivity|]. intros key info I. exfalso.
        revert I. apply (destroy_resume_sound (manager w) pending outcomes).
      * intros kv [].
    + destruct (Nat.eqb (List.length outcomes) (List.length started));
        [|discriminate].
      intros E; inversion E; subst; simpl.
      split; [lia|]. split.
      * eexists. split; [reflexivity|]. intros key info I. exfalso.
        revert I. apply destroy_catch_logs.
      * intros kv I. left. now exists kv.
  - rewrite stopCleanupTimer_spec.
    intros E; inversion E; subst; simpl.
    split; [lia|]. split.
    + eexists. split; [reflexivity|]. intros key info I. exfalso.
      destruct (cleanupTimer (manager w)); simpl in I;
        intuition discriminate.
    + intros kv I. left. now exists kv.
Qed.

Lemma find_task_In tid (ts : list (nat * @Task T C)) t :
  find_task tid ts = Some t -> In (tid, t) ts.
Proof.
  induction ts as [|[tid' t'] ts IH]; simpl; [discriminate|].
  destruct (Nat.eqb_spec tid tid') as [->|N].
  - intros E; inversion E; auto.
  - auto.
Qed.

Lemma In_drop_task p tid (ts : list (nat * @Task T C)) :
  In p (drop_task tid ts) -> In p ts.
Proof. unfold drop_task. intros I. now apply filter_In in I. Qed.

Lemma step_tasks w i w' :
  step w i = Some w' ->
  (forall p, In p (tasks w) -> fst p < nextTask w) ->
  forall p, In p (tasks w') -> fst p < nextTask w'.
Proof.
  intros E Fr p.
  assert (Fd : forall tid t, find_task tid (tasks w) = Some t ->
                             tid < nextTask w).
  { intros tid t FT. apply find_task_In in FT. now apply Fr in FT. }
  assert (Dr : forall tid, In p (drop_task tid (tasks w)) ->
                           fst p < nextTask w).
  { intros tid I. apply In_drop_task in I. auto. }
  revert E.
  destruct i as [clock key ty f c|tid clock outcome|clock|tid outcome|
                 throws|tid outcomes|]; simpl.
  - destruct (getResource_call (manager w) clock key ty f c)
      as [[m effs] [r|k]];
      intros E; inversion E; subst; simpl; intros I.
    + apply Fr in I. lia.
    + apply in_app_or in I. destruct I as [I|[<-|[]]]; simpl; auto.
      apply Fr in I. lia.
  - destruct (find_task tid (tasks w)) as [[k| | |]|] eqn:FT;
      try discriminate.
    destruct (getResource_resume (manager w) clock (nextUuid w) k outcome)
      as [[m effs] r].
    intros E; inversion E; subst; simpl. eauto.
  - destruct (cleanupTimer (manager w)); [|discriminate].
    destruct (cleanupInactiveResources_call (manager w) clock)
      as [effs [|k]];
      intros E; inversion E; subst; simpl; intros I.
    + apply Fr in I. lia.
    + apply in_app_or in I. destruct I as [I|[<-|[]]]; simpl; auto.
      apply Fr in I. lia.
  - destruct (find_task tid (tasks w)) as [[| k| |]|] eqn:FT;
      try discriminate.
    destruct (cleanupInactiveResources_resume (manager w) k outcome)
      as [[m effs] [|k']];
      intros E; inversion E; subst; simpl; intros I; eauto.
    apply in_app_or in I. destruct I as [I|[<-|[]]]; simpl; eauto.
  - destruct (destroyAllNow_call throws (manager w))
      as [[m effs] [pending|e started]];
      intros E; inversion E; subst; simpl; intros I;
      (apply in_app_or in I; destruct I as [I|[<-|[]]]; simpl; auto;
       apply Fr in I; lia).
  - destruct (find_task tid (tasks w)) as [[| |pending|started]|] eqn:FT;
      try discriminate.
    + destruct (Nat.eqb (List.length outcomes) (List.length pending));
        [|discriminate].
      intros E; inversion E; subst; simpl. eauto.
    + destruct (Nat.eqb (List.length outcomes) (List.length started));
        [|discriminate].
      intros E; inversion E; subst; simpl. eauto.
  - destruct (stopCleanupTimer (manager w)) as [m effs].
    intros E; inversion E; subst; simpl. auto.
Qed.

Lemma step_world_ok w i w' : step w i = Some w' -> world_ok w -> world_ok w'.
Proof.
  intros E [Hs Ht]. split.
  - destruct (step_sound _ _ _ E) as (L & _ & K).
    intros kv I. destruct (K kv I) as [(kv0 & I0 & <-)|[-> Lt]]; auto.
    apply Hs in I0. lia.
  - now apply (step_tasks _ _ _ E).
Qed.

(** The store stays a map: each key once. *)
Lemma step_unique_keys w i w' :
  step w i = Some w' -> unique_keys (manager w) -> unique_keys (manager w').
Proof.
  unfold unique_keys.
  destruct i as [clock key ty f c|tid clock outcome|clock|tid outcome|
                 throws|tid outcomes|]; simpl.
  - unfold getResource_call.
    destruct (JsMap.get key (resources (manager w))) as [info|];
      intros E U; inversion E; subst; simpl; auto.
    now apply NoDup_keys_set.
  - destruct (find_task tid (tasks w)) as [[k| | |]|]; try discriminate.
    destruct outcome as [r|e]; intros E U; inversion E; subst; simpl; auto.
    now apply NoDup_keys_set.
  - destruct (cleanupTimer (manager w)); [|discriminate].
    destruct (cleanupInactiveResources_call (manager w) clock)
      as [effs st].
    intros E U; inversion E; subst; simpl; auto.
  - destruct (find_task tid (tasks w)) as [[| k| |]|]; try discriminate.
    unfold cleanupInactiveResources_resume.
    destruct (sweep_settle_spec (F:=F) (manager w) (s_key k) (s_info k)
                (s_cleanedCount k) outcome) as (effs & -> & _).
    destruct (sweep_loop _ (s_now k) _ (s_rest k)) as [effs' st].
    intros E U; inversion E; subst; simpl.
    destruct (fulfilled outcome); simpl; auto.
    now apply NoDup_keys_delete.
  - rewrite destroyAllNow_call_spec.
    destruct (snd (destroy_loop throws (resources (manager w))));
      intros E U; inversion E; subst; simpl; auto.
  - destruct (find_task tid (tasks w)) as [[| |pending|started]|];
      try discriminate.
    + destruct (Nat.eqb (List.length outcomes) (List.length pending));
        [|discriminate].
      intros E U; inversion E; subst; simpl. constructor.
    + destruct (Nat.eqb (List.length outcomes) (List.length started));
        [|discriminate].
      intros E U; inversion E; subst; simpl; auto.
  - rewrite stopCleanupTimer_spec.
    intros E U; inversion E; subst; simpl; auto.
Qed.

Lemma run_unique_keys (inputs : list (@Input T F C)) : forall w w',
  run w inputs = Some w' ->
  unique_keys (manager w) -> unique_keys (manager w').
Proof.
  induction inputs as [|i inputs IH]; intros w w'; simpl.
  - intros E; inversion E; auto.
  - destruct (step w i) as [w1|] eqn:S1; [|discriminate].
    intros E U. apply (IH _ _ E). now apply (step_unique_keys _ _ _ S1).
Qed.

Lemma constructor_unique_keys (o : option Z) (ci : Z) :
  unique_keys (constructor (T:=T) (F:=F) (C:=C) o ci).
Proof. constructor. Qed.

Lemma instance_cleanups_app id effs effs' :
  instance_cleanups id (effs ++ effs')
  = instance_cleanups id effs + instance_cleanups id effs'.
Proof. unfold instance_cleanups. now rewrite filter_app, length_app. Qed.

Lemma instance_cleanups_none id effs :
  (forall key info, In (CallCleanup key info) effs -> instanceId info <> id)
  -> instance_cleanups id effs = 0.
Proof.
  unfold instance_cleanups. induction effs as [|e effs IH]; simpl; auto.
  intros H.
  specialize (IH (fun key info I => H key info (or_intror I))).
  destruct e as [l|f k|k info]; simpl; auto.
  destruct (Nat.eqb_spec id (instanceId info)) as [E|N]; simpl; auto.
  exfalso. apply (H k info); auto.
Qed.

(** An entry that has left the store stays out, and no step calls its
    cleanup. *)
Lemma step_gone w i w' id :
  step w i = Some w' -> gone w id ->
  gone w' id
  /\ exists effs,
       effects w' = effects w ++ effs /\ instance_cleanups id effs = 0.
Proof.
  intros E [L NS].
  destruct (step_sound _ _ _ E) as (Le & (effs & Ef & Cs) & K).
  split; [split|].
  - lia.
  - intros (kv & I & Id).
    destruct (K kv I) as [(kv0 & I0 & E0)|[E0 _]].
    + apply NS. exists kv0. split; auto. congruence.
    + lia.
  - exists effs. split; auto. apply instance_cleanups_none.
    intros key info I <-. apply NS. exists (key, info). split; auto.
Qed.

Lemma run_gone (inputs : list (@Input T F C)) : forall w w' id,
  run w inputs = Some w' -> gone w id ->
  gone w' id
  /\ exists effs,
       effects w' = effects w ++ effs /\ instance_cleanups id effs = 0.
Proof.
  induction inputs as [|i inputs IH]; intros w w' id; simpl.
  - intros E G. inversion E; subst. split; auto.
    exists []. now rewrite app_nil_r.
  - destruct (step w i) as [w1|] eqn:S1; [|discriminate].
    intros E G.
    destruct (step_gone _ _ _ _ S1 G) as (G1 & effs1 & E1 & N1).
    destruct (IH _ _ _ E G1) as (G' & effs' & E' & N').
    split; auto. exists (effs1 ++ effs'). split.
    + now rewrite E', E1, app_assoc.
    + now rewrite instance_cleanups_app, N1, N'.
Qed.

Lemma run_world_ok (inputs : list (@Input T F C)) : forall w w',
  run w inputs = Some w' -> world_ok w -> world_ok w'.
Proof.
  induction inputs as [|i inputs IH]; intros w w'; simpl.
  - intros E; inversion E; auto.
  - destruct (step w i) as [w1|] eqn:S1; [|discriminate].
    intros E O. apply (IH _ _ E). now apply (step_world_ok _ _ _ S1).
Qed.

Lemma new_world_ok (o : option Z) (ci : Z) :
  world_ok (new_world (F:=F) (constructor (T:=T) (F:=F) (C:=C) o ci)).
Proof. split; intros x []. Qed.

End WorldFacts.

(** ** Calls of getResource that overlap *)

Section Overlap.
Context {T F C : Type}.
Import JsMapFacts.

Implicit Types (m : @ResourceManager T C) (info : @ResourceInfo T C).
Implicit Types (w : @World T F C) (i : @Input T F C).
Implicit Types (key : string) (clock : Z).

Lemma find_task_app tid (ts ts' : list (nat * @Task T C)) :
  find_task tid (ts ++ ts')
  = match find_task tid ts with
    | Some t => Some t
    | None => find_task tid ts'
    end.
Proof.
  induction ts as [|[tid' t'] ts IH]; simpl; auto.
  now destruct (Nat.eqb tid tid').
Qed.

Lemma find_task_fresh n tid (ts : list (nat * @Task T C)) :
  (forall p, In p ts -> fst p < n) -> n <= tid -> find_task tid ts = None.
Proof.
  intros Fr L. destruct (find_task tid ts) as [t|] eqn:FT; auto.
  apply find_task_In in FT. apply Fr in FT. simpl in FT. lia.
Qed.

Lemma find_task_drop_other tid tid' (ts : list (nat * @Task T C)) :
  tid <> tid' -> find_task tid (drop_task tid' ts) = find_task tid ts.
Proof.
  intros N. unfold drop_task.
  induction ts as [|[tid0 t0] ts IH]; simpl; auto.
  destruct (Nat.eqb_spec tid' tid0) as [->|N']; simpl.
  - destruct (Nat.eqb_spec tid tid0); [contradiction|auto].
  - now rewrite IH.
Qed.

(** A call for a key that is not in the store calls the factory and
    waits, whatever else is waiting. *)
Lemma step_get_miss w clock key ty (f : F) (c : C) :
  JsMap.get key (resources (manager w)) = None ->
  step w (CallGet clock key ty f c)
  = Some {| manager := manager w;
            tasks := tasks w
                     ++ [(nextTask w,
                          TGet {| g_key := key; g_resourceType := ty;
                                  g_cleanupFn := c |})];
            nextTask := S (nextTask w);
            nextUuid := nextUuid w;
            effects := effects w
                       ++ [Log (CreatingNew ty key); CallFactory f key];
            results := results w |}.
Proof.
  intros G. simpl. unfold getResource_call. now rewrite G.
Qed.

(** A waiting call whose factory fulfils stores its entry and returns,
    whatever else is waiting. *)
Lemma step_factory_fulfils w tid clock (k : @GetFrame C) (r : T) :
  find_task tid (tasks w) = Some (TGet k) ->
  step w (FactorySettles tid clock (Fulfilled r))
  = Some {| manager :=
              with_resources (manager w)
                (JsMap.set (g_key k)
                   {| resource := r; lastUsed := clock;
                      instanceId := nextUuid w;
                      resourceType := g_resourceType k;
                      cacheKey := g_key k;
                      cleanupFn := g_cleanupFn k |}
                   (resources (manager w)));
            tasks := drop_task tid (tasks w);
            nextTask := nextTask w;
            nextUuid := S (nextUuid w);
            effects := effects w
                       ++ [Log (CreatedResource (g_resourceType k)
                                  (nextUuid w))];
            results := results w ++ [(tid, GetResult (Fulfilled r))] |}.
Proof. intros FT. simpl. now rewrite FT. Qed.

Lemma two_calls_wait w keyA keyB clockA clockB tyA tyB (fA fB : F)
    (cA cB : C) :
  world_ok w ->
  JsMap.get keyA (resources (manager w)) = None ->
  JsMap.get keyB (resources (manager w)) = None ->
  let kA := {| g_key := keyA; g_resourceType := tyA; g_cleanupFn := cA |} in
  let kB := {| g_key := keyB; g_resourceType := tyB; g_cleanupFn := cB |} in
  let w2 :=
    {| manager := manager w;
       tasks := (tasks w ++ [(nextTask w, TGet kA)])
                ++ [(S (nextTask w), TGet kB)];
       nextTask := S (S (nextTask w));
       nextUuid := nextUuid w;
       effects := (effects w
                   ++ [Log (CreatingNew tyA keyA); CallFactory fA keyA])
                  ++ [Log (CreatingNew tyB keyB); CallFactory fB keyB];
       results := results w |} in
  run w [CallGet clockA keyA tyA fA cA; CallGet clockB keyB tyB fB cB]
  = Some w2
  /\ find_task (nextTask w) (tasks w2) = Some (TGet kA)
  /\ find_task (S (nextTask w)) (tasks w2) = Some (TGet kB).
Proof.
  intros [_ Fr] GA GB kA kB w2.
  assert (N1 : find_task (nextTask w) (tasks w) = None)
    by (apply (find_task_fresh (nextTask w)); auto).
  assert (N2 : find_task (S (nextTask w)) (tasks w) = None)
    by (apply (find_task_fresh (nextTask w)); auto).
  split; [|split].
  - cbn [run]. rewrite (step_get_miss _ _ _ _ _ _ GA).
    rewrite step_get_miss by exact GB. reflexivity.
  - unfold w2. cbn [tasks]. rewrite !find_task_app, N1. simpl.
    now rewrite Nat.eqb_refl.
  - unfold w2. cbn [tasks]. rewrite !find_task_app, N2. cbn [find_task].
    rewrite Nat.eqb_refl.
    destruct (Nat.eqb_spec (S (nextTask w)) (nextTask w)); [lia|reflexivity].
Qed.

Lemma run_app (l1 l2 : list (@Input T F C)) : forall w,
  run w (l1 ++ l2)
  = match run w l1 with
    | Some w' => run w' l2
    | None => None
    end.
Proof.
  induction l1 as [|i l1 IH]; intros w; simpl; auto.
  destruct (step w i); auto.
Qed.


End Overlap.

(** * The statements at concrete inputs *)

Section Instances.
Import Examples.

(** The life of one key: created by the factory, reused without a second
    factory call, evicted by the second tick with one cleanup call, and
    created anew afterwards. *)
Example lifecycle_of_A_runs :
  option_map
    (fun w => (results w, factory_calls (effects w),
               instance_cleanups 0 (effects w),
               JsMap.get "A" (resources (manager w))))
    (run world100 lifecycle_of_A)
  = Some ([(0, GetResult (Fulfilled "r1"));
           (1, GetResult (Fulfilled "r1"));
           (2, SweepResult);
           (3, SweepResult);
           (4, GetResult (Fulfilled "r2"))],
          2, 1,
          Some (snd (entry "A" "r2" 301 1 "closeA"))).
Proof. reflexivity. Qed.

(** A key asked for again while the sweep waits is spared; left alone, it
    is cleaned. *)
Example sweep_spares_reacquired_key :
  option_map
    (fun w => (JsMap.keys (resources (manager w)),
               cleanup_calls "B" (effects w)))
    (run (new_world mgrAB) sweep_with_B_reacquired)
  = Some (["B"], 0)
  /\ option_map
       (fun w => (JsMap.keys (resources (manager w)),
                  cleanup_calls "B" (effects w)))
       (run (new_world mgrAB) sweep_undisturbed)
     = Some ([], 1).
Proof. split; reflexivity. Qed.

Lemma mgrAB_unique_keys : unique_keys mgrAB.
Proof.
  unfold unique_keys. simpl.
  constructor; [simpl; intuition discriminate|].
  constructor; [simpl; tauto|constructor].
Qed.




Lemma C4_witness :
  JsMap.get "A" (resources mgrAB) = Some infoA
  /\ JsMap.get "A"
       (resources
          (fst (fst (getResource_call mgrAB 90 "A" "other" "makeA2"
                       "closeA2"))))
     = Some (touch infoA 90).
Proof.
  split; [reflexivity|].
  exact (proj1 (proj2 (C4_getResource_returns_the_stored_resource
                         mgrAB 90%Z 95%Z 7 "A" "other" "makeA2" "closeA2"
                         infoA (Rejected (ErrorObj "not called"))
                         eq_refl))).
Defined.



(** The claim of C8 fails here.  The timer is already stopped, the store
    holds "X", and [destroyAllNow] calls the cleanup of "X"; the manager
    is the one a shutdown followed by a call for "X" leaves.  And two
    calls in a row, the second made while the first waits, call the
    cleanup of "A" twice where one call calls it once. *)
Lemma C8_counterexample :
  cleanupTimer mgrStoppedX = false
  /\ cleanup_calls "X"
       (snd (fst (destroyAllNow (F:=string) never_throws fulfils_all
                    mgrStoppedX))) = 1
  /\ option_map manager (run world100 shutdown_then_createX)
     = Some mgrStoppedX
  /\ cleanup_calls "A"
       (snd (fst (destroyAllNow (F:=string) never_throws fulfils_all mgrAB)))
     = 1
  /\ option_map
       (fun w : Wld =>
          (cleanup_calls "A" (effects w), resources (manager w)))
       (run (new_world mgrAB)
          [CallDestroy never_throws; CallDestroy never_throws])
     = Some (2, resources mgrAB).
Proof. repeat split. Qed.

(** The claim of C7 fails here.  The store holds "A" and "B" and the
    cleanup function of "A" throws when it is called: [destroyAllNow]
    rejects with the value thrown, the cleanup of "B" is not called, the
    store is not emptied and the closing log entry is not written. *)
Lemma C7_failing_input :
  destroyAllNow (F:=string) throws_A fulfils_all mgrAB
  = (with_resources (fst (stopCleanupTimer (F:=string) mgr100))
       (resources mgrAB),
     [Log DestroyStart; Log TimerStopped;
      Log (DestroyInitiating "client" 0 "A"); CallCleanup "A" infoA],
     Rejected (ErrorObj "not open"))
  /\ cleanup_calls "B"
       (snd (fst (destroyAllNow (F:=string) throws_A fulfils_all mgrAB)))
     = 0
  /\ JsMap.size
       (resources
          (fst (fst (destroyAllNow (F:=string) throws_A fulfils_all mgrAB))))
     = 2.
Proof. repeat split. Qed.

Lemma C7_witness :
  resources mgrAB = [] ++ ("A", infoA) :: [("B", infoB)]
  /\ throws_A "A" infoA = Some (ErrorObj "not open")
  /\ snd (destroyAllNow (F:=string) throws_A fulfils_all mgrAB)
     = Rejected (ErrorObj "not open")
  /\ resources
       (fst (fst (destroyAllNow (F:=string) throws_A fulfils_all mgrAB)))
     = resources mgrAB
  /\ (forall kv, In kv (resources mgrAB) ->
                 never_throws (fst kv) (snd kv) = None)
  /\ resources
       (fst (fst (destroyAllNow (F:=string) never_throws rejects_all mgrAB)))
     = []
  /\ snd (destroyAllNow (F:=string) never_throws rejects_all mgrAB)
     = Fulfilled tt.
Proof.
  split; [reflexivity|]. split; [reflexivity|].
  pose proof (proj2 (proj2 (proj2 (proj2
                (C7_destroyAllNow_stops_at_a_cleanup_that_throws
                   (F:=string) throws_A fulfils_all mgrAB))))
                [] ("A", infoA) [("B", infoB)] (ErrorObj "not open")
                eq_refl (fun kv' (I : In kv' []) => match I with end)
                eq_refl) as (_ & Rj & St & _).
  split; [exact Rj|]. split; [exact St|].
  assert (Q : forall kv : string * Info,
            In kv (resources mgrAB) ->
            never_throws (fst kv) (snd kv) = None) by reflexivity.
  split; [exact Q|].
  pose proof (proj1 (proj2 (proj2 (proj2
                (C7_destroyAllNow_stops_at_a_cleanup_that_throws
                   (F:=string) never_throws rejects_all mgrAB)))) Q)
    as (_ & _ & _ & _ & Em & _ & Fu).
  split; [exact Em|exact Fu].
Defined.

Lemma C8_witness :
  resources mgr100 = []
  /\ cleanup_calls "A"
       (snd (fst (destroyAllNow (F:=string) never_throws rejects_all mgr100)))
     = 0
  /\ snd (destroyAllNow (F:=string) never_throws rejects_all mgrAB)
     = Fulfilled tt
  /\ fst (fst (destroyAllNow (F:=string) never_throws fulfils_all
                 (fst (fst (destroyAllNow (F:=string) never_throws
                              rejects_all mgrAB)))))
     = fst (fst (destroyAllNow (F:=string) never_throws rejects_all mgrAB)).
Proof.
  split; [reflexivity|]. split; [|split; [reflexivity|]].
  - exact (proj1 (proj1 (C8_destroyAllNow_on_empty_store_and_twice
                           (F:=string) never_throws rejects_all
                           never_throws fulfils_all mgr100 "A")
                    eq_refl)).
  - exact (proj1 (proj1 (proj2 (proj2
             (C8_destroyAllNow_on_empty_store_and_twice
                (F:=string) never_throws rejects_all
                never_throws fulfils_all mgrAB "A")))
             eq_refl)).
Defined.

Lemma world100_ok : world_ok world100.
Proof. split; intros x []. Qed.


Lemma C10_witness :
  unique_keys mgrAB
  /\ JsMap.get "A" (resources mgrAB) = Some infoA
  /\ exists clock,
       JsMap.get "A"
         (resources
            (reacquire mgrAB "A"
               [(50%Z, "client", "makeA", "closeA");
                (90%Z, "other", "makeA2", "closeA2")]))
       = Some (touch infoA clock).
Proof.
  split; [exact mgrAB_unique_keys|]. split; [reflexivity|].
  exact (proj1 (proj2
           (C10_getResource_on_a_live_key_changes_only_lastUsed
              mgrAB "A" infoA
              [(50%Z, "client", "makeA", "closeA");
               (90%Z, "other", "makeA2", "closeA2")]
              never_throws fulfils_all 500%Z mgr100 0%Z 0
              {| g_key := "A"; g_resourceType := "client";
                 g_cleanupFn := "closeA" |} "r1"
              mgrAB_unique_keys eq_refl))).
Defined.

End Instances.

(** * Further properties of the manager *)

Section StoreInvariants.
Context {T F C : Type}.
Import JsMapFacts.

Local Abbreviation sweep_loop := (@sweep_loop T F C).
Local Abbreviation getResource_call := (@getResource_call T F C).
Local Abbreviation getResource_resume := (@getResource_resume T F C).
Local Abbreviation cleanupInactiveResources_call :=
  (@cleanupInactiveResources_call T F C).
Local Abbreviation cleanupInactiveResources_resume :=
  (@cleanupInactiveResources_resume T F C).
Local Abbreviation destroyAllNow_call := (@destroyAllNow_call T F C).
Local Abbreviation stopCleanupTimer := (@stopCleanupTimer T F C).

Implicit Types (m : @ResourceManager T C) (info : @ResourceInfo T C).
Implicit Types (r : JsMap.t (@ResourceInfo T C)).
Implicit Types (w : @World T F C) (i : @Input T F C).
Implicit Types (key : string) (clock : Z).

Lemma delete_filter key r :
  JsMap.delete key r = filter (fun kv => negb (String.eqb key (fst kv))) r.
Proof.
  induction r as [|[k v] r IH]; simpl; auto.
  destruct (String.eqb key k); simpl; congruence.
Qed.

Lemma delete_absent key r :
  ~ In key (JsMap.keys r) -> JsMap.delete key r = r.
Proof.
  unfold JsMap.keys. induction r as [|[k v] r IH]; simpl; auto.
  intros N. destruct (String.eqb_spec key k) as [->|_].
  - exfalso. auto.
  - rewrite IH; auto.
Qed.

Lemma length_delete_present key r info :
  NoDup (JsMap.keys r) -> JsMap.get key r = Some info ->
  S (List.length (JsMap.delete key r)) = List.length r.
Proof.
  unfold JsMap.keys. induction r as [|[k v] r IH]; simpl; [discriminate|].
  intros ND G. inversion ND as [|? ? NI ND']; subst.
  destruct (String.eqb_spec key k) as [->|N].
  - now rewrite delete_absent.
  - simpl. now rewrite IH.
Qed.

(** [set] at a key that is present replaces one entry in place. *)
Lemma set_present key (v old : @ResourceInfo T C) r :
  JsMap.get key r = Some old ->
  exists r1 r2 k',
    r = r1 ++ (k', old) :: r2 /\ JsMap.set key v r = r1 ++ (k', v) :: r2.
Proof.
  induction r as [|[k v'] r IH]; simpl; [discriminate|].
  destruct (String.eqb_spec key k) as [->|N].
  - intros E; inversion E; subst. now exists [], r, k.
  - intros G. destruct (IH G) as (r1 & r2 & k' & -> & ->).
    now exists ((k, v') :: r1), r2, k'.
Qed.

Lemma set_absent key (v : @ResourceInfo T C) r :
  JsMap.get key r = None -> JsMap.set key v r = r ++ [(key, v)].
Proof.
  induction r as [|[k v'] r IH]; simpl; auto.
  destruct (String.eqb key k); [discriminate|].
  intros G. now rewrite IH.
Qed.

Lemma NoDup_map_filter {A B : Type} (f : A -> B) (p : A -> bool) l :
  NoDup (map f l) -> NoDup (map f (filter p l)).
Proof.
  induction l as [|a l IH]; simpl; auto.
  intros ND. inversion ND as [|? ? NI ND']; subst.
  destruct (p a); simpl; auto.
  constructor; auto. intros I. apply NI.
  apply in_map_iff in I. destruct I as (x & E & I).
  apply filter_In in I. apply in_map_iff. exists x. tauto.
Qed.

Lemma NoDup_replace (l1 l2 : list nat) (a b : nat) :
  NoDup (l1 ++ a :: l2) -> ~ In b (l1 ++ l2) -> NoDup (l1 ++ b :: l2).
Proof.
  intros ND NI. apply NoDup_remove_1 in ND.
  induction l1 as [|x l1 IH]; simpl in *.
  - now constructor.
  - inversion ND as [|? ? NX ND']; subst.
    constructor.
    + intros I. apply in_app_or in I. destruct I as [I|[E|I]].
      * apply NX. apply in_or_app. now left.
      * subst. apply NI. now left.
      * apply NX. apply in_or_app. now right.
    + apply IH; auto.
Qed.

(** What one step of the event loop does to the fields of the manager. *)
Lemma step_store_change w i w' :
  step w i = Some w' ->
  store_change (nextUuid w) (resources (manager w))
    (resources (manager w'))
  /\ cleanupIntervalMs (manager w') = cleanupIntervalMs (manager w)
  /\ (cleanupTimer (manager w') = true -> cleanupTimer (manager w) = true).
Proof.
  destruct i as [clock key ty f c|tid clock outcome|clock|tid outcome|
                 throws|tid outcomes|]; simpl.
  - unfold getResource_call.
    destruct (JsMap.get key (resources (manager w))) as [info|] eqn:G;
      intros E; inversion E; subst; simpl; repeat split; auto.
    + now apply change_touch.
    + apply change_none.
  - destruct (find_task tid (tasks w)) as [[k| | |]|]; try discriminate.
    destruct outcome as [res|e]; intros E; inversion E; subst; simpl;
      repeat split; auto.
    + now apply change_create.
    + apply change_none.
  - destruct (cleanupTimer (manager w)); [|discriminate].
    destruct (cleanupInactiveResources_call (manager w) clock)
      as [effs st].
    intros E; inversion E; subst; simpl; repeat split; auto.
    apply change_none.
  - destruct (find_task tid (tasks w)) as [[| k| |]|]; try discriminate.
    unfold cleanupInactiveResources_resume.
    destruct (sweep_settle_spec (F:=F) (manager w) (s_key k) (s_info k)
                (s_cleanedCount k) outcome) as (effs & -> & _).
    destruct (sweep_loop _ (s_now k) _ (s_rest k)) as [effs' st].
    intros E; inversion E; subst; simpl.
    destruct (fulfilled outcome); simpl; repeat split; auto.
    + apply change_delete.
    + apply change_none.
  - rewrite destroyAllNow_call_spec.
    destruct (snd (destroy_loop throws (resources (manager w))));
      intros E; inversion E; subst; simpl; repeat split;
      apply change_none || discriminate.
  - destruct (find_task tid (tasks w)) as [[| |pending|started]|];
      try discriminate.
    + destruct (Nat.eqb (List.length outcomes) (List.length pending));
        [|discriminate].
      intros E; inversion E; subst; simpl; repeat split; auto.
      apply change_clear.
    + destruct (Nat.eqb (List.length outcomes) (List.length started));
        [|discriminate].
      intros E; inversion E; subst; simpl; repeat split; auto.
      apply change_none.
  - rewrite stopCleanupTimer_spec.
    intros E; inversion E; subst; simpl; repeat split;
      [apply change_none|discriminate].
Qed.

Lemma change_keys_match uuid r r' :
  store_change uuid r r' ->
  (forall kv, In kv r -> cacheKey (snd kv) = fst kv) ->
  forall kv, In kv r' -> cacheKey (snd kv) = fst kv.
Proof.
  intros Ch K kv.
  destruct Ch as [|key info clock G|key info Id Ck|key|].
  - apply K.
  - intros I. apply In_set in I. destruct I as [I| ->]; auto.
    simpl. apply get_In in G. now apply K in G.
  - intros I. apply In_set in I. destruct I as [I| ->]; auto.
  - intros I. apply In_delete in I. auto.
  - intros [].
Qed.

Lemma change_ids uuid r r' :
  store_change uuid r r' ->
  (forall kv, In kv r -> instanceId (snd kv) < uuid) ->
  NoDup (map (fun kv => instanceId (snd kv)) r) ->
  NoDup (map (fun kv => instanceId (snd kv)) r').
Proof.
  intros Ch B ND.
  destruct Ch as [|key info clock G|key info Id Ck|key|].
  - exact ND.
  - destruct (set_present key (touch info clock) info _ G)
      as (r1 & r2 & k' & E1 & ->).
    rewrite E1 in ND. rewrite map_app in *. exact ND.
  - assert (Fresh : ~ In uuid (map (fun kv => instanceId (snd kv)) r)).
    { intros I. apply in_map_iff in I.
      destruct I as (kv & Ek & I). apply B in I. lia. }
    destruct (JsMap.get key r) as [old|] eqn:G.
    + destruct (set_present key info old _ G)
        as (r1 & r2 & k' & E1 & ->).
      rewrite E1 in ND, Fresh.
      rewrite map_app in *. simpl in *. rewrite Id.
      apply (NoDup_replace _ _ (instanceId old)); auto.
      intros I. apply Fresh. apply in_app_or in I.
      apply in_or_app. destruct I; [now left|right; now right].
    + rewrite (set_absent _ _ _ G), map_app. simpl. rewrite Id.
      apply NoDup_app; auto.
      * repeat constructor. simpl. tauto.
      * intros x I [<-|[]]. now apply Fresh.
  - rewrite delete_filter. now apply NoDup_map_filter.
  - constructor.
Qed.

(** X1.  In every state the event loop reaches from a new manager: each
    key is in the map once, the entries carry pairwise different
    identifiers, all of them handed out before, each entry records the
    key it is stored under, and the interval is the one the constructor
    set. *)
Theorem reachable_store_is_well_formed
    (o : option Z) (ci : Z) (inputs : list (@Input T F C)) w :
  run (new_world (constructor (F:=F) o ci)) inputs = Some w ->
  unique_keys (manager w)
  /\ NoDup (ids (manager w))
  /\ (forall key info,
        In (key, info) (resources (manager w)) ->
        cacheKey info = key /\ instanceId info < nextUuid w)
  /\ cleanupIntervalMs (manager w)
     = match o with Some interval => interval | None => ci end.
Proof.
  assert (Gen : forall (ins : list (@Input T F C)) w0 w1,
            run w0 ins = Some w1 ->
            world_ok w0 -> NoDup (ids (manager w0)) ->
            keys_match (manager w0) ->
            NoDup (ids (manager w1)) /\ keys_match (manager w1)
            /\ cleanupIntervalMs (manager w1)
               = cleanupIntervalMs (manager w0)).
  { induction ins as [|i ins IH]; intros w0 w1; simpl.
    - intros E; inversion E; auto.
    - destruct (step w0 i) as [w2|] eqn:S2; [|discriminate].
      intros E O ND K.
      destruct (step_store_change _ _ _ S2) as (Ch & I & _).
      destruct (IH _ _ E) as (ND1 & K1 & I1).
      + now apply (step_world_ok _ _ _ S2).
      + apply (change_ids _ _ _ Ch); auto. intros kv. apply O.
      + exact (change_keys_match _ _ _ Ch K).
      + repeat split; auto. congruence. }
  intros R.
  destruct (Gen _ _ _ R) as (ND & K & I).
  - apply new_world_ok.
  - constructor.
  - intros kv [].
  - split.
    + apply (run_unique_keys _ _ _ R). apply constructor_unique_keys.
    + split; auto. split; [|now rewrite I; destruct o].
      intros key info In'. split.
      * apply (K (key, info) In').
      * pose proof (run_world_ok _ _ _ R (new_world_ok (F:=F) o ci))
          as [Hs _].
        apply (Hs (key, info) In').
Qed.

End StoreInvariants.

Section AfterShutdown.
Context {T F C : Type}.
Import JsMapFacts.

Local Abbreviation sweep_loop := (@sweep_loop T F C).
Local Abbreviation getResource_call := (@getResource_call T F C).
Local Abbreviation getResource_resume := (@getResource_resume T F C).
Local Abbreviation destroyAllNow_call := (@destroyAllNow_call T F C).
Local Abbreviation destroyAllNow_resume := (@destroyAllNow_resume T F C).
Local Abbreviation stopCleanupTimer := (@stopCleanupTimer T F C).

Implicit Types (m : @ResourceManager T C) (info : @ResourceInfo T C).
Implicit Types (effs : list (@Effect T F C)).
Implicit Types (w : @World T F C) (i : @Input T F C).
Implicit Types (key : string) (clock : Z).

Lemma cleanups_app effs effs' :
  cleanups (effs ++ effs') = cleanups effs + cleanups effs'.
Proof. unfold cleanups. now rewrite filter_app, length_app. Qed.

Lemma cleanups_none effs :
  (forall key info, ~ In (CallCleanup key info) effs) -> cleanups effs = 0.
Proof.
  unfold cleanups. induction effs as [|e effs IH]; simpl; auto.
  intros H.
  specialize (IH (fun key info I => H key info (or_intror I))).
  destruct e as [l|f k|k info]; simpl; auto.
  exfalso. apply (H k info). now left.
Qed.

(** X2.  Nothing sets the timer again: once [cleanupTimer] is [null]
    (after [stopCleanupTimer] or [destroyAllNow]) it stays so through any
    run of the event loop, and no tick of the timer starts a sweep any
    more. *)
Theorem stopped_timer_never_restarts (inputs : list (@Input T F C)) :
  forall w w',
  cleanupTimer (manager w) = false ->
  run w inputs = Some w' ->
  cleanupTimer (manager w') = false
  /\ forall clock, step w' (TimerFires clock) = None.
Proof.
  assert (Off : forall w', cleanupTimer (manager w') = false ->
                forall clock, step w' (TimerFires clock) = None).
  { intros w' E clock. simpl. now rewrite E. }
  induction inputs as [|i inputs IH]; intros w w' E; simpl.
  - intros R; inversion R; subst. split; [assumption|now apply Off].
  - destruct (step w i) as [w1|] eqn:S1; [|discriminate].
    intros R. apply (IH w1); auto.
    destruct (step_store_change _ _ _ S1) as (_ & _ & Tm).
    destruct (cleanupTimer (manager w1)); auto.
    rewrite Tm in E; auto.
Qed.

(** With the timer stopped and no sweep waiting, a step that is not a
    call of [destroyAllNow] calls no cleanup function and leaves the
    timer stopped and no sweep waiting. *)
Lemma step_quiet w i w' :
  cleanupTimer (manager w) = false ->
  ~ sweep_waiting w ->
  is_destroy i = false ->
  step w i = Some w' ->
  cleanupTimer (manager w') = false
  /\ ~ sweep_waiting w'
  /\ exists effs, effects w' = effects w ++ effs /\ cleanups effs = 0.
Proof.
  intros Off NW ND St.
  assert (Off' : cleanupTimer (manager w') = false).
  { destruct (step_store_change _ _ _ St) as (_ & _ & Tm).
    destruct (cleanupTimer (manager w')); auto. rewrite Tm in Off; auto. }
  split; auto.
  assert (Drop : forall tid tid' k,
            In (tid', TSweep k) (drop_task tid (tasks w)) -> False).
  { intros tid tid' k I. apply In_drop_task in I. apply NW.
    now exists tid', k. }
  revert St.
  destruct i as [clock key ty f c|tid clock outcome|clock|tid outcome|
                 throws|tid outcomes|]; simpl; try discriminate.
  - unfold getResource_call.
    destruct (JsMap.get key (resources (manager w))) as [info|];
      intros E; inversion E; subst; simpl; split.
    + exact NW.
    + eexists. split; [reflexivity|].
      now destruct (String.eqb (resourceType info) ty).
    + intros (tid & k & I). apply in_app_or in I.
      destruct I as [I|[I|[]]]; [|discriminate].
      apply NW. now exists tid, k.
    + eexists. split; reflexivity.
  - destruct (find_task tid (tasks w)) as [[k| | |]|]; try discriminate.
    destruct outcome as [res|e]; intros E; inversion E; subst; simpl;
      (split; [intros (tid' & k' & I); now apply Drop in I
              |eexists; split; reflexivity]).
  - rewrite Off. discriminate.
  - destruct (find_task tid (tasks w)) as [[| k| |]|] eqn:FT;
      try discriminate.
    exfalso. apply NW. exists tid, k. now apply find_task_In.
  - destruct (find_task tid (tasks w)) as [[| |pending|started]|];
      try discriminate.
    + destruct (Nat.eqb (List.length outcomes) (List.length pending));
        [|discriminate].
      intros E; inversion E; subst; simpl. split.
      * intros (tid' & k' & I). now apply Drop in I.
      * eexists. split; [reflexivity|]. apply cleanups_none.
        intros key info.
        apply (destroy_resume_sound (F:=F) (manager w) pending outcomes).
    + destruct (Nat.eqb (List.length outcomes) (List.length started));
        [|discriminate].
      intros E; inversion E; subst; simpl. split.
      * intros (tid' & k' & I). now apply Drop in I.
      * eexists. split; [reflexivity|]. apply cleanups_none.
        intros key info. apply destroy_catch_logs.
  - rewrite stopCleanupTimer_spec.
    intros E; inversion E; subst; simpl. split; auto.
    eexists. split; [reflexivity|].
    now destruct (cleanupTimer (manager w)).
Qed.

(** X3.  After a shutdown the manager still answers [getResource], but
    it cleans nothing by itself: from a state with the timer stopped and
    no sweep waiting, a run without a call of [destroyAllNow] calls no
    cleanup function at all, whatever else is called and however long it
    lasts. *)
Theorem nothing_is_cleaned_after_shutdown (inputs : list (@Input T F C)) :
  forall w w',
  cleanupTimer (manager w) = false ->
  ~ sweep_waiting w ->
  forallb (fun i => negb (is_destroy i)) inputs = true ->
  run w inputs = Some w' ->
  exists effs, effects w' = effects w ++ effs /\ cleanups effs = 0.
Proof.
  induction inputs as [|i inputs IH]; intros w w' Off NW ND; simpl.
  - intros R; inversion R; subst. exists []. now rewrite app_nil_r.
  - simpl in ND. apply andb_true_iff in ND. destruct ND as [Ni ND].
    apply negb_true_iff in Ni.
    destruct (step w i) as [w1|] eqn:S1; [|discriminate].
    intros R.
    destruct (step_quiet _ _ _ Off NW Ni S1) as (Off1 & NW1 & e1 & E1 & Z1).
    destruct (IH _ _ Off1 NW1 ND R) as (e2 & E2 & Z2).
    exists (e1 ++ e2). split.
    + now rewrite E2, E1, app_assoc.
    + now rewrite cleanups_app, Z1, Z2.
Qed.

(** X4.  An entry created while [destroyAllNow] waits for the cleanups
    is dropped without its cleanup being called: the call for the key
    gets its resource, the [clear] that follows the wait removes the new
    entry with the others, these steps call no cleanup function, and no
    later step calls the one of the new entry. *)
Theorem entry_created_during_shutdown_is_dropped_uncleaned
    w tid (pending : list (string * @ResourceInfo T C))
    (outcomes : list (Settled unit))
    clock clock' key ty (f : F) (c : C) (res : T) :
  world_ok w ->
  find_task tid (tasks w) = Some (TDestroy pending) ->
  List.length outcomes = List.length pending ->
  JsMap.get key (resources (manager w)) = None ->
  exists w2 w3,
    run w [CallGet clock key ty f c;
           FactorySettles (nextTask w) clock' (Fulfilled res)] = Some w2
    /\ JsMap.get key (resources (manager w2))
       = Some {| resource := res; lastUsed := clock';
                 instanceId := nextUuid w; resourceType := ty;
                 cacheKey := key; cleanupFn := c |}
    /\ In (nextTask w, GetResult (Fulfilled res)) (results w2)
    /\ run w2 [AllSettle tid outcomes] = Some w3
    /\ resources (manager w3) = []
    /\ (exists effs, effects w3 = effects w ++ effs /\ cleanups effs = 0)
    /\ forall (inputs : list (@Input T F C)) w4,
         run w3 inputs = Some w4 ->
         exists effs,
           effects w4 = effects w3 ++ effs
           /\ instance_cleanups (nextUuid w) effs = 0.
Proof.
  intros O FT Len G.
  assert (Lt : tid < nextTask w).
  { destruct O as [_ Ft]. apply find_task_In in FT. now apply Ft in FT. }
  pose proof (step_get_miss w clock key ty f c G) as S1.
  match type of S1 with _ = Some ?x => set (w1 := x) in * end.
  assert (FT1 : find_task (nextTask w) (tasks w1)
                = Some (TGet {| g_key := key; g_resourceType := ty;
                                g_cleanupFn := c |})).
  { unfold w1. cbn [tasks]. rewrite find_task_app.
    rewrite (find_task_fresh (nextTask w)); auto; [|apply O].
    cbn [find_task]. now rewrite Nat.eqb_refl. }
  pose proof (step_factory_fulfils _ _ clock' _ res FT1) as S2.
  match type of S2 with _ = Some ?x => set (w2 := x) in * end.
  assert (FT2 : find_task tid (tasks w2) = Some (TDestroy pending)).
  { unfold w2, w1. cbn [tasks]. rewrite find_task_drop_other by lia.
    rewrite find_task_app, FT. reflexivity. }
  assert (S3 : exists w3, step w2 (AllSettle tid outcomes) = Some w3
                          /\ resources (manager w3) = []
                          /\ nextUuid w3 = nextUuid w2
                          /\ exists effs, effects w3 = effects w2 ++ effs
                                          /\ cleanups effs = 0).
  { cbn [step]. rewrite FT2. rewrite Len, Nat.eqb_refl.
    eexists. split; [reflexivity|]. cbn. split; auto. split; auto.
    eexists. split; [reflexivity|]. apply cleanups_none.
    intros k0 i0.
    apply (destroy_resume_sound (F:=F) (manager w2) pending outcomes). }
  destruct S3 as (w3 & S3 & R3 & U3 & effs3 & E3 & Z3).
  exists w2, w3. repeat apply conj.
  - cbn [run]. rewrite S1. now rewrite S2.
  - unfold w2. cbn. apply get_set_same.
  - unfold w2. cbn. apply in_or_app. right. now left.
  - cbn [run]. now rewrite S3.
  - exact R3.
  - eexists. split.
    + rewrite E3. unfold w2, w1. cbn [effects].
      rewrite <- !app_assoc. reflexivity.
    + rewrite !cleanups_app, Z3. reflexivity.
  - intros inputs w4 R4.
    assert (G3 : gone w3 (nextUuid w)).
    { split.
      - rewrite U3. unfold w2. cbn. lia.
      - intros (kv & I & _). rewrite R3 in I. destruct I. }
    now destruct (run_gone _ _ _ _ R4 G3).
Qed.

End AfterShutdown.

(** * The calls of one cleanup function *)

Section CleanupCounts.
Context {T F C : Type}.
Import JsMapFacts.

Local Abbreviation sweep_loop := (@sweep_loop T F C).
Local Abbreviation sweep_invoke := (@sweep_invoke T F C).
Local Abbreviation sweep_finish := (@sweep_finish T F C).
Local Abbreviation sweep_settle := (@sweep_settle T F C).
Local Abbreviation sweep_rest := (@sweep_rest T F C).
Local Abbreviation destroy_invoke := (@destroy_invoke T F C).
Local Abbreviation destroy_loop := (@destroy_loop T F C).
Local Abbreviation getResource_call := (@getResource_call T F C).
Local Abbreviation getResource_resume := (@getResource_resume T F C).
Local Abbreviation cleanupInactiveResources_call :=
  (@cleanupInactiveResources_call T F C).
Local Abbreviation cleanupInactiveResources_resume :=
  (@cleanupInactiveResources_resume T F C).
Local Abbreviation destroyAllNow_call := (@destroyAllNow_call T F C).
Local Abbreviation destroyAllNow_resume := (@destroyAllNow_resume T F C).
Local Abbreviation stopCleanupTimer := (@stopCleanupTimer T F C).
Local Abbreviation sweep_part := (@sweep_part T F C).
Local Abbreviation cleaned_once := (@cleaned_once T F C).
Local Abbreviation awaited := (@awaited T F C).

Implicit Types (m : @ResourceManager T C) (info : @ResourceInfo T C).
Implicit Types (r : JsMap.t (@ResourceInfo T C)).
Implicit Types (kv : string * @ResourceInfo T C).
Implicit Types (effs : list (@Effect T F C)).
Implicit Types (w : @World T F C) (i : @Input T F C).
Implicit Types (ts : list (nat * @Task T C)).
Implicit Types (key : string) (keys : list string) (now clock : Z).
Implicit Types (tid id : nat).

(** ** Identifiers and keys *)

Lemma ids_inj r kv kv' :
  NoDup (map (fun kv => instanceId (snd kv)) r) ->
  In kv r -> In kv' r ->
  instanceId (snd kv) = instanceId (snd kv') -> kv = kv'.
Proof.
  induction r as [|x r IH]; simpl; [tauto|].
  intros ND I I' E. inversion ND as [|? ? NI ND']; subst.
  destruct I as [<-|I], I' as [<-|I']; auto.
  - exfalso. apply NI. rewrite E. apply in_map_iff. now exists kv'.
  - exfalso. apply NI. rewrite <- E. apply in_map_iff. now exists kv.
Qed.

(** A change of the store keeps the keys under which the entries with a
    given identifier sit, once the identifier has been handed out. *)
Lemma change_key_of uuid r r' id (P : string -> Prop) :
  store_change uuid r r' -> id < uuid ->
  (forall kv, In kv r -> instanceId (snd kv) = id -> P (fst kv)) ->
  forall kv, In kv r' -> instanceId (snd kv) = id -> P (fst kv).
Proof.
  intros Ch Lt K kv.
  destruct Ch as [|key info clock G|key info Id Ck|key|].
  - apply K.
  - intros I E. apply In_set in I. destruct I as [I| ->]; auto.
    simpl in *. apply get_In in G. now apply (K (key, info)).
  - intros I E. apply In_set in I. destruct I as [I| ->]; auto.
    simpl in E. lia.
  - intros I. apply In_delete in I. auto.
  - intros [].
Qed.

(** ** The parts of a sweep *)

Lemma instance_cleanups_invoke id key info :
  instance_cleanups id (sweep_invoke key info)
  = if Nat.eqb id (instanceId info) then 1 else 0.
Proof.
  unfold instance_cleanups. simpl.
  now destruct (Nat.eqb id (instanceId info)).
Qed.

Lemma instance_cleanups_finish id c :
  instance_cleanups id (sweep_finish c) = 0.
Proof. unfold sweep_finish. now destruct (0 <? c)%nat. Qed.

Lemma sweep_loop_await keys : forall m now c effs (k : SweepFrame),
  sweep_loop m now c keys = (effs, SweepAwait k) ->
  effs = sweep_invoke (s_key k) (s_info k)
  /\ JsMap.get (s_key k) (resources m) = Some (s_info k)
  /\ exists before, keys = before ++ s_key k :: s_rest k.
Proof.
  induction keys as [|k0 rest IH]; intros m now c effs k; simpl.
  - discriminate.
  - destruct (sweep_check m now k0) as [info0|] eqn:SC.
    + intros E. inversion E; subst. simpl.
      apply sweep_check_Some in SC. destruct SC as [G _].
      repeat split; auto. now exists [].
    + intros E. destruct (IH _ _ _ _ _ E) as (Ef & G & before & ->).
      repeat split; auto. now exists (k0 :: before).
Qed.

Lemma sweep_loop_done keys : forall m now c effs,
  sweep_loop m now c keys = (effs, SweepDone) -> effs = sweep_finish c.
Proof.
  induction keys as [|k0 rest IH]; intros m now c effs; simpl.
  - intros E. now inversion E.
  - destruct (sweep_check m now k0) as [info0|]; [discriminate|apply IH].
Qed.

Lemma sweep_loop_part keys m now c :
  sweep_part m keys (fst (sweep_loop m now c keys))
    (snd (sweep_loop m now c keys)).
Proof.
  destruct (sweep_loop m now c keys) as [effs [|k]] eqn:L; simpl.
  - apply sweep_loop_done in L. subst. intros id.
    apply instance_cleanups_finish.
  - apply sweep_loop_await in L. destruct L as (-> & G & B).
    repeat split; auto. intros id. apply instance_cleanups_invoke.
Qed.

Lemma call_part m now :
  sweep_part m (keysToRemove m now)
    (fst (cleanupInactiveResources_call m now))
    (snd (cleanupInactiveResources_call m now)).
Proof.
  unfold cleanupInactiveResources_call.
  destruct (keysToRemove m now) as [|k0 ks] eqn:K.
  - simpl. reflexivity.
  - pose proof (sweep_loop_part (k0 :: ks) m now 0) as P.
    destruct (sweep_loop m now 0 (k0 :: ks)) as [effs [|k]];
      simpl in *; auto.
Qed.

Lemma resume_part m (k : SweepFrame) (outcome : Settled unit) :
  fst (fst (cleanupInactiveResources_resume m k outcome))
  = (if fulfilled outcome
     then with_resources m (JsMap.delete (s_key k) (resources m))
     else m)
  /\ sweep_part (fst (fst (cleanupInactiveResources_resume m k outcome)))
       (s_rest k)
       (snd (fst (cleanupInactiveResources_resume m k outcome)))
       (snd (cleanupInactiveResources_resume m k outcome)).
Proof.
  unfold cleanupInactiveResources_resume.
  destruct (sweep_settle_spec (F:=F) m (s_key k) (s_info k)
              (s_cleanedCount k) outcome) as (effs & -> & NC).
  set (m' := if fulfilled outcome
             then with_resources m (JsMap.delete (s_key k) (resources m))
             else m).
  set (c' := if fulfilled outcome
             then S (s_cleanedCount k) else s_cleanedCount k).
  pose proof (sweep_loop_part (s_rest k) m' (s_now k) c') as P.
  destruct (sweep_loop m' (s_now k) c' (s_rest k)) as [effs' st].
  simpl in *. split; auto.
  assert (Z : forall id, instance_cleanups id effs = 0).
  { intros id. apply instance_cleanups_none. intros key info I E.
    revert I. apply (proj2 (cleanup_calls_none key effs) (NC key)). }
  destruct st as [|k']; simpl in *.
  - intros id. now rewrite instance_cleanups_app, Z, P.
  - destruct P as (P & G & B). repeat split; auto.
    intros id. now rewrite instance_cleanups_app, Z, P.
Qed.


(** ** The loop of destroyAllNow *)

Lemma instance_cleanups_destroy_invoke id kv :
  instance_cleanups id (destroy_invoke kv)
  = if Nat.eqb id (instanceId (snd kv)) then 1 else 0.
Proof.
  unfold instance_cleanups. simpl.
  now destruct (Nat.eqb id (instanceId (snd kv))).
Qed.

Lemma instance_cleanups_destroy id r :
  NoDup (map (fun kv => instanceId (snd kv)) r) ->
  instance_cleanups id (flat_map destroy_invoke r) <= 1.
Proof.
  induction r as [|kv r IH]; intros ND; [unfold instance_cleanups; simpl; lia|].
  cbn [flat_map map] in *. inversion ND as [|? ? NI ND']; subst.
  rewrite instance_cleanups_app, instance_cleanups_destroy_invoke.
  destruct (Nat.eqb_spec id (instanceId (snd kv))) as [->|N].
  - assert (Z : instance_cleanups (instanceId (snd kv))
                  (flat_map destroy_invoke r) = 0).
    { apply instance_cleanups_none. intros key info I E.
      apply In_destroy_invoke in I. apply NI. rewrite <- E.
      apply in_map_iff. now exists (key, info). }
    rewrite Z. lia.
  - specialize (IH ND'). lia.
Qed.

Lemma destroy_loop_count throws r id :
  NoDup (map (fun kv => instanceId (snd kv)) r) ->
  instance_cleanups id (fst (destroy_loop throws r)) <= 1.
Proof.
  intros ND.
  destruct (destroy_loop_cases throws r)
    as [Q|(before & kv & rest & e & -> & Q & E)].
  - rewrite (destroy_loop_quiet _ _ Q). now apply instance_cleanups_destroy.
  - rewrite (destroy_loop_throws _ _ _ _ _ Q E). simpl fst.
    apply instance_cleanups_destroy.
    change (before ++ kv :: rest) with (before ++ [kv] ++ rest) in ND.
    rewrite app_assoc, map_app in ND.
    now apply NoDup_app_remove_r in ND.
Qed.

Lemma destroy_call_count throws m id :
  NoDup (ids m) ->
  instance_cleanups id (snd (fst (destroyAllNow_call throws m))) <= 1.
Proof.
  intros ND. rewrite destroyAllNow_call_spec. simpl snd. simpl fst.
  change (Log DestroyStart :: ?l) with ([Log DestroyStart] ++ l).
  rewrite !instance_cleanups_app.
  assert (Z : @instance_cleanups T F C id
                (if cleanupTimer m then [Log TimerStopped] else []) = 0)
    by now destruct (cleanupTimer m).
  rewrite Z. pose proof (destroy_loop_count throws (resources m) id ND).
  simpl. lia.
Qed.

Lemma instance_cleanups_pos id effs :
  instance_cleanups id effs <> 0 ->
  exists key info, In (CallCleanup key info) effs /\ instanceId info = id.
Proof.
  unfold instance_cleanups. induction effs as [|e effs IH]; simpl.
  - tauto.
  - destruct e as [l|f k|k info]; simpl.
    + intros H. destruct (IH H) as (key & i0 & I & E). eauto.
    + intros H. destruct (IH H) as (key & i0 & I & E). eauto.
    + destruct (Nat.eqb_spec id (instanceId info)) as [->|N]; simpl.
      * intros _. now exists k, info; auto.
      * intros H. destruct (IH H) as (key & i0 & I & E). eauto.
Qed.

(** ** The list of waiting calls *)

Lemma find_task_drop_same tid ts : find_task tid (drop_task tid ts) = None.
Proof.
  unfold drop_task. induction ts as [|[tid0 t0] ts IH]; simpl; auto.
  destruct (Nat.eqb_spec tid tid0) as [->|N]; simpl; auto.
  destruct (Nat.eqb_spec tid tid0); [contradiction|auto].
Qed.

Lemma drop_task_absent tid ts : find_task tid ts = None -> drop_task tid ts = ts.
Proof.
  unfold drop_task. induction ts as [|[tid0 t0] ts IH]; simpl; auto.
  destruct (Nat.eqb_spec tid tid0) as [->|N]; simpl; [discriminate|].
  intros E. now rewrite IH.
Qed.

Lemma find_task_put_same tid next ts :
  find_task tid (put_task tid next ts) = next.
Proof.
  unfold put_task. destruct next as [t|].
  - rewrite find_task_app, find_task_drop_same. simpl.
    now rewrite Nat.eqb_refl.
  - apply find_task_drop_same.
Qed.

Lemma find_task_put_other tid tid0 next ts :
  tid0 <> tid -> find_task tid0 (put_task tid next ts) = find_task tid0 ts.
Proof.
  intros N. unfold put_task. destruct next as [t|].
  - rewrite find_task_app, find_task_drop_other by assumption.
    destruct (find_task tid0 ts); auto. simpl.
    destruct (Nat.eqb_spec tid0 tid); [contradiction|reflexivity].
  - now apply find_task_drop_other.
Qed.

Lemma In_drop_task_other p tid ts : In p (drop_task tid ts) -> fst p <> tid.
Proof.
  unfold drop_task. intros I. apply filter_In in I. destruct I as [_ E].
  destruct (Nat.eqb_spec tid (fst p)); [discriminate|auto].
Qed.

Lemma In_put_task p tid next ts :
  In p (put_task tid next ts) ->
  (In p ts /\ fst p <> tid) \/ (fst p = tid /\ next = Some (snd p)).
Proof.
  unfold put_task. destruct next as [t|].
  - intros I. apply in_app_or in I. destruct I as [I|[<-|[]]].
    + left. split; [now apply In_drop_task in I|].
      now apply In_drop_task_other in I.
    + right. auto.
  - intros I. left. split; [now apply In_drop_task in I|].
    now apply In_drop_task_other in I.
Qed.

Lemma In_put_task_old p tid next ts :
  In p ts -> fst p <> tid -> In p (put_task tid next ts).
Proof.
  intros I N.
  assert (D : In p (drop_task tid ts)).
  { unfold drop_task. apply filter_In. split; auto.
    destruct (Nat.eqb_spec tid (fst p)); [congruence|reflexivity]. }
  unfold put_task. destruct next; auto. apply in_or_app. now left.
Qed.

Lemma In_put_task_new tid t ts : In (tid, t) (put_task tid (Some t) ts).
Proof. unfold put_task. apply in_or_app. right. now left. Qed.

Lemma In_find_task tid t ts :
  NoDup (map fst ts) -> In (tid, t) ts -> find_task tid ts = Some t.
Proof.
  induction ts as [|[tid0 t0] ts IH]; simpl; [tauto|].
  intros ND I. inversion ND as [|? ? NI ND']; subst.
  destruct (Nat.eqb_spec tid tid0) as [->|N].
  - destruct I as [E|I]; [now inversion E|].
    exfalso. apply NI. apply in_map_iff. now exists (tid0, t).
  - destruct I as [E|I]; [inversion E; congruence|auto].
Qed.

Lemma NoDup_put_task tid next ts :
  NoDup (map fst ts) -> NoDup (map fst (put_task tid next ts)).
Proof.
  intros ND.
  assert (D : NoDup (map fst (drop_task tid ts))).
  { unfold drop_task. now apply NoDup_map_filter. }
  unfold put_task. destruct next as [t|]; auto.
  rewrite map_app. apply NoDup_app; auto.
  - repeat constructor. simpl. tauto.
  - intros x I [<-|[]]. apply in_map_iff in I.
    destruct I as (p & E & I). apply In_drop_task_other in I. auto.
Qed.

Lemma added_spec w w' effs :
  effects w' = effects w ++ effs -> added w w' = effs.
Proof.
  unfold added. intros ->. rewrite skipn_app, skipn_all, Nat.sub_diag.
  reflexivity.
Qed.


(** ** One step of the loop, by the call it runs *)

Lemma step_shape w i w' :
  world_ok w -> step w i = Some w' ->
  exists effs,
    effects w' = effects w ++ effs
    /\ match runs_task w i with
       | None =>
           tasks w' = tasks w /\ forall id, instance_cleanups id effs = 0
       | Some tid =>
           exists next,
             tasks w' = put_task tid next (tasks w)
             /\ match next with
                | Some (TSweep k') =>
                    exists keys,
                      sweep_part (manager w') keys effs (SweepAwait k')
                      /\ ((exists now,
                             i = TimerFires now
                             /\ keys = keysToRemove (manager w) now
                             /\ manager w' = manager w)
                          \/ (exists (k : SweepFrame) outcome,
                                i = CleanupSettles tid outcome
                                /\ find_task tid (tasks w) = Some (TSweep k)
                                /\ keys = s_rest k
                                /\ manager w'
                                   = if fulfilled outcome
                                     then with_resources (manager w)
                                            (JsMap.delete (s_key k)
                                               (resources (manager w)))
                                     else manager w))
                | Some (TDestroy pending) =>
                    exists throws,
                      i = CallDestroy throws
                      /\ destroyAllNow_call throws (manager w)
                         = (manager w', effs, DestroyAwait pending)
                | Some (TOrphans started) =>
                    exists throws e,
                      i = CallDestroy throws
                      /\ destroyAllNow_call throws (manager w)
                         = (manager w', effs, DestroyThrown e started)
                | Some (TGet _) =>
                    find_task tid (tasks w) = None
                    /\ forall id, instance_cleanups id effs = 0
                | None =>
                    (forall id, instance_cleanups id effs = 0)
                    /\ forall t,
                         find_task tid (tasks w) = Some t ->
                         cleaner t = true ->
                         (exists (k : SweepFrame) outcome,
                            i = CleanupSettles tid outcome
                            /\ t = TSweep k
                            /\ manager w'
                               = if fulfilled outcome
                                 then with_resources (manager w)
                                        (JsMap.delete (s_key k)
                                           (resources (manager w)))
                                 else manager w)
                         \/ (exists pending,
                               t = TDestroy pending
                               /\ resources (manager w') = [])
                end
       end.
Proof.
  intros O.
  assert (Fr : find_task (nextTask w) (tasks w) = None).
  { apply (find_task_fresh (nextTask w)); auto. apply O. }
  assert (P0 : put_task (nextTask w) None (tasks w) = tasks w).
  { unfold put_task. now apply drop_task_absent. }
  assert (P1 : forall t, put_task (nextTask w) (Some t) (tasks w)
                         = tasks w ++ [(nextTask w, t)]).
  { intros t. unfold put_task. now rewrite drop_task_absent. }
  destruct i as [clock key ty f c|tid clock outcome|clock|tid outcome|
                 throws|tid outcomes|]; simpl.
  - unfold getResource_call.
    destruct (JsMap.get key (resources (manager w))) as [info|];
      intros E; inversion E; subst; simpl;
      (eexists; split; [reflexivity|]).
    + exists None. split; [now rewrite P0|]. split.
      * intros id. now destruct (String.eqb (resourceType info) ty).
      * intros t FT. rewrite Fr in FT. discriminate.
    + eexists (Some (TGet _)). split; [now rewrite P1|]. split; auto.
  - destruct (find_task tid (tasks w)) as [[k| | |]|] eqn:FT;
      try discriminate.
    destruct outcome as [res|e]; intros E; inversion E; subst; simpl;
      (eexists; split; [reflexivity|]); exists None;
      (split; [reflexivity|]); (split; [reflexivity|]);
      intros t E' Cl; inversion E'; subst; discriminate.
  - destruct (cleanupTimer (manager w)); [|discriminate].
    pose proof (call_part (manager w) clock) as P.
    destruct (cleanupInactiveResources_call (manager w) clock)
      as [effs [|k]]; simpl in P;
      intros E; inversion E; subst; simpl;
      (eexists; split; [reflexivity|]).
    + exists None. split; [now rewrite P0|]. split; auto.
      intros t FT. rewrite Fr in FT. discriminate.
    + exists (Some (TSweep k)). split; [now rewrite P1|].
      exists (keysToRemove (manager w) clock). split; auto.
      left. now exists clock.
  - destruct (find_task tid (tasks w)) as [[| k| |]|] eqn:FT;
      try discriminate.
    pose proof (resume_part (manager w) k outcome) as [Em P].
    destruct (cleanupInactiveResources_resume (manager w) k outcome)
      as [[m effs] [|k']]; simpl in Em, P;
      intros E; inversion E; subst; simpl;
      (eexists; split; [reflexivity|]).
    + exists None. split; [reflexivity|]. split; auto.
      intros t E' Cl. inversion E'; subst. left. now exists k, outcome.
    + exists (Some (TSweep k')). split; [reflexivity|].
      exists (s_rest k). split; auto. right. now exists k, outcome.
  - destruct (destroyAllNow_call throws (manager w))
      as [[m effs] [pending|e started]] eqn:D;
      intros E; inversion E; subst; simpl;
      (eexists; split; [reflexivity|]).
    + exists (Some (TDestroy pending)). split; [now rewrite P1|].
      now exists throws.
    + exists (Some (TOrphans started)). split; [now rewrite P1|].
      now exists throws, e.
  - destruct (find_task tid (tasks w)) as [[| |pending|started]|] eqn:FT;
      try discriminate.
    + destruct (Nat.eqb (List.length outcomes) (List.length pending));
        [|discriminate].
      intros E; inversion E; subst; simpl.
      eexists; split; [reflexivity|]. exists None.
      split; [reflexivity|]. split.
      * intros id. apply instance_cleanups_none. intros key info I.
        exfalso. revert I.
        apply (destroy_resume_sound (F:=F) (manager w) pending outcomes).
      * intros t E' Cl. inversion E'; subst. right. now exists pending.
    + destruct (Nat.eqb (List.length outcomes) (List.length started));
        [|discriminate].
      intros E; inversion E; subst; simpl.
      eexists; split; [reflexivity|]. exists None.
      split; [reflexivity|]. split.
      * intros id. apply instance_cleanups_none. intros key info I.
        exfalso. revert I. apply destroy_catch_logs.
      * intros t E' Cl. inversion E'; subst. discriminate.
  - rewrite stopCleanupTimer_spec.
    intros E; inversion E; subst; simpl.
    eexists; split; [reflexivity|]. split; auto.
    intros id. now destruct (cleanupTimer (manager w)).
Qed.


(** ** Worlds as the loop makes them *)

Lemma frame_ok_step w i w' (k : SweepFrame) :
  step w i = Some w' -> frame_ok w k -> frame_ok w' k.
Proof.
  intros St (ND & Lt & K).
  destruct (step_sound _ _ _ St) as (Le & _ & _).
  destruct (step_store_change _ _ _ St) as (Ch & _ & _).
  split; [auto|]. split; [lia|].
  exact (change_key_of _ _ _ _ (fun key => key = s_key k) Ch Lt K).
Qed.

Lemma new_frame_ok w' keys effs (k : SweepFrame) :
  world_ok w' -> NoDup (ids (manager w')) -> NoDup keys ->
  sweep_part (manager w') keys effs (SweepAwait k) -> frame_ok w' k.
Proof.
  intros [Hs _] NI ND (_ & G & before & ->).
  apply get_In in G.
  split; [now apply NoDup_app_remove_l in ND|].
  split; [apply (Hs _ G)|].
  intros kv I E.
  now rewrite (ids_inj _ _ _ NI I G E).
Qed.

Lemma step_well_formed w i w' :
  step w i = Some w' -> well_formed w -> well_formed w'.
Proof.
  intros St (O & U & NI & NT & Fr).
  pose proof (step_world_ok _ _ _ St O) as O'.
  pose proof (step_unique_keys _ _ _ St U) as U'.
  assert (NI' : NoDup (ids (manager w'))).
  { destruct (step_store_change _ _ _ St) as (Ch & _ & _).
    apply (change_ids _ _ _ Ch); auto. intros kv. apply O. }
  destruct (step_shape _ _ _ O St) as (effs & Ef & Sh).
  split; auto. split; auto. split; auto.
  destruct (runs_task w i) as [tid|].
  - destruct Sh as (next & Tk & Sh). rewrite Tk.
    split; [now apply NoDup_put_task|].
    intros tid0 k0 I. apply In_put_task in I.
    destruct I as [[I N]|[E Nx]].
    + apply (frame_ok_step _ _ _ _ St). now apply (Fr tid0).
    + simpl in E, Nx. subst tid0 next. destruct Sh as (keys & P & Src).
      apply (new_frame_ok _ keys effs); auto.
      destruct Src as [(now & _ & -> & _)|(k & outcome & _ & FT & -> & _)].
      * now apply keysToRemove_NoDup.
      * apply find_task_In in FT. apply Fr in FT.
        destruct FT as (ND & _). now inversion ND.
  - destruct Sh as (Tk & _). rewrite Tk. split; auto.
    intros tid0 k0 I. apply (frame_ok_step _ _ _ _ St). now apply (Fr tid0).
Qed.

Lemma run_well_formed (inputs : list (@Input T F C)) : forall w w',
  run w inputs = Some w' -> well_formed w -> well_formed w'.
Proof.
  induction inputs as [|i inputs IH]; intros w w'; simpl.
  - intros E; inversion E; auto.
  - destruct (step w i) as [w1|] eqn:S1; [|discriminate].
    intros E O. apply (IH _ _ E). now apply (step_well_formed _ _ _ S1).
Qed.

Lemma new_world_well_formed (o : option Z) (ci : Z) :
  well_formed (new_world (F:=F) (constructor (T:=T) (F:=F) (C:=C) o ci)).
Proof.
  split; [apply new_world_ok|]. split; [apply constructor_unique_keys|].
  split; [constructor|]. split; [constructor|]. intros tid k [].
Qed.

Lemma step_nextTask w i w' :
  world_ok w -> step w i = Some w' -> nextTask w <= nextTask w'.
Proof.
  intros O St.
  destruct (Nat.le_gt_cases (nextTask w) (nextTask w')) as [L|G]; auto.
  exfalso. revert St G.
  destruct i as [clock key ty f c|tid clock outcome|clock|tid outcome|
                 throws|tid outcomes|]; simpl.
  - destruct (getResource_call (manager w) clock key ty f c)
      as [[m effs] [r|k]]; intros E; inversion E; subst; simpl; lia.
  - destruct (find_task tid (tasks w)) as [[k| | |]|]; try discriminate.
    destruct (getResource_resume (manager w) clock (nextUuid w) k outcome)
      as [[m effs] r].
    intros E; inversion E; subst; simpl; lia.
  - destruct (cleanupTimer (manager w)); [|discriminate].
    destruct (cleanupInactiveResources_call (manager w) clock)
      as [effs st].
    intros E; inversion E; subst; simpl; lia.
  - destruct (find_task tid (tasks w)) as [[| k| |]|]; try discriminate.
    destruct (cleanupInactiveResources_resume (manager w) k outcome)
      as [[m effs] st].
    intros E; inversion E; subst; simpl; lia.
  - destruct (destroyAllNow_call throws (manager w))
      as [[m effs] [pending|e started]];
      intros E; inversion E; subst; simpl; lia.
  - destruct (find_task tid (tasks w)) as [[| |pending|started]|];
      try discriminate.
    + destruct (Nat.eqb (List.length outcomes) (List.length pending));
        [|discriminate].
      intros E; inversion E; subst; simpl; lia.
    + destruct (Nat.eqb (List.length outcomes) (List.length started));
        [|discriminate].
      intros E; inversion E; subst; simpl; lia.
  - destruct (stopCleanupTimer (manager w)) as [m effs].
    intros E; inversion E; subst; simpl; lia.
Qed.

(** ** The calls one sweep or one destroyAllNow makes *)

(** Once the call numbered [tid] has called the cleanup of the entry
    [id], no step makes it call that cleanup again: the keys it has still
    to visit are not the key of that entry. *)
Lemma count_step_after tid id w i w' :
  well_formed w -> id < nextUuid w -> tid < nextTask w ->
  (forall k : SweepFrame,
     find_task tid (tasks w) = Some (TSweep k) ->
     forall kv, In kv (resources (manager w)) ->
                instanceId (snd kv) = id -> ~ In (fst kv) (s_rest k)) ->
  step w i = Some w' ->
  match runs_task w i with
  | Some tid' =>
      if Nat.eqb tid' tid then instance_cleanups id (added w w') else 0
  | None => 0
  end = 0
  /\ forall k : SweepFrame,
       find_task tid (tasks w') = Some (TSweep k) ->
       forall kv, In kv (resources (manager w')) ->
                  instanceId (snd kv) = id -> ~ In (fst kv) (s_rest k).
Proof.
  intros (O & U & NI & NT & Fr) Lt Ltt B St.
  destruct (step_shape _ _ _ O St) as (effs & Ef & Sh).
  rewrite (added_spec _ _ _ Ef).
  destruct (step_store_change _ _ _ St) as (Ch & _ & _).
  assert (Keep : forall k : SweepFrame,
            find_task tid (tasks w) = Some (TSweep k) ->
            forall kv, In kv (resources (manager w')) ->
                       instanceId (snd kv) = id -> ~ In (fst kv) (s_rest k)).
  { intros k FT.
    exact (change_key_of _ _ _ _ (fun key => ~ In key (s_rest k)) Ch Lt
             (B k FT)). }
  destruct (runs_task w i) as [tid'|] eqn:RT.
  - destruct Sh as (next & Tk & Sh).
    destruct (Nat.eqb_spec tid' tid) as [->|N].
    + destruct next as [[kg|k'|pending|started]|].
      * destruct Sh as [_ Z]. split; [apply Z|].
        intros k FT. rewrite Tk, find_task_put_same in FT. discriminate.
      * destruct Sh as (keys & (Cn & G & before & Eq) & Src).
        destruct Src as [(now & -> & _)|(k & outcome & -> & FT & -> & Em)].
        { simpl in RT. inversion RT. lia. }
        assert (NotId : instanceId (s_info k') <> id).
        { intros E. apply get_In in G.
          apply (Keep k FT _ G E). simpl. rewrite Eq.
          apply in_or_app. right. now left. }
        split.
        -- rewrite Cn.
           destruct (Nat.eqb_spec id (instanceId (s_info k')));
             [congruence|reflexivity].
        -- intros k2 FT2. rewrite Tk, find_task_put_same in FT2.
           inversion FT2; subst k2.
           intros kv I E In'. apply (Keep k FT kv I E). rewrite Eq.
           apply in_or_app. right. now right.
      * destruct Sh as (throws & -> & _). simpl in RT. inversion RT. lia.
      * destruct Sh as (throws & e & -> & _). simpl in RT.
        inversion RT. lia.
      * destruct Sh as [Z _]. split; [apply Z|].
        intros k FT. rewrite Tk, find_task_put_same in FT. discriminate.
    + split; [reflexivity|]. intros k FT.
      rewrite Tk, find_task_put_other in FT by auto. now apply Keep.
  - destruct Sh as (Tk & _). split; auto.
    intros k FT. rewrite Tk in FT. now apply Keep.
Qed.

(** One step makes the call numbered [tid] call the cleanup of the entry
    [id] at most once, and where it does, the state above is reached. *)
Lemma count_step_first tid id w i w' :
  well_formed w -> step w i = Some w' ->
  match runs_task w i with
  | Some tid' =>
      if Nat.eqb tid' tid then instance_cleanups id (added w w') else 0
  | None => 0
  end <= 1
  /\ (match runs_task w i with
      | Some tid' =>
          if Nat.eqb tid' tid then instance_cleanups id (added w w') else 0
      | None => 0
      end = 1 ->
      id < nextUuid w' /\ tid < nextTask w'
      /\ forall k : SweepFrame,
           find_task tid (tasks w') = Some (TSweep k) ->
           forall kv, In kv (resources (manager w')) ->
                      instanceId (snd kv) = id -> ~ In (fst kv) (s_rest k)).
Proof.
  intros WF St.
  pose proof (step_well_formed _ _ _ St WF) as (O' & U' & NI' & NT' & Fr').
  destruct WF as (O & U & NI & NT & Fr).
  destruct (step_shape _ _ _ O St) as (effs & Ef & Sh).
  rewrite (added_spec _ _ _ Ef).
  destruct (step_sound _ _ _ St) as (Le & _ & _).
  destruct (runs_task w i) as [tid'|] eqn:RT; [|split; [lia|discriminate]].
  destruct Sh as (next & Tk & Sh).
  destruct (Nat.eqb_spec tid' tid) as [->|N]; [|split; [lia|discriminate]].
  assert (Has : forall t, next = Some t -> tid < nextTask w').
  { intros t ->. destruct O' as [_ Ft].
    apply (Ft (tid, t)). rewrite Tk. apply In_put_task_new. }
  destruct next as [[kg|k'|pending|started]|].
  - destruct Sh as [_ Z]. rewrite Z. split; [lia|discriminate].
  - destruct Sh as (keys & (Cn & G & before & Eq) & _).
    rewrite Cn.
    destruct (Nat.eqb_spec id (instanceId (s_info k'))) as [->|N];
      [|split; [lia|discriminate]].
    split; [lia|]. intros _.
    assert (I : In (tid, TSweep k') (tasks w')).
    { rewrite Tk. apply In_put_task_new. }
    destruct (Fr' _ _ I) as (ND & Lt & K).
    split; auto. split; [now apply (Has (TSweep k'))|].
    intros k2 FT2. rewrite Tk, find_task_put_same in FT2.
    inversion FT2; subst k2.
    intros kv I' E In'. rewrite (K kv I' E) in In'.
    now inversion ND.
  - destruct Sh as (throws & -> & D).
    assert (Ef' : effs = snd (fst (destroyAllNow_call throws (manager w))))
      by now rewrite D.
    split; [rewrite Ef'; now apply destroy_call_count|].
    intros One.
    destruct (instance_cleanups_pos id effs) as (key & info & I & E);
      [lia|].
    rewrite Ef' in I. apply In_destroy_call in I.
    destruct O as [Hs _]. apply Hs in I. simpl in I.
    split; [lia|]. split; [now apply (Has (TDestroy pending))|].
    intros k FT. rewrite Tk, find_task_put_same in FT. discriminate.
  - destruct Sh as (throws & e & -> & D).
    assert (Ef' : effs = snd (fst (destroyAllNow_call throws (manager w))))
      by now rewrite D.
    split; [rewrite Ef'; now apply destroy_call_count|].
    intros One.
    destruct (instance_cleanups_pos id effs) as (key & info & I & E);
      [lia|].
    rewrite Ef' in I. apply In_destroy_call in I.
    destruct O as [Hs _]. apply Hs in I. simpl in I.
    split; [lia|]. split; [now apply (Has (TOrphans started))|].
    intros k FT. rewrite Tk, find_task_put_same in FT. discriminate.
  - destruct Sh as [Z _]. rewrite Z. split; [lia|discriminate].
Qed.

Lemma count_after tid id (inputs : list (@Input T F C)) : forall w,
  well_formed w -> id < nextUuid w -> tid < nextTask w ->
  (forall k : SweepFrame,
     find_task tid (tasks w) = Some (TSweep k) ->
     forall kv, In kv (resources (manager w)) ->
                instanceId (snd kv) = id -> ~ In (fst kv) (s_rest k)) ->
  task_cleanups tid id w inputs = 0.
Proof.
  induction inputs as [|i inputs IH]; intros w WF Lt Ltt B; simpl; auto.
  destruct (step w i) as [w'|] eqn:St; auto.
  destruct (count_step_after tid id w i w' WF Lt Ltt B St) as [Z B'].
  rewrite Z. simpl. apply IH; auto.
  - now apply (step_well_formed _ _ _ St).
  - destruct (step_sound _ _ _ St) as (Le & _ & _). lia.
  - pose proof (step_nextTask _ _ _ (proj1 WF) St). lia.
Qed.

Lemma count_first tid id (inputs : list (@Input T F C)) : forall w,
  well_formed w -> task_cleanups tid id w inputs <= 1.
Proof.
  induction inputs as [|i inputs IH]; intros w WF; simpl; [lia|].
  destruct (step w i) as [w'|] eqn:St; [|lia].
  destruct (count_step_first tid id w i w' WF St) as [Le B'].
  pose proof (step_well_formed _ _ _ St WF) as WF'.
  match goal with
  | |- ?c + _ <= 1 => destruct (Nat.eq_dec c 1) as [One|NotOne]
  end.
  - destruct (B' One) as (Lt & Ltt & B).
    rewrite (count_after tid id inputs w' WF' Lt Ltt B). lia.
  - specialize (IH w' WF'). lia.
Qed.


(** ** A cleanup that fulfils, a shutdown that completes *)

Lemma In_delete_other kv key r : In kv (JsMap.delete key r) -> fst kv <> key.
Proof.
  intros I E. pose proof (get_delete_same key r) as G.
  apply get_None_keys in G. apply G. unfold JsMap.keys.
  apply in_map_iff. now exists kv.
Qed.

(** The entry a sweep found under the key it deletes is then out of the
    store. *)
Lemma frame_entry_deleted w (k : SweepFrame) :
  frame_ok w k ->
  ~ stored (instanceId (s_info k))
      (with_resources (manager w)
         (JsMap.delete (s_key k) (resources (manager w)))).
Proof.
  intros (_ & _ & K) (kv & I & E). simpl in I.
  apply (In_delete_other _ _ _ I). apply In_delete in I. now apply K.
Qed.

Lemma fulfilled_cleanup_ends_the_entry w tid (k : SweepFrame) :
  well_formed w -> find_task tid (tasks w) = Some (TSweep k) ->
  exists w',
    step w (CleanupSettles tid (Fulfilled tt)) = Some w'
    /\ gone w' (instanceId (s_info k))
    /\ JsMap.get (s_key k) (resources (manager w')) = None.
Proof.
  intros (O & U & NI & NT & Fr) FT.
  pose proof (Fr tid k (find_task_In _ _ _ FT)) as FO.
  pose proof (frame_entry_deleted w k FO) as NS.
  destruct FO as (_ & Lt & _).
  simpl. rewrite FT.
  pose proof (resume_part (manager w) k (Fulfilled tt)) as [Em _].
  destruct (cleanupInactiveResources_resume (manager w) k (Fulfilled tt))
    as [[m effs] st].
  simpl in Em. subst m.
  eexists. split; [reflexivity|]. simpl. split; [split; auto|].
  apply get_delete_same.
Qed.

Lemma completed_shutdown_ends_every_entry w tid
    (pending : list (string * @ResourceInfo T C))
    (outcomes : list (Settled unit)) :
  find_task tid (tasks w) = Some (TDestroy pending) ->
  List.length outcomes = List.length pending ->
  exists w',
    step w (AllSettle tid outcomes) = Some w'
    /\ resources (manager w') = []
    /\ forall id, id < nextUuid w -> gone w' id.
Proof.
  intros FT Len. simpl. rewrite FT, Len, Nat.eqb_refl.
  eexists. split; [reflexivity|]. simpl. split; auto.
  intros id Lt. split; auto. intros (kv & [] & _).
Qed.

(** ** Runs without overlap and without failure *)

Lemma no_cleaner w p :
  cleaner_waiting w = false -> In p (tasks w) -> cleaner (snd p) = false.
Proof.
  unfold cleaner_waiting. intros E I.
  destruct (cleaner (snd p)) eqn:Cl; auto.
  rewrite <- E. symmetry. apply existsb_exists. now exists p.
Qed.

Lemma awaited_cleaner w id :
  awaited w id ->
  exists p, In p (tasks w) /\ cleaner (snd p) = true
            /\ match snd p with
               | TSweep k => instanceId (s_info k) = id
               | TDestroy _ => True
               | _ => False
               end.
Proof.
  intros (tid & t & I & M). exists (tid, t). split; auto. split; auto.
  simpl. now destruct t.
Qed.

Lemma cleaned_once_new (m : @ResourceManager T C) :
  cleaned_once (new_world (F:=F) m).
Proof.
  split; [intros id; cbv; lia|]. split; [reflexivity|].
  split; [discriminate|]. intros p p' [].
Qed.

Lemma orderly_step w i w' :
  well_formed w -> cleaned_once w -> allowed w i -> step w i = Some w' ->
  cleaned_once w'.
Proof.
  intros WF (C1 & C2 & C3 & C4) Al St.
  pose proof (step_well_formed _ _ _ St WF) as (O' & U' & NI' & NT' & Fr').
  destruct WF as (O & U & NI & NT & Fr).
  destruct (step_shape _ _ _ O St) as (effs & Ef & Sh).
  destruct (step_sound _ _ _ St) as (Le & (effs0 & Ef0 & Cs) & Kp).
  assert (effs0 = effs) by (rewrite Ef in Ef0; now apply app_inv_head in Ef0).
  subst effs0.
  assert (Old : forall id, stored id (manager w') ->
                instance_cleanups id (effects w) = 1 ->
                stored id (manager w)).
  { intros id (kv & I & E) One.
    destruct (Kp kv I) as [(kv0 & I0 & E0)|[E0 _]].
    - exists kv0. split; auto. congruence.
    - rewrite C2 in One; [discriminate|lia]. }
  assert (Quiet : (forall id, instance_cleanups id effs = 0) ->
            (forall id, instance_cleanups id (effects w') <= 1)
            /\ (forall id, nextUuid w' <= id ->
                           instance_cleanups id (effects w') = 0)).
  { intros Z. split; intros id.
    - rewrite Ef, instance_cleanups_app, Z. specialize (C1 id). lia.
    - intros L. rewrite Ef, instance_cleanups_app, Z, C2; [reflexivity|lia]. }
  assert (Calls' : forall id,
            instance_cleanups id (effects w')
            = instance_cleanups id (effects w) + instance_cleanups id effs).
  { intros id. now rewrite Ef, instance_cleanups_app. }
  assert (Idle : cleaner_waiting w = false ->
            forall id, stored id (manager w) ->
                       instance_cleanups id (effects w) = 0).
  { intros NC id S0. specialize (C1 id).
    destruct (Nat.eq_dec (instance_cleanups id (effects w)) 1) as [One|N];
      [|lia].
    destruct (awaited_cleaner _ _ (C3 id One S0)) as (p & I & Cl & _).
    rewrite (no_cleaner _ _ NC I) in Cl. discriminate. }
  destruct (runs_task w i) as [tid|] eqn:RT.
  2:{ destruct Sh as (Tk & Z). destruct (Quiet Z) as [C1' C2'].
      split; auto. split; auto. rewrite Tk. split.
      - intros id One S'. rewrite Calls', Z, Nat.add_0_r in One.
        destruct (C3 id One (Old id S' One)) as (tid1 & t1 & I1 & M1).
        exists tid1, t1. rewrite Tk. auto.
      - exact C4. }
  destruct Sh as (next & Tk & Sh).
  assert (Sole : forall p, In p (tasks w) -> cleaner (snd p) = true ->
            forall t, find_task tid (tasks w) = Some t -> cleaner t = true ->
                      p = (tid, t)).
  { intros p I Cl t FT Clt. apply (C4 p (tid, t)); auto.
    now apply find_task_In. }
  destruct next as [[kg|k'|pending|started]|].
  - (* a call of getResource waits *)
    destruct Sh as [FT Z]. destruct (Quiet Z) as [C1' C2'].
    split; auto. split; auto. split.
    + intros id One S'. rewrite Calls', Z, Nat.add_0_r in One.
      destruct (C3 id One (Old id S' One)) as (tid1 & t1 & I1 & M1).
      exists tid1, t1. split; auto. rewrite Tk.
      apply In_put_task_old; auto. simpl. intros ->.
      rewrite (In_find_task _ _ _ NT I1) in FT. discriminate.
    + intros p p' I I' Cl Cl'. rewrite Tk in I, I'.
      apply In_put_task in I. apply In_put_task in I'.
      destruct I as [[I _]|[_ E]]; [|inversion E as [E1]; rewrite <- E1 in Cl;
                                     discriminate].
      destruct I' as [[I' _]|[_ E]]; [|inversion E as [E1];
                                       rewrite <- E1 in Cl'; discriminate].
      now apply C4.
  - (* a sweep waits *)
    destruct Sh as (keys & (Cn & G & before & Eq) & Src).
    apply get_In in G.
    assert (Inew : In (tid, TSweep k') (tasks w')).
    { rewrite Tk. apply In_put_task_new. }
    destruct (Fr' _ _ Inew) as (ND' & Lt' & K').
    assert (Gone : forall id,
              instance_cleanups id (effects w) = 1 ->
              stored id (manager w') -> False).
    { intros id One S'.
      destruct (awaited_cleaner _ _ (C3 id One (Old id S' One)))
        as (p & I & Cl & M).
      destruct Src as [(now & -> & _ & _)|(k & outcome & -> & FT & _ & Em)].
      - simpl in Al. rewrite (no_cleaner _ _ Al I) in Cl.
        discriminate.
      - simpl in Al.
        rewrite (Sole p I Cl (TSweep k) FT eq_refl) in M. simpl in M.
        rewrite Al in Em. rewrite Em, <- M in S'.
        revert S'. apply frame_entry_deleted.
        apply (Fr tid). now apply find_task_In. }
    assert (Zero : instance_cleanups (instanceId (s_info k')) (effects w) = 0).
    { specialize (C1 (instanceId (s_info k'))).
      destruct (Nat.eq_dec
                  (instance_cleanups (instanceId (s_info k')) (effects w)) 1)
        as [One|N]; [|lia].
      exfalso. apply (Gone _ One). now exists (s_key k', s_info k'). }
    split; [|split; [|split]].
    + intros id. rewrite Calls', Cn.
      destruct (Nat.eqb_spec id (instanceId (s_info k'))) as [->|N].
      * rewrite Zero. lia.
      * specialize (C1 id). lia.
    + intros id L. rewrite Calls', Cn, C2 by lia.
      destruct (Nat.eqb_spec id (instanceId (s_info k'))); [lia|reflexivity].
    + intros id One S'. rewrite Calls', Cn in One.
      destruct (Nat.eqb_spec id (instanceId (s_info k'))) as [E|N].
      * exists tid, (TSweep k'). split; auto.
      * exfalso. apply (Gone id); auto. lia.
    + assert (New : forall p, In p (tasks w') -> cleaner (snd p) = true ->
                              p = (tid, TSweep k')).
      { intros p I Cl. rewrite Tk in I. apply In_put_task in I.
        destruct I as [[I N]|[E1 E2]].
        - exfalso.
          destruct Src as [(now & -> & _ & _)|(k & outcome & -> & FT & _)].
          + simpl in Al. rewrite (no_cleaner _ _ Al I) in Cl.
            discriminate.
          + rewrite (Sole p I Cl (TSweep k) FT eq_refl) in N. now apply N.
        - destruct p as [tid0 t0]. simpl in *. inversion E2. congruence. }
      intros p p' I I' Cl Cl'.
      now rewrite (New p I Cl), (New p' I' Cl').
  - (* a call of destroyAllNow waits *)
    destruct Sh as (throws & -> & D). destruct Al as [NC Q].
    assert (Ef' : effs = snd (fst (destroyAllNow_call throws (manager w))))
      by now rewrite D.
    assert (St' : forall id, instance_cleanups id effs <> 0 ->
                             stored id (manager w)).
    { intros id N.
      destruct (instance_cleanups_pos id effs N) as (key & info & I & E).
      rewrite Ef' in I. apply In_destroy_call in I.
      now exists (key, info). }
    assert (Le1 : forall id, instance_cleanups id effs <= 1).
    { intros id. rewrite Ef'. now apply destroy_call_count. }
    split; [|split; [|split]].
    + intros id. rewrite Calls'. specialize (Le1 id).
      destruct (Nat.eq_dec (instance_cleanups id effs) 0) as [Z|N].
      * specialize (C1 id). lia.
      * rewrite (Idle NC id (St' id N)). lia.
    + intros id L. rewrite Calls', C2 by lia.
      destruct (Nat.eq_dec (instance_cleanups id effs) 0) as [Z|N]; auto.
      exfalso. destruct (St' id N) as (kv & I & E).
      destruct O as [Hs _]. apply Hs in I. lia.
    + intros id _ _. exists tid, (TDestroy pending). split; auto.
      rewrite Tk. apply In_put_task_new.
    + assert (New : forall p, In p (tasks w') -> cleaner (snd p) = true ->
                              p = (tid, TDestroy pending)).
      { intros p I Cl. rewrite Tk in I. apply In_put_task in I.
        destruct I as [[I N]|[E1 E2]].
        - rewrite (no_cleaner _ _ NC I) in Cl. discriminate.
        - destruct p as [tid0 t0]. simpl in *. inversion E2. congruence. }
      intros p p' I I' Cl Cl'.
      now rewrite (New p I Cl), (New p' I' Cl').
  - (* no cleanup function throws in such a run *)
    destruct Sh as (throws & e & -> & D). destruct Al as [_ Q].
    rewrite (destroyAllNow_call_quiet _ _ Q) in D. discriminate.
  - (* the call has ended *)
    destruct Sh as [Z End]. destruct (Quiet Z) as [C1' C2'].
    split; auto. split; auto. split.
    + intros id One S'. rewrite Calls', Z, Nat.add_0_r in One.
      destruct (C3 id One (Old id S' One)) as (tid1 & t1 & I1 & M1).
      destruct (Nat.eq_dec tid1 tid) as [->|N].
      * exfalso. pose proof (In_find_task _ _ _ NT I1) as FT.
        assert (Cl : cleaner t1 = true) by now destruct t1.
        destruct (End t1 FT Cl)
          as [(k & outcome & -> & -> & Em)|(pending & -> & R)].
        -- simpl in Al. rewrite Al in Em. rewrite Em, <- M1 in S'.
           revert S'. apply frame_entry_deleted. now apply (Fr tid).
        -- destruct S' as (kv & I & _). rewrite R in I. destruct I.
      * exists tid1, t1. split; auto. rewrite Tk.
        now apply In_put_task_old.
    + intros p p' I I' Cl Cl'. rewrite Tk in I, I'.
      apply In_put_task in I. apply In_put_task in I'.
      destruct I as [[I _]|[_ E]]; [|discriminate].
      destruct I' as [[I' _]|[_ E]]; [|discriminate].
      now apply C4.
Qed.

Lemma orderly_run (inputs : list (@Input T F C)) : forall w w',
  well_formed w -> cleaned_once w -> orderly w inputs ->
  run w inputs = Some w' -> cleaned_once w'.
Proof.
  induction inputs as [|i inputs IH]; intros w w' WF CO; simpl.
  - intros _ E. now inversion E; subst.
  - destruct (step w i) as [w1|] eqn:S1; [|discriminate].
    intros [Al Or] R. apply (IH w1 w'); auto.
    + now apply (step_well_formed _ _ _ S1).
    + now apply (orderly_step _ _ _ WF CO Al S1).
Qed.


(** ** The statements *)

(** C2, as the code has it.  Over any run of the event loop from a new
    manager on:
    - a cleanup function is called only for an entry that is in the store
      at that moment;
    - an entry that has left the store stays out, and its cleanup is
      never called again;
    - one sweep, and one call of [destroyAllNow], calls the cleanup of an
      entry at most once;
    - when the cleanup a sweep awaits fulfils, the entry the sweep called
      it for is out of the store from then on, and when the promises a
      call of [destroyAllNow] awaits have settled, every entry is;
    - in a run where no cleanup awaited by a sweep rejects, no cleanup
      function throws, and no sweep or [destroyAllNow] starts while
      another one waits, the cleanup of an entry is called at most once
      altogether.
    (A sweep keeps an entry whose cleanup failed, and the next sweep or
    shutdown calls that cleanup again; sweeps and shutdowns that overlap
    each call it.) *)
Theorem C2_cleanup_calls_of_an_entry
    (o : option Z) (ci : Z) (inputs : list (@Input T F C)) w :
  run (new_world (constructor (F:=F) o ci)) inputs = Some w ->
  (forall w0 i w1,
     step w0 i = Some w1 ->
     forall key info,
       In (CallCleanup key info) (added w0 w1) ->
       In (key, info) (resources (manager w0)))
  /\ (forall id (inputs' : list (@Input T F C)) w',
        gone w id -> run w inputs' = Some w' ->
        gone w' id /\ instance_cleanups id (added w w') = 0)
  /\ (forall tid id,
        task_cleanups tid id (new_world (constructor (F:=F) o ci)) inputs
        <= 1)
  /\ (forall tid (k : SweepFrame),
        find_task tid (tasks w) = Some (TSweep k) ->
        exists w',
          step w (CleanupSettles tid (Fulfilled tt)) = Some w'
          /\ gone w' (instanceId (s_info k)))
  /\ (forall tid (pending : list (string * @ResourceInfo T C))
        (outcomes : list (Settled unit)),
        find_task tid (tasks w) = Some (TDestroy pending) ->
        List.length outcomes = List.length pending ->
        exists w',
          step w (AllSettle tid outcomes) = Some w'
          /\ resources (manager w') = []
          /\ forall id, id < nextUuid w -> gone w' id)
  /\ (orderly (new_world (constructor (F:=F) o ci)) inputs ->
      forall id, instance_cleanups id (effects w) <= 1).
Proof.
  intros R.
  pose proof (run_well_formed _ _ _ R (new_world_well_formed o ci)) as WF.
  split; [|split; [|split; [|split; [|split]]]].
  - intros w0 i w1 St key info I.
    destruct (step_sound _ _ _ St) as (_ & (effs & Ef & Cs) & _).
    rewrite (added_spec _ _ _ Ef) in I. now apply Cs.
  - intros id inputs' w' G R'.
    destruct (run_gone _ _ _ _ R' G) as (G' & effs & Ef & Z).
    split; auto. now rewrite (added_spec _ _ _ Ef).
  - intros tid id. apply count_first. apply new_world_well_formed.
  - intros tid k FT.
    destruct (fulfilled_cleanup_ends_the_entry w tid k WF FT)
      as (w' & St & G & _).
    now exists w'.
  - intros tid pending outcomes FT Len.
    exact (completed_shutdown_ends_every_entry w tid pending outcomes FT
             Len).
  - intros Or.
    apply (orderly_run inputs _ w (new_world_well_formed o ci)
             (cleaned_once_new _) Or R).
Qed.

(** The rest of a sweep leaves alone an entry that the second check finds
    not inactive: the part that runs when the awaited cleanup settles
    calls no cleanup for its key and keeps it. *)
Lemma resume_spares m (k : SweepFrame) (outcome : Settled unit) key info :
  JsMap.get key (resources m) = Some info ->
  inactive m (s_now k) info = false ->
  s_key k <> key ->
  cleanup_calls key (snd (fst (cleanupInactiveResources_resume m k outcome)))
  = 0
  /\ JsMap.get key
       (resources (fst (fst (cleanupInactiveResources_resume m k outcome))))
     = Some info.
Proof.
  intros G I N.
  destruct (sweep_rest_spares (F:=F) (fun _ _ => outcome) m k outcome
              key info G I N) as [Z _].
  destruct (sweep_rest_drive (F:=F) (fun _ _ => outcome) m k outcome)
    as (tail & _ & E).
  rewrite E, cleanup_calls_app in Z.
  split; [lia|].
  destruct (resume_part m k outcome) as [-> _].
  destruct (fulfilled outcome); auto.
  simpl. now rewrite get_delete_other.
Qed.


End CleanupCounts.

Section SweepAndGetExtras.
Context {T F C : Type}.
Import JsMapFacts.

Local Abbreviation sweep_loop := (@sweep_loop T F C).
Local Abbreviation sweep_all := (@sweep_all T F C).
Local Abbreviation sweep_finish := (@sweep_finish T F C).
Local Abbreviation cleanupInactiveResources :=
  (@cleanupInactiveResources T F C).
Local Abbreviation cleanupInactiveResources_resume :=
  (@cleanupInactiveResources_resume T F C).
Local Abbreviation getResource_call := (@getResource_call T F C).
Local Abbreviation getResource := (@getResource T F C).

Implicit Types (m : @ResourceManager T C) (info : @ResourceInfo T C).
Implicit Types (effs : list (@Effect T F C)).
Implicit Types (oracle : @CleanupOracle T C).
Implicit Types (key : string) (keys : list string) (now clock : Z).

(** The count the loop ends with is the count it started with plus the
    number of entries that left the map. *)
Lemma sweep_all_count oracle keys : forall m now c,
  unique_keys m ->
  exists before c',
    snd (sweep_all oracle m now c keys) = before ++ sweep_finish c'
    /\ c' + JsMap.size (resources (fst (sweep_all oracle m now c keys)))
       = c + JsMap.size (resources m).
Proof.
  unfold unique_keys, JsMap.size.
  induction keys as [|k0 rest IH]; intros m now c U; simpl.
  - exists [], c. auto.
  - destruct (sweep_check m now k0) as [info0|] eqn:SC; [|now apply IH].
    apply sweep_check_Some in SC. destruct SC as [G0 _].
    destruct (sweep_settle_spec (F:=F) m k0 info0 c (oracle k0 info0))
      as (effs & -> & _).
    destruct (IH (if fulfilled (oracle k0 info0)
                  then with_resources m (JsMap.delete k0 (resources m))
                  else m) now
                 (if fulfilled (oracle k0 info0) then S c else c))
      as (before & c' & E & N).
    { destruct (fulfilled (oracle k0 info0)); auto. simpl.
      now apply NoDup_keys_delete. }
    destruct (sweep_all oracle _ now _ rest) as [m'' effs'].
    simpl in *. subst effs'.
    exists (sweep_invoke k0 info0 ++ effs ++ before), c'. split.
    + simpl. now rewrite <- app_assoc.
    + rewrite N. destruct (fulfilled (oracle k0 info0)); auto. simpl.
      pose proof (length_delete_present k0 (resources m) info0 U G0). lia.
Qed.


Lemma filter_all {A : Type} (p : A -> bool) (l : list A) :
  (forall x, In x l -> p x = true) -> filter p l = l.
Proof.
  induction l as [|a l IH]; simpl; auto.
  intros H. rewrite (H a) by now left. f_equal. apply IH.
  intros x I. apply H. now right.
Qed.

Lemma filter_twice {A : Type} (p q : A -> bool) (l : list A) :
  filter p (filter q l) = filter (fun x => q x && p x) l.
Proof.
  induction l as [|a l IH]; simpl; auto.
  destruct (q a); simpl; [destruct (p a)|]; congruence.
Qed.

(** When every cleanup fulfils, the loop removes from the map the
    entries that are listed and inactive, and keeps the others in their
    order. *)
Lemma sweep_all_filter oracle keys :
  (forall key info, fulfilled (oracle key info) = true) ->
  forall m now c,
  unique_keys m ->
  resources (fst (sweep_all oracle m now c keys))
  = filter (fun kv => negb (existsb (String.eqb (fst kv)) keys
                            && inactive m now (snd kv)))
      (resources m).
Proof.
  intros Ok. unfold unique_keys.
  induction keys as [|k0 rest IH]; intros m now c U; simpl.
  - symmetry. apply filter_all. reflexivity.
  - destruct (sweep_check m now k0) as [info0|] eqn:SC.
    + apply sweep_check_Some in SC. destruct SC as [G0 I0].
      destruct (sweep_settle_spec (F:=F) m k0 info0 c (oracle k0 info0))
        as (effs & -> & _).
      rewrite Ok.
      specialize (IH (with_resources m (JsMap.delete k0 (resources m)))
                     now (S c) (NoDup_keys_delete _ _ U)).
      destruct (sweep_all oracle _ now _ rest) as [m'' effs'].
      simpl fst in *. rewrite IH. simpl resources.
      rewrite delete_filter, filter_twice.
      apply filter_ext_in. intros [k v] I. simpl.
      change (inactive (with_resources m (JsMap.delete k0 (resources m)))
                now v) with (inactive m now v).
      destruct (String.eqb_spec k0 k) as [<-|N].
      * rewrite String.eqb_refl. simpl.
        assert (v = info0) by (apply In_get in I; congruence).
        subst v. now rewrite I0.
      * destruct (String.eqb_spec k k0); [congruence|]. reflexivity.
    + rewrite IH by assumption.
      apply filter_ext_in. intros [k v] I. simpl.
      destruct (String.eqb_spec k k0) as [->|N]; simpl; auto.
      apply In_get in I; auto. unfold sweep_check in SC. rewrite I in SC.
      destruct (inactive m now v); [discriminate|].
      now rewrite andb_false_r.
Qed.

(** X6.  With cleanup functions that always fulfil (the one [index.ts]
    passes does nothing and fulfils), a sweep run with no other call in
    between leaves in the store the entries that are not inactive, in
    their order, and nothing else; timer and interval are as before. *)
Theorem sweep_with_fulfilling_cleanups_keeps_the_active_entries
    oracle m now :
  unique_keys m ->
  (forall key info, fulfilled (oracle key info) = true) ->
  resources (fst (cleanupInactiveResources oracle m now))
  = filter (fun kv => negb (inactive m now (snd kv))) (resources m)
  /\ cleanupIntervalMs (fst (cleanupInactiveResources oracle m now))
     = cleanupIntervalMs m
  /\ cleanupTimer (fst (cleanupInactiveResources oracle m now))
     = cleanupTimer m.
Proof.
  intros U Ok. rewrite sweep_fst. split.
  - rewrite (sweep_all_filter oracle _ Ok) by assumption.
    apply filter_ext_in. intros [k v] I. simpl.
    destruct (inactive m now v) eqn:A; [|now rewrite andb_false_r].
    assert (E : existsb (String.eqb k) (keysToRemove m now) = true).
    { apply existsb_eqb_In, keysToRemove_spec. now exists v. }
    now rewrite E.
  - generalize (keysToRemove m now) 0. intros keys c. revert m c U.
    induction keys as [|k0 rest IH]; intros m c U; simpl; auto.
    destruct (sweep_check m now k0) as [info0|]; [|now apply IH].
    destruct (sweep_settle_spec (F:=F) m k0 info0 c (oracle k0 info0))
      as (effs & -> & _).
    rewrite Ok.
    specialize (IH (with_resources m (JsMap.delete k0 (resources m)))
                   (S c) (NoDup_keys_delete _ _ U)).
    destruct (sweep_all oracle _ now _ rest) as [m'' effs'].
    exact IH.
Qed.

(** X7.  A key that is not in the store is created and then reused: when
    the factory fulfils, the resource is returned and stored under the
    key with the identifier drawn, the clock value, the type label and
    the cleanup function of the call, the other keys are as before, and
    the next call for the key, whatever it passes and however its
    factory would settle, returns that same resource without a call of
    a factory. *)
Theorem created_resource_is_stored_and_reused
    m clock clock' uuid key ty (f : F) (c : C) (res : T)
    clock2 clock2' uuid2 ty2 (f2 : F) (c2 : C) (outcome2 : Settled T) :
  JsMap.get key (resources m) = None ->
  snd (getResource m clock clock' uuid key ty f c (Fulfilled res))
  = Fulfilled res
  /\ JsMap.get key
       (resources
          (fst (fst (getResource m clock clock' uuid key ty f c
                       (Fulfilled res)))))
     = Some {| resource := res; lastUsed := clock'; instanceId := uuid;
               resourceType := ty; cacheKey := key; cleanupFn := c |}
  /\ (forall key', key <> key' ->
        JsMap.get key'
          (resources
             (fst (fst (getResource m clock clock' uuid key ty f c
                          (Fulfilled res)))))
        = JsMap.get key' (resources m))
  /\ factory_calls
       (snd (fst (getResource m clock clock' uuid key ty f c
                    (Fulfilled res)))) = 1
  /\ snd (getResource
            (fst (fst (getResource m clock clock' uuid key ty f c
                         (Fulfilled res))))
            clock2 clock2' uuid2 key ty2 f2 c2 outcome2)
     = Fulfilled res
  /\ factory_calls
       (snd (fst (getResource
                    (fst (fst (getResource m clock clock' uuid key ty f c
                                 (Fulfilled res))))
                    clock2 clock2' uuid2 key ty2 f2 c2 outcome2))) = 0.
Proof.
  intros G.
  assert (E : getResource m clock clock' uuid key ty f c (Fulfilled res)
              = (with_resources m
                   (JsMap.set key
                      {| resource := res; lastUsed := clock';
                         instanceId := uuid; resourceType := ty;
                         cacheKey := key; cleanupFn := c |}
                      (resources m)),
                 [Log (CreatingNew ty key); CallFactory f key;
                  Log (CreatedResource ty uuid)],
                 Fulfilled res)).
  { unfold getResource, getResource_call. now rewrite G. }
  rewrite E. simpl fst. simpl snd.
  assert (H : forall X, getResource
                (with_resources m
                   (JsMap.set key
                      {| resource := res; lastUsed := clock';
                         instanceId := uuid; resourceType := ty;
                         cacheKey := key; cleanupFn := c |}
                      (resources m)))
                clock2 clock2' uuid2 key ty2 f2 c2 outcome2 = X ->
              snd X = Fulfilled res /\ factory_calls (snd (fst X)) = 0).
  { intros X <-. unfold getResource, getResource_call. simpl resources.
    rewrite get_set_same. simpl. split; auto.
    unfold factory_calls. now destruct (String.eqb ty ty2). }
  destruct (H _ eq_refl) as [H1 H2].
  repeat apply conj; auto.
  - apply get_set_same.
  - intros key' N. now apply get_set_other.
Qed.

(** X8.  The second check protects a key only until its cleanup has been
    called.  A call of [getResource] for the key whose cleanup the sweep
    waits for still returns the stored resource and sets [lastUsed], yet
    when that cleanup fulfils the sweep deletes the key all the same: the
    caller holds a resource that was cleaned, and the next call for the
    key calls a factory. *)
Theorem reacquiring_the_entry_being_cleaned_does_not_keep_it
    m (k : SweepFrame) info clock ty (f : F) (c : C)
    clock2 ty2 (f2 : F) (c2 : C) :
  JsMap.get (s_key k) (resources m) = Some info ->
  snd (getResource_call m clock (s_key k) ty f c)
  = GetDone (resource info)
  /\ JsMap.get (s_key k)
       (resources (fst (fst (getResource_call m clock (s_key k) ty f c))))
     = Some (touch info clock)
  /\ JsMap.get (s_key k)
       (resources
          (fst (fst (cleanupInactiveResources_resume
                       (fst (fst (getResource_call m clock (s_key k)
                                    ty f c)))
                       k (Fulfilled tt))))) = None
  /\ In (CallFactory f2 (s_key k))
        (snd (fst (getResource_call
                     (fst (fst (cleanupInactiveResources_resume
                                  (fst (fst (getResource_call m clock
                                               (s_key k) ty f c)))
                                  k (Fulfilled tt))))
                     clock2 (s_key k) ty2 f2 c2))).
Proof.
  intros G.
  rewrite (getResource_call_hit m clock (s_key k) ty f c info G).
  simpl fst. simpl snd.
  assert (D : JsMap.get (s_key k)
                (resources
                   (fst (fst (cleanupInactiveResources_resume
                                (with_resources m
                                   (JsMap.set (s_key k) (touch info clock)
                                      (resources m)))
                                k (Fulfilled tt))))) = None).
  { unfold cleanupInactiveResources_resume. simpl.
    destruct (sweep_loop _ (s_now k) (S (s_cleanedCount k)) (s_rest k)).
    simpl.
    apply get_delete_same. }
  repeat apply conj; auto.
  - apply get_set_same.
  - rewrite (getResource_call_miss _ _ _ _ _ _ D). simpl. auto.
Qed.

End SweepAndGetExtras.

(** * Properties of the code around the manager *)

Module LoggerFacts.
Import Logger.

(** X9.  The logger filters by severity and by nothing else.  A message
    of level [error] is written under every configured level; a message
    written under one configured level is written, with the same text and
    through the same console method, under every more verbose one; under
    [debug] everything is written; and only [debug] messages go through
    [console.debug], all others through [console.error]. *)
Theorem logger_filters_by_severity
    (configLogLevel verbose l : LogLevel) (date message : string) :
  logger configLogLevel LError date message
  = Some (ConsoleError, ("[ERROR] " ++ date ++ " - " ++ message)%string)
  /\ (logLevels configLogLevel <= logLevels verbose ->
      logger configLogLevel l date message <> None ->
      logger verbose l date message = logger configLogLevel l date message)
  /\ logger LDebug l date message <> None
  /\ (forall out,
        logger configLogLevel l date message = Some out ->
        logLevels l <= logLevels configLogLevel
        /\ (fst out = ConsoleDebug <-> l = LDebug)).
Proof.
  repeat apply conj.
  - now destruct configLogLevel.
  - unfold logger. intros Le.
    destruct (Nat.leb_spec (logLevels l) (logLevels configLogLevel)) as [A|A];
      [|congruence].
    intros _.
    destruct (Nat.leb_spec (logLevels l) (logLevels verbose)); [auto|lia].
  - now destruct l.
  - unfold logger. intros out.
    destruct (Nat.leb_spec (logLevels l) (logLevels configLogLevel)) as [A|A];
      [|discriminate].
    intros E; inversion E; subst; simpl. split; auto.
    destruct l; simpl; split; congruence.
Qed.

End LoggerFacts.

Module ConfigFacts.
Import Config.

Section WithParseInt.
Variable parseInt10 : string -> JsNumber.

Lemma parse_logLevel_Some v l :
  parse_logLevel v = Some l <->
  (v = None /\ l = LInfo)
  \/ (v = Some "error" /\ l = LError) \/ (v = Some "warn" /\ l = LWarn)
  \/ (v = Some "info" /\ l = LInfo) \/ (v = Some "debug" /\ l = LDebug).
Proof.
  unfold parse_logLevel. destruct v as [s|].
  - split.
    + destruct (String.eqb_spec s "error") as [->|N1];
        [intros E; inversion E; auto|].
      destruct (String.eqb_spec s "warn") as [->|N2];
        [intros E; inversion E; auto|].
      destruct (String.eqb_spec s "info") as [->|N3];
        [intros E; inversion E; auto 6|].
      destruct (String.eqb_spec s "debug") as [->|N4];
        [intros E; inversion E; auto 6|].
      discriminate.
    + intros H. decompose [or and] H; clear H; subst; try discriminate;
        match goal with
        | E : Some _ = Some _ |- _ => inversion E; subst; reflexivity
        end.
  - split.
    + intros E; inversion E; auto.
    + intros H. decompose [or and] H; clear H; subst;
        try discriminate; reflexivity.
Qed.

Lemma parse_interval_Some v i :
  parse_resourceCleanupInterval v = Some i <->
  (v = None /\ i = 1800000%Z) \/ (v = Some (JsInteger i) /\ (0 < i)%Z).
Proof.
  unfold parse_resourceCleanupInterval.
  destruct v as [[|n|z|]|]; try (split; [discriminate|];
    intros [[H _]|[H _]]; discriminate).
  - destruct (Z.ltb_spec 0 z) as [Lz|Lz]; split.
    + intros E; inversion E; subst. auto.
    + intros [[H _]|[H _]]; [discriminate|]. inversion H; auto.
    + discriminate.
    + intros [[H _]|[H L]]; [discriminate|]. inversion H; subst. lia.
  - split; [intros E; inversion E; auto|].
    intros [[_ ->]|[H _]]; [reflexivity|discriminate].
Qed.

Lemma raw_interval env :
  raw_resourceCleanupInterval (raw_of_env parseInt10 env)
  = match RESOURCE_CLEANUP_INTERVAL env with
    | Some s => if String.eqb s "" then None else Some (parseInt10 s)
    | None => None
    end.
Proof.
  unfold raw_of_env, truthy. simpl.
  destruct (RESOURCE_CLEANUP_INTERVAL env) as [s|]; auto.
  now destruct (String.eqb s "").
Qed.

(** X10.  The configuration loads exactly when [LOG_LEVEL] is unset or
    one of the four level names, and [RESOURCE_CLEANUP_INTERVAL] is unset,
    empty, or a text that [parseInt] turns into an integer above zero;
    [API_KEY] and [AV_PREMIUM] never make it fail.  Otherwise the module
    throws [Error("Invalid environment configuration.")].  So an empty
    [LOG_LEVEL] is refused while an empty interval falls back to the
    default. *)
Theorem config_loads_iff (env : Env) :
  ((exists c env', fst (load parseInt10 env) = Fulfilled (c, env'))
   <->
   (LOG_LEVEL env = None
    \/ In (LOG_LEVEL env)
         [Some "error"; Some "warn"; Some "info"; Some "debug"])
   /\ (truthy (RESOURCE_CLEANUP_INTERVAL env) = false
       \/ exists s z,
            RESOURCE_CLEANUP_INTERVAL env = Some s
            /\ parseInt10 s = JsInteger z /\ (0 < z)%Z))
  /\ ((forall c env', fst (load parseInt10 env) <> Fulfilled (c, env')) ->
      fst (load parseInt10 env)
      = Rejected (ErrorObj "Invalid environment configuration.")).
Proof.
  unfold load, safeParse. rewrite raw_interval. simpl raw_logLevel.
  split.
  - split.
    + intros (c & env' & E).
      destruct (parse_logLevel (LOG_LEVEL env)) as [l|] eqn:PL;
        [|discriminate].
      destruct (parse_resourceCleanupInterval _) as [i|] eqn:PI;
        [|discriminate].
      split.
      * apply parse_logLevel_Some in PL. simpl.
        destruct PL as [[-> _]|[[-> _]|[[-> _]|[[-> _]|[-> _]]]]]; auto 6.
      * apply parse_interval_Some in PI. unfold truthy.
        destruct (RESOURCE_CLEANUP_INTERVAL env) as [s|]; auto.
        destruct (String.eqb s ""); auto. right.
        destruct PI as [[H _]|[H L]]; [discriminate|].
        inversion H. now exists s, i.
    + intros [L I].
      assert (PL : exists l, parse_logLevel (LOG_LEVEL env) = Some l).
      { destruct L as [->|[<-|[<-|[<-|[<-|[]]]]]]; simpl; eauto. }
      destruct PL as [l ->].
      assert (PI : exists i,
                match RESOURCE_CLEANUP_INTERVAL env with
                | Some s => if String.eqb s "" then None
                            else Some (parseInt10 s)
                | None => None
                end = i /\ parse_resourceCleanupInterval i <> None).
      { destruct I as [I|(s & z & -> & P & Z0)].
        - unfold truthy in I.
          destruct (RESOURCE_CLEANUP_INTERVAL env) as [s|].
          + destruct (String.eqb s ""); [|discriminate].
            eexists; split; [reflexivity|discriminate].
          + eexists; split; [reflexivity|discriminate].
        - destruct (String.eqb s "").
          + eexists; split; [reflexivity|discriminate].
          + eexists; split; [reflexivity|]. rewrite P. simpl.
            destruct (Z.ltb_spec 0 z); [discriminate|lia]. }
      destruct PI as (i & -> & NN).
      destruct (parse_resourceCleanupInterval i); [|congruence].
      simpl. do 2 eexists. reflexivity.
  - intros NF.
    destruct (parse_logLevel (LOG_LEVEL env)) as [l|]; auto.
    destruct (parse_resourceCleanupInterval _) as [i|]; auto.
    exfalso. eapply NF. reflexivity.
Qed.

(** X11.  A configuration that loaded has an interval above zero: the
    default of 30 minutes when the variable is unset or empty, and
    otherwise the integer [parseInt] read.  The level is [info] when
    [LOG_LEVEL] is unset, the key is [API_KEY] as it is, and of the
    environment only [AV_PREMIUM] is rewritten, to "true" or "false". *)
Theorem loaded_config_values (env env' : Env) (c : t) :
  fst (load parseInt10 env) = Fulfilled (c, env') ->
  (0 < resourceCleanupInterval c)%Z
  /\ (truthy (RESOURCE_CLEANUP_INTERVAL env) = false ->
      resourceCleanupInterval c = 1800000%Z)
  /\ (forall s, RESOURCE_CLEANUP_INTERVAL env = Some s -> s <> "" ->
        parseInt10 s = JsInteger (resourceCleanupInterval c))
  /\ (LOG_LEVEL env = None -> logLevel c = LInfo)
  /\ apiKey c = API_KEY env
  /\ env' = {| API_KEY := API_KEY env;
               LOG_LEVEL := LOG_LEVEL env;
               RESOURCE_CLEANUP_INTERVAL := RESOURCE_CLEANUP_INTERVAL env;
               AV_PREMIUM := Some (if avPremium c then "true"
                                   else "false") |}.
Proof.
  unfold load, safeParse. rewrite raw_interval. simpl raw_logLevel.
  destruct (parse_logLevel (LOG_LEVEL env)) as [l|] eqn:PL;
    [|discriminate].
  destruct (parse_resourceCleanupInterval _) as [i|] eqn:PI;
    [|discriminate].
  simpl. intros E; inversion E; subst; simpl. clear E.
  apply parse_interval_Some in PI. repeat apply conj; auto.
  - destruct PI as [[_ ->]|[_ L]]; lia.
  - unfold truthy. intros Tr.
    destruct (RESOURCE_CLEANUP_INTERVAL env) as [s|].
    + destruct (String.eqb s ""); [|discriminate].
      destruct PI as [[_ ->]|[H _]]; [reflexivity|discriminate].
    + destruct PI as [[_ ->]|[H _]]; [reflexivity|discriminate].
  - intros s Es Ns. rewrite Es in PI.
    destruct (String.eqb_spec s ""); [contradiction|].
    destruct PI as [[H _]|[H _]]; [discriminate|]. now inversion H.
  - intros N. rewrite N in PL. now inversion PL.
Qed.

(** X12.  Loading is stable: from the environment a successful load
    leaves behind (with [AV_PREMIUM] rewritten), loading again gives the
    same configuration and the same environment. *)
Theorem reloading_gives_the_same_config (env env' : Env) (c : t) :
  fst (load parseInt10 env) = Fulfilled (c, env') ->
  fst (load parseInt10 env') = Fulfilled (c, env').
Proof.
  unfold load, safeParse. rewrite !raw_interval. simpl raw_logLevel.
  destruct (parse_logLevel (LOG_LEVEL env)) as [l|] eqn:PL;
    [|discriminate].
  destruct (parse_resourceCleanupInterval _) as [i|] eqn:PI;
    [|discriminate].
  simpl. intros E; inversion E; subst; simpl. clear E.
  rewrite PL, PI. simpl.
  now destruct (parse_avPremium (AV_PREMIUM env)).
Qed.

End WithParseInt.
End ConfigFacts.

Section Singleton.
Context {T F C : Type}.

Lemma run_interval (inputs : list (@Input T F C)) : forall w w',
  run w inputs = Some w' ->
  cleanupIntervalMs (manager w') = cleanupIntervalMs (manager w).
Proof.
  induction inputs as [|i inputs IH]; intros w w'; simpl.
  - intros E; inversion E; auto.
  - destruct (step w i) as [w1|] eqn:S1; [|discriminate].
    intros R. rewrite (IH _ _ R).
    now destruct (step_store_change _ _ _ S1) as (_ & I & _).
Qed.

(** X13.  The exported manager of a process whose configuration loaded
    has, in every state the event loop reaches, the interval of the
    configuration, which is above zero: the interval is never negative
    where the second check of the sweep relies on that. *)
Theorem singleton_interval_is_positive
    (parseInt10 : string -> Config.JsNumber) (env env' : Config.Env)
    (c : Config.t) (inputs : list (@Input T F C)) w :
  fst (Config.load parseInt10 env) = Fulfilled (c, env') ->
  run (new_world (resourceManager (F:=F) c)) inputs = Some w ->
  cleanupIntervalMs (manager w) = Config.resourceCleanupInterval c
  /\ (0 < cleanupIntervalMs (manager w))%Z.
Proof.
  intros L R. rewrite (run_interval _ _ _ R). simpl. split; auto.
  unfold Config.load, Config.safeParse in L.
  destruct (Config.parse_logLevel _); [|discriminate].
  destruct (Config.parse_resourceCleanupInterval _) as [i|] eqn:PI;
    [|discriminate].
  simpl in L. inversion L; subst; simpl.
  apply ConfigFacts.parse_interval_Some in PI.
  destruct PI as [[_ ->]|[_ Lt]]; lia.
Qed.

End Singleton.

Module IndexFacts.
Import Index JsMapFacts.

Section ToolFacts.
Context {AV D : Type}.

Local Abbreviation Mgr := (@ResourceManager AV ToolCleanup).
Local Abbreviation TEffect := (@ToolEffect AV).
Local Abbreviation Result := (@ToolResult D).

Implicit Types (m : Mgr) (effs : list TEffect).
Implicit Types (toolName key : string) (clock : Z).
Implicit Types (avantageMethod : AV -> Attempt Result).
Implicit Types (JSON_stringify : D -> Attempt (option string)).

Lemma method_calls_app effs effs' :
  method_calls (effs ++ effs') = method_calls effs ++ method_calls effs'.
Proof. apply flat_map_app. Qed.

Lemma manager_effects_app effs effs' :
  manager_effects (effs ++ effs')
  = manager_effects effs ++ manager_effects effs'.
Proof. apply flat_map_app. Qed.

Lemma method_calls_ManagerDid
    (l : list (@Effect AV ToolFactory ToolCleanup)) :
  method_calls (map ManagerDid l) = [].
Proof. induction l; simpl; auto. Qed.

Lemma manager_effects_ManagerDid
    (l : list (@Effect AV ToolFactory ToolCleanup)) :
  manager_effects (map ManagerDid l) = l.
Proof. induction l; simpl; congruence. Qed.

Lemma catch_block_logs toolName (e : Caught) :
  method_calls (fst (catch_block (AV:=AV) toolName e)) = []
  /\ manager_effects (fst (catch_block (AV:=AV) toolName e)) = [].
Proof. destruct e as [msg|msg|l wr| |[l|]]; simpl; auto. Qed.

Lemma handle_result_logs toolName (result : Result) JSON_stringify :
  method_calls (fst (handle_result (AV:=AV) toolName result JSON_stringify))
  = []
  /\ manager_effects
       (fst (handle_result (AV:=AV) toolName result JSON_stringify)) = [].
Proof.
  unfold handle_result.
  destruct (r_error result) as [[|]|].
  - destruct (Config.truthy (r_reason result)); simpl; auto.
  - destruct (r_data result) as [d|]; simpl; auto.
    destruct (JSON_stringify d) as [[s|]|e]; simpl; auto.
    destruct e as [msg|msg|l wr| |[l|]]; simpl; auto.
  - destruct (r_data result) as [d|]; simpl; auto.
    destruct (JSON_stringify d) as [[s|]|e]; simpl; auto.
    destruct e as [msg|msg|l wr| |[l|]]; simpl; auto.
Qed.

(** What a call does once its key is resolved and [getResource] has
    given an instance. *)
Lemma executeAvantageTool_with_instance
    m clock clock' uuid toolName extra cfg factoryOutcome avantageMethod
    JSON_stringify key m' meffs av :
  resolveApiKey extra cfg = Some key ->
  getResource m clock clock' uuid key "avantage_client" newAVantage
    noopCleanup factoryOutcome = (m', meffs, Fulfilled av) ->
  fst (fst (executeAvantageTool m clock clock' uuid toolName extra cfg
              factoryOutcome avantageMethod JSON_stringify)) = m'
  /\ method_calls
       (snd (fst (executeAvantageTool m clock clock' uuid toolName extra
                    cfg factoryOutcome avantageMethod JSON_stringify)))
     = [av]
  /\ manager_effects
       (snd (fst (executeAvantageTool m clock clock' uuid toolName extra
                    cfg factoryOutcome avantageMethod JSON_stringify)))
     = meffs.
Proof.
  intros R G. unfold executeAvantageTool. rewrite R, G.
  pose proof (catch_block_logs toolName) as CB.
  pose proof (fun r => handle_result_logs toolName r JSON_stringify) as HR.
  destruct (avantageMethod av) as [result|e].
  - specialize (HR result).
    destruct (handle_result toolName result JSON_stringify) as [effs out].
    simpl in *. destruct HR as [H1 H2].
    rewrite !method_calls_app, !manager_effects_app. simpl.
    rewrite method_calls_ManagerDid, manager_effects_ManagerDid, H1, H2.
    simpl. now rewrite app_nil_r.
  - specialize (CB e).
    destruct (catch_block toolName e) as [effs out].
    simpl in *. destruct CB as [H1 H2].
    rewrite !method_calls_app, !manager_effects_app. simpl.
    rewrite method_calls_ManagerDid, manager_effects_ManagerDid, H1, H2.
    simpl. now rewrite app_nil_r.
Qed.

(** X14.  The key of a call is [extraArgs.apiKey] when that is set and
    not empty, else the configured key when that is set and not empty.
    With neither, the call fails with the [UserError] of
    [apiKeyErrorMessage] before anything else happens: the manager is
    not asked, no factory and no library method is called. *)
Theorem api_key_resolution
    m clock clock' uuid toolName extra cfg (factoryOutcome : Settled AV)
    avantageMethod JSON_stringify :
  (Config.truthy extra = true -> resolveApiKey extra cfg = extra)
  /\ (Config.truthy extra = false -> Config.truthy cfg = true ->
      resolveApiKey extra cfg = cfg)
  /\ (forall key, resolveApiKey extra cfg = Some key -> key <> "")
  /\ (resolveApiKey extra cfg = None <->
      Config.truthy extra = false /\ Config.truthy cfg = false)
  /\ (resolveApiKey extra cfg = None ->
      executeAvantageTool m clock clock' uuid toolName extra cfg
        factoryOutcome avantageMethod JSON_stringify
      = (m,
         [ToolLogged (LogExecuting toolName); ToolLogged (LogArgs toolName);
          ToolLogged (LogKeyMissing toolName)],
         ToolFails Config.apiKeyErrorMessage)).
Proof.
  assert (TK : forall v key,
            Config.truthy v = true -> v = Some key -> key <> "").
  { intros [s|] key; simpl; [|discriminate].
    destruct (String.eqb_spec s ""); [discriminate|].
    intros _ E; inversion E; subst; auto. }
  assert (TN : Config.truthy (@None string) = false) by reflexivity.
  split; [|split; [|split; [|split]]].
  - unfold resolveApiKey. intros ->. reflexivity.
  - unfold resolveApiKey. intros -> ->. reflexivity.
  - unfold resolveApiKey. intros key.
    destruct (Config.truthy extra) eqn:E1; [now apply TK|].
    destruct (Config.truthy cfg) eqn:E2; [now apply TK|discriminate].
  - unfold resolveApiKey.
    destruct (Config.truthy extra) eqn:E1.
    + split; [|intros [? ?]; discriminate].
      intros H. rewrite H in E1. discriminate.
    + destruct (Config.truthy cfg) eqn:E2.
      * split; [|intros [? ?]; discriminate].
        intros H. rewrite H in E2. discriminate.
      * split; auto.
  - intros R. unfold executeAvantageTool. now rewrite R.
Qed.



(** X17.  Calls with the same key share one instance, calls with
    different keys do not.  After a call that created the instance of
    [key], a later call that resolves to [key] hands that instance to
    the library method and calls no factory; a later call that resolves
    to another key, not yet in the store, calls the factory with that
    key, hands the new instance to the library method, and leaves the
    entry of [key] with its instance. *)
Theorem instances_are_shared_per_key
    m clock clock' uuid toolName extra cfg key (av : AV)
    avantageMethod JSON_stringify
    clock2 clock2' uuid2 toolName2 extra2 cfg2 key2
    (factoryOutcome2 : Settled AV) (av2 : AV) avantageMethod2 JSON_stringify2 :
  resolveApiKey extra cfg = Some key ->
  JsMap.get key (resources m) = None ->
  resolveApiKey extra2 cfg2 = Some key2 ->
  method_calls
    (snd (fst (executeAvantageTool m clock clock' uuid toolName extra cfg
                 (Fulfilled av) avantageMethod JSON_stringify))) = [av]
  /\ (key2 = key ->
      method_calls
        (snd (fst (executeAvantageTool
                     (fst (fst (executeAvantageTool m clock clock' uuid
                                  toolName extra cfg (Fulfilled av)
                                  avantageMethod JSON_stringify)))
                     clock2 clock2' uuid2 toolName2 extra2 cfg2
                     factoryOutcome2 avantageMethod2 JSON_stringify2)))
      = [av]
      /\ factory_calls
           (manager_effects
              (snd (fst (executeAvantageTool
                           (fst (fst (executeAvantageTool m clock clock'
                                        uuid toolName extra cfg
                                        (Fulfilled av) avantageMethod
                                        JSON_stringify)))
                           clock2 clock2' uuid2 toolName2 extra2 cfg2
                           factoryOutcome2 avantageMethod2
                           JSON_stringify2)))) = 0)
  /\ (key2 <> key -> JsMap.get key2 (resources m) = None ->
      method_calls
        (snd (fst (executeAvantageTool
                     (fst (fst (executeAvantageTool m clock clock' uuid
                                  toolName extra cfg (Fulfilled av)
                                  avantageMethod JSON_stringify)))
                     clock2 clock2' uuid2 toolName2 extra2 cfg2
                     (Fulfilled av2) avantageMethod2 JSON_stringify2)))
      = [av2]
      /\ In (CallFactory newAVantage key2)
            (manager_effects
               (snd (fst (executeAvantageTool
                            (fst (fst (executeAvantageTool m clock clock'
                                         uuid toolName extra cfg
                                         (Fulfilled av) avantageMethod
                                         JSON_stringify)))
                            clock2 clock2' uuid2 toolName2 extra2 cfg2
                            (Fulfilled av2) avantageMethod2
                            JSON_stringify2))))
      /\ option_map resource
           (JsMap.get key
              (resources
                 (fst (fst (executeAvantageTool
                              (fst (fst (executeAvantageTool m clock clock'
                                           uuid toolName extra cfg
                                           (Fulfilled av) avantageMethod
                                           JSON_stringify)))
                              clock2 clock2' uuid2 toolName2 extra2 cfg2
                              (Fulfilled av2) avantageMethod2
                              JSON_stringify2)))))
         = Some av).
Proof.
  intros R G R2.
  set (info := {| resource := av; lastUsed := clock'; instanceId := uuid;
                  resourceType := "avantage_client"; cacheKey := key;
                  cleanupFn := noopCleanup |}).
  set (m1 := with_resources m (JsMap.set key info (resources m))).
  assert (G1 : getResource m clock clock' uuid key "avantage_client"
                 newAVantage noopCleanup (Fulfilled av)
               = (m1,
                  [Log (CreatingNew "avantage_client" key);
                   CallFactory newAVantage key;
                   Log (CreatedResource "avantage_client" uuid)],
                  Fulfilled av)).
  { unfold getResource, getResource_call. now rewrite G. }
  destruct (executeAvantageTool_with_instance m clock clock' uuid toolName
              extra cfg (Fulfilled av) avantageMethod JSON_stringify
              key _ _ _ R G1) as (E1 & M1 & _).
  rewrite E1. split; [exact M1|]. split.
  - intros ->.
    assert (G2 : getResource m1 clock2 clock2' uuid2 key "avantage_client"
                   newAVantage noopCleanup factoryOutcome2
                 = (with_resources m1
                      (JsMap.set key (touch info clock2) (resources m1)),
                    [Log (ReusingExisting "avantage_client" uuid key)],
                    Fulfilled av)).
    { unfold getResource, getResource_call. unfold m1 at 1. simpl resources.
      rewrite get_set_same. reflexivity. }
    destruct (executeAvantageTool_with_instance m1 clock2 clock2' uuid2
                toolName2 extra2 cfg2 factoryOutcome2 avantageMethod2
                JSON_stringify2 key _ _ _ R2 G2) as (_ & M2 & F2).
    rewrite M2, F2. auto.
  - intros N G'.
    assert (G2' : JsMap.get key2 (resources m1) = None).
    { unfold m1. simpl. now rewrite get_set_other. }
    assert (G2 : getResource m1 clock2 clock2' uuid2 key2 "avantage_client"
                   newAVantage noopCleanup (Fulfilled av2)
                 = (with_resources m1
                      (JsMap.set key2
                         {| resource := av2; lastUsed := clock2';
                            instanceId := uuid2;
                            resourceType := "avantage_client";
                            cacheKey := key2; cleanupFn := noopCleanup |}
                         (resources m1)),
                    [Log (CreatingNew "avantage_client" key2);
                     CallFactory newAVantage key2;
                     Log (CreatedResource "avantage_client" uuid2)],
                    Fulfilled av2)).
    { unfold getResource, getResource_call. now rewrite G2'. }
    destruct (executeAvantageTool_with_instance m1 clock2 clock2' uuid2
                toolName2 extra2 cfg2 (Fulfilled av2) avantageMethod2
                JSON_stringify2 key2 _ _ _ R2 G2) as (E2 & M2 & F2).
    rewrite E2, M2, F2. repeat apply conj; auto.
    + simpl. auto.
    + simpl. rewrite get_set_other by assumption.
      now rewrite get_set_same.
Qed.

(** X18.  Each of the four shutdown handlers starts the cleanup of every
    entry in the store and stops the timer, and then exits without
    waiting: at the call of [process.exit], after "Resource cleanup
    complete." is logged, the store still holds every entry.  The exit
    code is 0 for the two signals and 1 for the two error events. *)
Theorem shutdown_handlers_start_cleanups_and_exit m (ev : ProcessEvent) :
  (forall key info,
     In (key, info) (resources m) <->
     In (ManagerDid (CallCleanup key info))
        (snd (fst (on_process_event m ev))))
  /\ cleanupTimer (fst (fst (on_process_event m ev))) = false
  /\ resources (fst (fst (on_process_event m ev))) = resources m
  /\ last (snd (fst (on_process_event m ev))) (ToolLogged LogShuttingDown)
     = ToolLogged LogCleanupComplete
  /\ snd (on_process_event m ev)
     = match ev with
       | SIGINT | SIGTERM => 0%Z
       | UncaughtException | UnhandledRejection => 1%Z
       end.
Proof.
  assert (C : cleanup m
              = (stopped m,
                 ToolLogged LogShuttingDown
                 :: map ManagerDid
                      (snd (fst (destroyAllNow_call (F:=ToolFactory)
                                   never_throws m)))
                 ++ [ToolLogged LogCleanupComplete])).
  { unfold cleanup.
    now rewrite (destroyAllNow_call_quiet never_throws m). }
  assert (I : forall key info (first : ToolLog),
            In (key, info) (resources m) <->
            In (ManagerDid (CallCleanup key info))
               (ToolLogged first
                :: ToolLogged LogShuttingDown
                :: map ManagerDid
                     (snd (fst (destroyAllNow_call (F:=ToolFactory)
                                  never_throws m)))
                ++ [ToolLogged LogCleanupComplete])).
  { intros key info first. split.
    - intros H. right. right. apply in_or_app. left.
      apply in_map. now apply In_destroy_call_quiet.
    - intros [H|[H|H]]; try discriminate.
      apply in_app_or in H. destruct H as [H|[H|[]]]; [|discriminate].
      apply in_map_iff in H. destruct H as (x & E & H).
      inversion E; subst. now apply In_destroy_call in H. }
  unfold on_process_event. rewrite C.
  assert (L : forall (l : list TEffect) a d, last (l ++ [a]) d = a).
  { induction l as [|x l IH]; intros a d; simpl; auto.
    destruct (l ++ [a]) eqn:E; [now destruct l|]. rewrite <- E. apply IH. }
  destruct ev; simpl fst; simpl snd; repeat apply conj; auto;
    try (intros key info; apply I);
    match goal with
    | |- last (?a :: ?b :: ?l ++ [?c]) ?d = _ =>
        change (last ((a :: b :: l) ++ [c]) d = c); apply L
    end.
Qed.

End ToolFacts.
End IndexFacts.

(** * The further statements at concrete inputs *)

Section MoreInstances.
Import Examples HostExamples.

Lemma reachable_store_is_well_formed_witness :
  run world100 lifecycle_of_A = Some (after world100 lifecycle_of_A)
  /\ NoDup (ids (manager (after world100 lifecycle_of_A)))
  /\ cleanupIntervalMs (manager (after world100 lifecycle_of_A)) = 100%Z.
Proof.
  split; [reflexivity|].
  pose proof (reachable_store_is_well_formed (F:=string) (Some 100%Z)
                1800000%Z lifecycle_of_A (after world100 lifecycle_of_A)
                eq_refl) as (_ & N & _ & I).
  split; [exact N|exact I].
Defined.

Lemma stopped_timer_never_restarts_witness :
  cleanupTimer (manager (after world100 shutdown_then_createX)) = false
  /\ run (after world100 shutdown_then_createX) calls_after_shutdown
     = Some (after (after world100 shutdown_then_createX)
               calls_after_shutdown)
  /\ cleanupTimer
       (manager (after (after world100 shutdown_then_createX)
                   calls_after_shutdown)) = false.
Proof.
  split; [reflexivity|]. split; [reflexivity|].
  exact (proj1 (stopped_timer_never_restarts calls_after_shutdown
                  (after world100 shutdown_then_createX)
                  (after (after world100 shutdown_then_createX)
                     calls_after_shutdown)
                  eq_refl eq_refl)).
Defined.

Lemma no_sweep_waits_after_shutdown :
  ~ sweep_waiting (after world100 shutdown_then_createX).
Proof. intros (tid & k & []). Qed.

Lemma nothing_is_cleaned_after_shutdown_witness :
  cleanupTimer (manager (after world100 shutdown_then_createX)) = false
  /\ ~ sweep_waiting (after world100 shutdown_then_createX)
  /\ forallb (fun i => negb (is_destroy i)) calls_after_shutdown = true
  /\ exists effs,
       effects (after (after world100 shutdown_then_createX)
                  calls_after_shutdown)
       = effects (after world100 shutdown_then_createX) ++ effs
       /\ cleanups effs = 0.
Proof.
  split; [reflexivity|]. split; [exact no_sweep_waits_after_shutdown|].
  split; [reflexivity|].
  exact (nothing_is_cleaned_after_shutdown calls_after_shutdown
           (after world100 shutdown_then_createX)
           (after (after world100 shutdown_then_createX)
              calls_after_shutdown)
           eq_refl no_sweep_waits_after_shutdown eq_refl eq_refl).
Defined.

Lemma shutdown_waits_ok : world_ok shutdown_waits.
Proof.
  apply (run_world_ok (createA ++ [CallDestroy never_throws]) world100);
    [reflexivity|exact world100_ok].
Qed.

Lemma entry_created_during_shutdown_witness :
  world_ok shutdown_waits
  /\ find_task 1 (tasks shutdown_waits)
     = Some (TDestroy (resources (manager shutdown_waits)))
  /\ JsMap.get "B" (resources (manager shutdown_waits)) = None
  /\ exists w2 w3,
       run shutdown_waits
         [CallGet 10 "B" "client" "makeB" "closeB";
          FactorySettles (nextTask shutdown_waits) 11 (Fulfilled "rb")]
       = Some w2
       /\ run w2 [AllSettle 1 [Fulfilled tt]] = Some w3
       /\ resources (manager w3) = [].
Proof.
  split; [exact shutdown_waits_ok|]. split; [reflexivity|].
  split; [reflexivity|].
  destruct (entry_created_during_shutdown_is_dropped_uncleaned
              shutdown_waits 1 (resources (manager shutdown_waits))
              [Fulfilled tt] 10%Z 11%Z "B" "client" "makeB" "closeB" "rb"
              shutdown_waits_ok eq_refl eq_refl eq_refl)
    as (w2 & w3 & R2 & _ & _ & R3 & E3 & _).
  exists w2, w3. split; [exact R2|]. split; [exact R3|exact E3].
Defined.


Lemma sweep_with_fulfilling_cleanups_witness :
  unique_keys mgrAB
  /\ (forall key info, fulfilled (fulfils_all key info) = true)
  /\ resources (fst (cleanupInactiveResources (F:=string) fulfils_all
                       mgrAB 150))
     = [entry "B" "r2" 200 1 "closeB"].
Proof.
  split; [exact mgrAB_unique_keys|]. split; [reflexivity|].
  exact (proj1 (sweep_with_fulfilling_cleanups_keeps_the_active_entries
                  (F:=string) fulfils_all mgrAB 150%Z mgrAB_unique_keys
                  (fun _ _ => eq_refl))).
Defined.

Lemma created_resource_is_stored_and_reused_witness :
  JsMap.get "A" (resources mgr100) = None
  /\ snd (getResource mgr100 0 5 0 "A" "client" "makeA" "closeA"
            (Fulfilled "r1")) = Fulfilled "r1".
Proof.
  split; [reflexivity|].
  exact (proj1 (created_resource_is_stored_and_reused
                  mgr100 0%Z 5%Z 0 "A" "client" "makeA" "closeA" "r1"
                  9%Z 9%Z 1 "client" "makeA" "closeA"
                  (Rejected (ErrorObj "not called")) eq_refl)).
Defined.

Lemma reacquiring_the_entry_being_cleaned_witness :
  JsMap.get (s_key frame150) (resources mgrAB) = Some infoA
  /\ snd (getResource_call mgrAB 160 (s_key frame150) "client" "makeA"
            "closeA") = GetDone "r1".
Proof.
  split; [reflexivity|].
  exact (proj1 (reacquiring_the_entry_being_cleaned_does_not_keep_it
                  mgrAB frame150 infoA 160%Z "client" "makeA" "closeA"
                  170%Z "client" "makeA" "closeA" eq_refl)).
Defined.

Lemma env_minute_loads :
  fst (Config.load parseInt10 env_minute)
  = Fulfilled (config_minute, env_minute_after).
Proof. reflexivity. Qed.

Lemma loaded_config_values_witness :
  fst (Config.load parseInt10 env_minute)
  = Fulfilled (config_minute, env_minute_after)
  /\ (0 < Config.resourceCleanupInterval config_minute)%Z.
Proof.
  split; [reflexivity|].
  exact (proj1 (ConfigFacts.loaded_config_values parseInt10 env_minute
                  env_minute_after config_minute eq_refl)).
Defined.

Lemma reloading_gives_the_same_config_witness :
  fst (Config.load parseInt10 env_minute)
  = Fulfilled (config_minute, env_minute_after)
  /\ fst (Config.load parseInt10 env_minute_after)
     = Fulfilled (config_minute, env_minute_after).
Proof.
  split; [reflexivity|].
  exact (ConfigFacts.reloading_gives_the_same_config parseInt10 env_minute
           env_minute_after config_minute eq_refl).
Defined.

Lemma singleton_interval_is_positive_witness :
  fst (Config.load parseInt10 env_minute)
  = Fulfilled (config_minute, env_minute_after)
  /\ run (new_world (resourceManager (F:=string) config_minute)) createA
     = Some (after (new_world (resourceManager (F:=string) config_minute))
               createA)
  /\ (0 < cleanupIntervalMs
            (manager
               (after (new_world (resourceManager (F:=string)
                                    config_minute)) createA)))%Z.
Proof.
  split; [reflexivity|]. split; [reflexivity|].
  exact (proj2 (singleton_interval_is_positive (F:=string) parseInt10
                  env_minute env_minute_after config_minute createA
                  (after (new_world (resourceManager (F:=string)
                                       config_minute)) createA)
                  eq_refl eq_refl)).
Defined.



Lemma instances_are_shared_per_key_witness :
  Index.resolveApiKey None (Some "KEY1") = Some "KEY1"
  /\ JsMap.get "KEY1" (resources toolMgr) = None
  /\ Index.resolveApiKey (Some "KEY2") (Some "KEY1") = Some "KEY2"
  /\ Index.method_calls
       (snd (fst (Index.executeAvantageTool toolMgr 0 1 0 "coreStock_quote"
                    None (Some "KEY1") (Fulfilled "av1") quote_ok
                    stringify_ok))) = ["av1"].
Proof.
  split; [reflexivity|]. split; [reflexivity|]. split; [reflexivity|].
  exact (proj1 (IndexFacts.instances_are_shared_per_key
                  toolMgr 0%Z 1%Z 0 "coreStock_quote" None (Some "KEY1")
                  "KEY1" "av1" quote_ok stringify_ok
                  5%Z 6%Z 1 "forex_daily" (Some "KEY2") (Some "KEY1")
                  "KEY2" (Fulfilled "av2") "av2" quote_ok stringify_ok
                  eq_refl eq_refl eq_refl)).
Defined.

(** The claim of C2 fails here.  The cleanup of the entry with
    identifier 0 is called by the sweep at 200, fails, and is called
    again by the sweep at 300.  Where the sweep at 300 starts while the
    sweep at 200 still waits, both call it, with no failure at all.  And
    where it throws when a shutdown calls it, the entry stays in the
    store and the next shutdown calls it again. *)
Lemma C2_counterexample :
  option_map (fun w => instance_cleanups 0 (effects w))
    (run world100 (createA ++ sweepA_fails_then_succeeds))
  = Some 2
  /\ option_map (fun w => instance_cleanups 0 (effects w))
       (run world100 (createA ++ sweeps_overlap))
     = Some 2
  /\ option_map (fun w => instance_cleanups 0 (effects w))
       (run world100 (createA ++ shutdown_throws_then_again))
     = Some 2.
Proof. repeat split. Qed.

Lemma lifecycle_and_shutdown_orderly :
  orderly world100 lifecycle_and_shutdown.
Proof.
  unfold lifecycle_and_shutdown, lifecycle_of_A.
  repeat (split; [reflexivity || exact I
                  || (split; [reflexivity|intros kv _; reflexivity])|]).
  exact I.
Qed.

Lemma C2_witness :
  run world100 lifecycle_and_shutdown
  = Some (after world100 lifecycle_and_shutdown)
  /\ orderly world100 lifecycle_and_shutdown
  /\ task_cleanups 3 0 world100 lifecycle_and_shutdown = 1
  /\ (forall tid id,
        task_cleanups tid id world100 lifecycle_and_shutdown <= 1)
  /\ (forall id,
        instance_cleanups id
          (effects (after world100 lifecycle_and_shutdown)) <= 1).
Proof.
  split; [reflexivity|].
  split; [exact lifecycle_and_shutdown_orderly|].
  split; [reflexivity|].
  pose proof (C2_cleanup_calls_of_an_entry (F:=string) (Some 100%Z)
                1800000%Z lifecycle_and_shutdown
                (after world100 lifecycle_and_shutdown) eq_refl)
    as (_ & _ & Once & _ & _ & All).
  split; [exact Once|].
  exact (All lifecycle_and_shutdown_orderly).
Defined.



End MoreInstances.
